(** * Signals over an intrusive list: a heap model of [intrusive_list.h]
      and [signals.h], and the properties of emission under mutation.

    The objects of the program live in a modelled heap.  An address is a
    number.  All [list_element<Tag>] sub-objects of one tag form one finite
    map from addresses to their [next] and [prev] fields, so that two
    pointers to the same element alias as they do in the program; a null
    pointer is [None] and a released element is absent from the map.
    Every member function is translated statement by statement: each field
    is read from the heap where the C++ statement reads it and written
    where it writes it, and a read or write through a null or dangling
    pointer is a [Fault].

    A callback is an input of the library.  It is given as data, a list of
    [op]: the calls it makes into the library, a guard on captured state,
    or a raised exception.  The callbacks that were invoked are recorded,
    in order, in the [trace] of the state.

    Emission and callbacks call each other, so they are defined by
    recursion on a fuel; loops over a list take the size of the heap as
    fuel.  Results are stated with a sufficient amount of fuel, and more
    fuel never changes a result ([fuel_mono]). *)

From stdpp Require Import functions gmap list fin_maps.

Set Warnings "-register-all,-clear-no-such-hyp".

(** ** Outcomes of running code on the modelled heap *)

(** [Fault]: a null or unallocated pointer was dereferenced.
    [OutOfFuel]: the recursion budget was exhausted (models divergence). *)
Inductive result (A : Type) : Type :=
  | Ok (a : A)
  | Fault
  | OutOfFuel.
Arguments Ok {A} a.
Arguments Fault {A}.
Arguments OutOfFuel {A}.

#[global] Instance result_ret : MRet result := fun A a => Ok a.
#[global] Instance result_bind : MBind result := fun A B f m =>
  match m with
  | Ok a => f a
  | Fault => Fault
  | OutOfFuel => OutOfFuel
  end.

(** ** intrusive_list.h *)

Module intrusive.

(** [list_element<Tag>]: two raw pointers; [None] is [nullptr]. *)
Record list_element (K : Type) : Type :=
  ListElement { next : option K; prev : option K }.
Arguments ListElement {K} next prev.
Arguments next {K} _.
Arguments prev {K} _.

#[global] Instance list_element_eq_dec {K} `{EqDecision K} : EqDecision (list_element K).
Proof. solve_decision. Defined.

Section list.
Context {K : Type} `{Countable K}.

Abbreviation links := (gmap K (list_element K)).

(** Dereferencing a pointer: null and unallocated addresses fault. *)
Definition load (h : links) (p : option K) : result (list_element K) :=
  match p with
  | None => Fault
  | Some a => match h !! a with Some e => Ok e | None => Fault end
  end.

Definition get_next (h : links) (p : option K) : result (option K) :=
  e ← load h p; Ok (next e).

Definition get_prev (h : links) (p : option K) : result (option K) :=
  e ← load h p; Ok (prev e).

Definition set_next (h : links) (p : option K) (v : option K) : result links :=
  match p with
  | None => Fault
  | Some a =>
      match h !! a with
      | Some e => Ok (<[a := ListElement v (prev e)]> h)
      | None => Fault
      end
  end.

Definition set_prev (h : links) (p : option K) (v : option K) : result links :=
  match p with
  | None => Fault
  | Some a =>
      match h !! a with
      | Some e => Ok (<[a := ListElement (next e) v]> h)
      | None => Fault
      end
  end.

(** [list_element::unlink]: every field is read again from memory at each
    use, as the C++ statements do. *)
Definition unlink (this : K) (h : links) : result (option K * links) :=
  n ← get_next h (Some this);
  h ← (match n with
       | Some _ => p ← get_prev h (Some this); set_prev h n p
       | None => Ok h
       end);
  p ← get_prev h (Some this);
  h ← (match p with
       | Some _ => n ← get_next h (Some this); set_next h p n
       | None => Ok h
       end);
  ret ← get_next h (Some this);
  h ← set_next h (Some this) None;
  h ← set_prev h (Some this) None;
  Ok (ret, h).

(** [list_element::operator=(list_element&&)] *)
Definition element_move_assign (this r : K) (h : links) : result links :=
  '(_, h) ← unlink this h;
  rn ← get_next h (Some r);
  h ← set_next h (Some this) rn;
  rp ← get_prev h (Some r);
  h ← set_prev h (Some this) rp;
  n ← get_next h (Some this);
  h ← (match n with
       | Some _ => set_prev h n (Some this)
       | None => Ok h
       end);
  p ← get_prev h (Some this);
  h ← (match p with
       | Some _ => set_next h p (Some this)
       | None => Ok h
       end);
  h ← set_prev h (Some r) None;
  h ← set_next h (Some r) None;
  Ok h.

(** A [list] object is identified by the address of its [root]. *)

(** [list::list()] *)
Definition list_init (root : K) (h : links) : links :=
  <[root := ListElement (Some root) (Some root)]> h.

Definition empty (root : K) (h : links) : result bool :=
  n ← get_next h (Some root); Ok (bool_decide (n = Some root)).

Definition begin (root : K) (h : links) : result (option K) :=
  get_next h (Some root).

Definition end_ (root : K) : option K := Some root.

(** [list::insert(pos, u)] *)
Definition insert (pos : option K) (v : K) (h : links) : result links :=
  pp ← get_prev h pos;
  h ← set_next h pp (Some v);
  pp ← get_prev h pos;
  h ← set_prev h (Some v) pp;
  h ← set_next h (Some v) pos;
  set_prev h pos (Some v).

Definition push_front (root : K) (v : K) (h : links) : result links :=
  b ← begin root h; insert b v h.

Definition push_back (root : K) (v : K) (h : links) : result links :=
  insert (end_ root) v h.

(** [list::pop_back] and [list::pop_front]: [root.prev->unlink()] and
    [root.next->unlink()], with no test for emptiness. *)
Definition pop_back (root : K) (h : links) : result links :=
  p ← get_prev h (Some root);
  match p with
  | None => Fault
  | Some x => '(_, h) ← unlink x h; Ok h
  end.

Definition pop_front (root : K) (h : links) : result links :=
  n ← get_next h (Some root);
  match n with
  | None => Fault
  | Some x => '(_, h) ← unlink x h; Ok h
  end.

(** [list::back] and [list::front]: the addresses of [*root.prev] and
    [*root.next]. *)
Definition back (root : K) (h : links) : result K :=
  p ← get_prev h (Some root);
  match p with
  | None => Fault
  | Some x => Ok x
  end.

Definition front (root : K) (h : links) : result K :=
  n ← get_next h (Some root);
  match n with
  | None => Fault
  | Some x => Ok x
  end.

(** [n] applications of [iterator::operator++] *)
Fixpoint increment (n : nat) (h : links) (it : option K) : result (option K) :=
  match n with
  | 0 => Ok it
  | S n => it ← get_next h it; increment n h it
  end.

(** [n] applications of [iterator::operator--] *)
Fixpoint decrement (n : nat) (h : links) (it : option K) : result (option K) :=
  match n with
  | 0 => Ok it
  | S n => it ← get_prev h it; decrement n h it
  end.

(** [list::erase(pos)] *)
Definition erase (pos : option K) (h : links) : result (option K * links) :=
  ret ← get_next h pos;
  match pos with
  | None => Fault
  | Some x => '(_, h) ← unlink x h; Ok (ret, h)
  end.

(** The [while] loop of [list::clear]. *)
Fixpoint clear_loop (fuel : nat) (nx : option K) (h : links) : result links :=
  match fuel with
  | 0 => OutOfFuel
  | S fuel =>
      nn ← get_next h nx;
      match nn with
      | Some _ =>
          h ← set_next h nx None;
          h ← set_prev h nx None;
          clear_loop fuel nn h
      | None => set_prev h nx None
      end
  end.

(** [list::clear] *)
Definition clear (root : K) (h : links) : result links :=
  e ← empty root h;
  if (e : bool) then Ok h
  else
    rp ← get_prev h (Some root);
    h ← set_next h rp None;
    nx ← get_next h (Some root);
    h ← set_prev h (Some root) (Some root);
    h ← set_next h (Some root) (Some root);
    clear_loop (size h) nx h.

(** [list::splice(pos, list&, first, last)] *)
Definition splice (pos first last : option K) (h : links) : result links :=
  if bool_decide (pos = first) || bool_decide (first = last) then Ok h
  else
    true_last ← get_prev h last;
    tn ← get_next h true_last;
    fp ← get_prev h first;
    h ← set_next h fp tn;
    fp ← get_prev h first;
    tn ← get_next h true_last;
    h ← set_prev h tn fp;
    pp ← get_prev h pos;
    h ← set_next h pp first;
    pp ← get_prev h pos;
    h ← set_prev h first pp;
    h ← set_prev h pos true_last;
    set_next h true_last pos.

(** [list::operator=(list&&)] *)
Definition list_move_assign (this r : K) (h : links) : result links :=
  h ← clear this h;
  b ← begin r h;
  splice (end_ this) b (end_ r) h.

(** [list::list(list&&)] for a list object at the address [this]: [list()],
    then [operator=(std::move(r))]. *)
Definition list_move_construct (this r : K) (h : links) : result links :=
  list_move_assign this r (list_init this h).

End list.

End intrusive.

Import intrusive.

(** ** signals.h *)

Module signals.

Abbreviation addr := nat.

(** Addresses of [list_element<walker_list_tag>] sub-objects: the [lst.root]
    embedded in the connection at address [c], or the base of the
    [iteration_data] living in stack slot [d]. *)
Inductive wkey : Type :=
  | WRoot (c : addr)
  | WNode (d : nat).

#[global] Instance wkey_eq_dec : EqDecision wkey.
Proof. solve_decision. Defined.

#[global] Instance wkey_countable : Countable wkey :=
  inj_countable'
    (fun k => match k with WRoot c => inl c | WNode d => inr d end)
    (fun s => match s with inl c => WRoot c | inr d => WNode d end)
    (fun k => match k with WRoot _ => eq_refl | WNode _ => eq_refl end).

(** What a stored callback may do.  Callbacks are inputs of the library, so
    they are given as data: a sequence of calls into the library, a guard
    on captured state, or a raised exception. *)
Inductive op : Type :=
  | OpDisconnect (c : addr)
      (* c.disconnect() *)
  | OpConnect (s c : addr) (id : nat) (body : list op)
      (* connection c = s.connect(slot) *)
  | OpInsert (s : addr) (pos : addr) (c : addr)
      (* s.lst.insert(to_iterator(pos), c) *)
  | OpEmit (s : addr)
      (* s() *)
  | OpMove (dst src : addr)
      (* dst = std::move(src) *)
  | OpDestroy (c : addr)
      (* c.~connection() *)
  | OpOnce (flag : nat) (body : list op)
      (* if (!flag) { flag = true; body } *)
  | OpThrow.
      (* throw *)

(** [std::function<void (Args...)>] with an identity for the trace *)
Record slot_t : Type := Slot { sid : nat; body : list op }.

(** The fields of [connection] besides its two link roles.  [parent = None]:
    the field was never written, and the position computed from it is the
    end of no signal; [slot = None] is an empty [std::function] (default
    constructed or moved from). *)
Record conn : Type := Conn { parent : option addr; slot : option slot_t }.

(** [iteration_data] besides its link *)
Record iteration_data : Type :=
  IterationData { held : option addr; deleted : bool }.

Record state : Type := State {
  clinks : gmap addr (list_element addr);
    (* list_element<connection_list_tag>: signal roots and connections *)
  wlinks : gmap wkey (list_element wkey);
    (* list_element<walker_list_tag>: connection lst roots and walkers *)
  conns : gmap addr conn;
  walkers : gmap nat iteration_data;
  flags : gset nat;   (* state captured by callbacks *)
  depth : nat;        (* next free stack slot for a walker *)
  trace : list nat;   (* ids of the callbacks invoked, oldest first *)
}.

Definition with_clinks (h : gmap addr (list_element addr)) (st : state) : state :=
  State h (wlinks st) (conns st) (walkers st) (flags st) (depth st) (trace st).
Definition with_wlinks (h : gmap wkey (list_element wkey)) (st : state) : state :=
  State (clinks st) h (conns st) (walkers st) (flags st) (depth st) (trace st).
Definition with_conns (m : gmap addr conn) (st : state) : state :=
  State (clinks st) (wlinks st) m (walkers st) (flags st) (depth st) (trace st).
Definition with_walkers (m : gmap nat iteration_data) (st : state) : state :=
  State (clinks st) (wlinks st) (conns st) m (flags st) (depth st) (trace st).
Definition with_flags (f : gset nat) (st : state) : state :=
  State (clinks st) (wlinks st) (conns st) (walkers st) f (depth st) (trace st).
Definition with_depth (d : nat) (st : state) : state :=
  State (clinks st) (wlinks st) (conns st) (walkers st) (flags st) d (trace st).
Definition with_trace (t : list nat) (st : state) : state :=
  State (clinks st) (wlinks st) (conns st) (walkers st) (flags st) (depth st) t.

Definition empty_state : state := State ∅ ∅ ∅ ∅ ∅ 0 [].

Definition of_option {A} (o : option A) : result A :=
  match o with Some a => Ok a | None => Fault end.

(** [signal::signal()]: the signal at address [s] is its [lst], whose
    [root] sits at [s]. *)
Definition new_signal (s : addr) (st : state) : state :=
  with_clinks (list_init s (clinks st)) st.

(** [connection(signal*, std::function&&)] at address [c] *)
Definition new_connection (c : addr) (p : option addr) (sl : option slot_t)
    (st : state) : state :=
  with_conns (<[c := Conn p sl]> (conns st))
    (with_wlinks (list_init (WRoot c) (wlinks st))
       (with_clinks (<[c := ListElement None None]> (clinks st)) st)).

(** [connection()]: links null, walker list empty, [parent] not written,
    [slot] empty. *)
Definition default_connection (c : addr) (st : state) : state :=
  new_connection c None None st.

(** [signal::connect]: the returned object is constructed in place at [c]
    (the copy is elided, no move constructor runs). *)
Definition connect (s c : addr) (sl : slot_t) (st : state) : result state :=
  let st := new_connection c (Some s) (Some sl) st in
  h ← push_front s c (clinks st);
  Ok (with_clinks h st).

(** [parent->lst.end()]: the position computed from the [parent] field.
    Nothing is read from the signal: the expression only offsets the value
    of the field, so that a field that was never written gives a position
    that is the end of no signal and the place of no connection. *)
Definition parent_end (c : addr) (st : state) : result (option addr) :=
  k ← of_option (conns st !! c);
  Ok (parent k).

(** The range-for of [disconnect]: [a.deleted = true; a.held = asit]. *)
Fixpoint mark_walkers (fuel : nat) (c : addr) (it : option wkey)
    (asit : option addr) (st : state) : result state :=
  match fuel with
  | 0 => OutOfFuel
  | S fuel =>
      if bool_decide (it = Some (WRoot c)) then Ok st
      else
        match it with
        | Some (WNode d) =>
            _ ← of_option (walkers st !! d);
            let st := with_walkers
                        (<[d := IterationData asit true]> (walkers st)) st in
            n ← get_next (wlinks st) it;
            mark_walkers fuel c n asit st
        | _ => Fault
        end
  end.

(** [connection::disconnect].  In [asit->lst] the position [asit] is taken
    for a connection, whatever it is the address of: when no connection
    lies there, [asit->lst.begin()] reads outside every object, a fault as
    any read of storage that is not allocated. *)
Definition disconnect (c : addr) (st : state) : result state :=
  '(nx, h) ← unlink c (clinks st);
  let st := with_clinks h st in
  asit ← (match nx with
          | None => parent_end c st
          | Some n => Ok (Some n)
          end);
  b ← begin (WRoot c) (wlinks st);
  st ← mark_walkers (size (wlinks st)) c b asit st;
  e ← parent_end c st;
  if bool_decide (asit ≠ e) then
    a ← of_option asit;
    pos ← begin (WRoot a) (wlinks st);
    first ← begin (WRoot c) (wlinks st);
    h ← splice pos first (end_ (WRoot c)) (wlinks st);
    Ok (with_wlinks h st)
  else
    h ← clear (WRoot c) (wlinks st);
    Ok (with_wlinks h st).

(** The range-for of [movelinks2empty]: every walker's [held] is set to [this]. *)
Fixpoint retarget_walkers (fuel : nat) (c : addr) (it : option wkey)
    (st : state) : result state :=
  match fuel with
  | 0 => OutOfFuel
  | S fuel =>
      if bool_decide (it = Some (WRoot c)) then Ok st
      else
        match it with
        | Some (WNode d) =>
            w ← of_option (walkers st !! d);
            let st := with_walkers
                        (<[d := IterationData (Some c) (deleted w)]> (walkers st)) st in
            n ← get_next (wlinks st) it;
            retarget_walkers fuel c n st
        | _ => Fault
        end
  end.

(** [connection::movelinks2empty] *)
Definition movelinks2empty (this r : addr) (st : state) : result state :=
  h ← element_move_assign this r (clinks st);
  let st := with_clinks h st in
  h ← list_move_assign (WRoot this) (WRoot r) (wlinks st);
  let st := with_wlinks h st in
  b ← begin (WRoot this) (wlinks st);
  retarget_walkers (size (wlinks st)) this b st.

(** [connection(connection&&)] at the fresh address [this]: the base and
    [lst] are default constructed, [parent] is not written, [slot]
    is moved (the source function is left empty). *)
Definition move_construct (this r : addr) (st : state) : result state :=
  kr ← of_option (conns st !! r);
  let st := new_connection this None (slot kr) st in
  let st := with_conns (<[r := Conn (parent kr) None]> (conns st)) st in
  movelinks2empty this r st.

(** [connection::operator=(connection&&)] *)
Definition move_assign (this r : addr) (st : state) : result state :=
  if bool_decide (this = r) then Ok st
  else
    st ← movelinks2empty this r st;
    kt ← of_option (conns st !! this);
    kr ← of_option (conns st !! r);
    Ok (with_conns (<[r := Conn (parent kr) None]>
                      (<[this := Conn (parent kt) (slot kr)]> (conns st))) st).

(** [connection::~connection]: [disconnect()], then the members and the base
    are destroyed ([lst.clear()], [unlink()]) and the storage is released. *)
Definition destroy_connection (c : addr) (st : state) : result state :=
  st ← disconnect c st;
  h ← clear (WRoot c) (wlinks st);
  let st := with_wlinks h st in
  '(_, h) ← unlink (WRoot c) (wlinks st);
  let st := with_wlinks (delete (WRoot c) h) st in
  '(_, h) ← unlink c (clinks st);
  Ok (with_conns (delete c (conns st)) (with_clinks (delete c h) st)).

(** [signal::~signal]: the member [lst] is destroyed ([clear()], then the
    root element unlinks itself) and the storage is released. *)
Definition destroy_signal (s : addr) (st : state) : result state :=
  h ← clear s (clinks st);
  '(_, h) ← unlink s h;
  Ok (with_clinks (delete s h) st).

(** One step of emission, before the callback: [iteration_data d;
    d.held = cur; cur->lst.push_front(d);] with [d] in the next stack slot. *)
Definition plant (cur : addr) (st : state) : result state :=
  let d := depth st in
  let st := with_depth (S d)
              (with_walkers (<[d := IterationData (Some cur) false]> (walkers st))
                 (with_wlinks (<[WNode d := ListElement None None]> (wlinks st)) st)) in
  h ← push_front (WRoot cur) (WNode d) (wlinks st);
  Ok (with_wlinks h st).

(** [if (!d.deleted) ++cur; else cur = d.held;] *)
Definition advance (d : nat) (cur : addr) (st : state) : result (option addr) :=
  w ← of_option (walkers st !! d);
  if deleted w then Ok (held w) else get_next (clinks st) (Some cur).

(** [~iteration_data] at the end of the step (also run when unwinding) *)
Definition retire (d : nat) (st : state) : result state :=
  '(_, h) ← unlink (WNode d) (wlinks st);
  Ok (with_depth d
        (with_walkers (delete d (walkers st))
           (with_wlinks (delete (WNode d) h) st))).

Inductive outcome : Type := Normal | Thrown.

(** [run_ops]: a callback body; [emit]: [signal::operator()];
    [emit_loop]: its [while] loop, entered with the value of [cur]. *)
Fixpoint run_ops (fuel : nat) (ops : list op) (st : state) {struct fuel}
    : result (outcome * state) :=
  match fuel with
  | 0 => OutOfFuel
  | S fuel =>
      match ops with
      | [] => Ok (Normal, st)
      | o :: ops =>
          r ← (match o with
               | OpDisconnect c => st ← disconnect c st; Ok (Normal, st)
               | OpConnect s c id b => st ← connect s c (Slot id b) st; Ok (Normal, st)
               | OpInsert s pos c =>
                   h ← insert (Some pos) c (clinks st); Ok (Normal, with_clinks h st)
               | OpEmit s => emit fuel s st
               | OpMove dst src => st ← move_assign dst src st; Ok (Normal, st)
               | OpDestroy c => st ← destroy_connection c st; Ok (Normal, st)
               | OpOnce f b =>
                   if bool_decide (f ∈ flags st) then Ok (Normal, st)
                   else run_ops fuel b (with_flags ({[f]} ∪ flags st) st)
               | OpThrow => Ok (Thrown, st)
               end);
          match r with
          | (Normal, st) => run_ops fuel ops st
          | (Thrown, st) => Ok (Thrown, st)
          end
      end
  end
with emit (fuel : nat) (s : addr) (st : state) {struct fuel}
    : result (outcome * state) :=
  match fuel with
  | 0 => OutOfFuel
  | S fuel =>
      e ← empty s (clinks st);
      if (e : bool) then Ok (Normal, st)
      else
        cur ← begin s (clinks st);
        emit_loop fuel s cur st
  end
with emit_loop (fuel : nat) (s : addr) (cur : option addr) (st : state) {struct fuel}
    : result (outcome * state) :=
  match fuel with
  | 0 => OutOfFuel
  | S fuel =>
      match cur with
      | None => Ok (Normal, st)
      | Some c =>
          if bool_decide (cur = end_ s) then Ok (Normal, st)
          else
            let d := depth st in
            st ← plant c st;
            k ← of_option (conns st !! c);
            match slot k with
            | None =>
                (* std::bad_function_call *)
                st ← retire d st; Ok (Thrown, st)
            | Some sl =>
                let st := with_trace (trace st ++ [sid sl]) st in
                r ← run_ops fuel (body sl) st;
                match r with
                | (Thrown, st) => st ← retire d st; Ok (Thrown, st)
                | (Normal, st) =>
                    cur ← advance d c st;
                    st ← retire d st;
                    emit_loop fuel s cur st
                end
            end
      end
  end.

End signals.

Import signals.

(** * Vocabulary of the specification *)

Section links_defs.
Context {K : Type} `{Countable K}.
Implicit Types (h : gmap K (list_element K)) (a b x y r : K) (xs L : list K).

(** The two link fields of an address, when it is allocated. *)
Definition nxt h a : option (option K) := next <$> h !! a.
Definition prv h a : option (option K) := prev <$> h !! a.

(** [a] and [b] are neighbours: [a.next = b] and [b.prev = a]. *)
Definition adj h (ab : K * K) : Prop :=
  nxt h ab.1 = Some (Some ab.2) ∧ prv h ab.2 = Some (Some ab.1).

(** The neighbour pairs along [a, x1, ..., xn]. *)
Fixpoint adjs a xs : list (K * K) :=
  match xs with
  | [] => []
  | b :: xs => (a, b) :: adjs b xs
  end.

(** The last element of [xs], or [a] when [xs] is empty. *)
Fixpoint last_or xs a : K :=
  match xs with
  | [] => a
  | x :: xs => last_or xs x
  end.

(** The list rooted at [r] is circular and holds exactly [L], in order. *)
Definition dlist h r L : Prop :=
  NoDup (r :: L) ∧ Forall (adj h) (adjs r (L ++ [r])).

(** A forward chain [cur, xs] whose last element has a null [next]. *)
Fixpoint fchain h (cur : K) (xs : list K) : Prop :=
  match xs with
  | [] => nxt h cur = Some None
  | x :: xs => nxt h cur = Some (Some x) ∧ fchain h x xs
  end.

End links_defs.

(** The identifier logged when the callback of [c] is invoked. *)
Definition slot_id (st : state) (c : addr) : nat :=
  match conns st !! c with
  | Some (Conn _ (Some sl)) => sid sl
  | _ => 0
  end.

(** A body that leaves every state unchanged once the flags [F] are set. *)
Definition inert (F : gset nat) (b : list op) : Prop :=
  ∀ fuel st, 2 ≤ fuel → F ⊆ flags st → run_ops fuel b st = Ok (Normal, st).

(** The connection [c] holds the address of its signal [s]. *)
Definition knows (st : state) (c s : addr) : Prop :=
  ∃ sl, conns st !! c = Some (Conn (Some s) sl).

(** The elements of the walker list of [c]: its root and the parked walkers. *)
Definition nodes (W : addr → list nat) (c : addr) : list wkey :=
  WRoot c :: (WNode <$> W c).

(** The heap represents the signal [s] with connections [L] (front first),
    the walkers [W c] parked on each connection [c] (front first), and a
    free stack above [depth]. *)
Record rep (st : state) (s : addr) (L : list addr) (W : addr → list nat) : Prop := {
  rep_conns : dlist (clinks st) s L;
  rep_walk : ∀ c, c ∈ L → dlist (wlinks st) (WRoot c) (WNode <$> W c);
  rep_held : ∀ c d, c ∈ L → d ∈ W c →
    ∃ b, walkers st !! d = Some (IterationData (Some c) b);
  rep_disj : ∀ c c' d, c ∈ L → c' ∈ L → d ∈ W c → d ∈ W c' → c = c';
  rep_free : ∀ d, depth st ≤ d →
    wlinks st !! WNode d = None ∧ walkers st !! d = None;
}.

(** The list [l] with the connection [X] removed. *)
Definition without (X : addr) (l : list addr) : list addr :=
  filter (λ c, c ≠ X) l.

(** Where the walkers of a disconnected connection go. *)
Definition redirect (W : addr → list nat) (x : addr) (L2 : list addr)
    : addr → list nat :=
  match L2 with
  | [] => W
  | n :: _ => <[n := W x ++ W n]> W
  end.

(** A connection whose callback calls nothing. *)
Definition plain (st : state) (c : addr) : Prop :=
  ∃ p id, conns st !! c = Some (Conn p (Some (Slot id []))).

(** [connect] called once for each entry of [cs], in order. *)
Fixpoint connect_all (s : addr) (cs : list (addr * slot_t)) (st : state)
    : result state :=
  match cs with
  | [] => Ok st
  | (c, sl) :: cs => st ← connect s c sl st; connect_all s cs st
  end.

(** What a throwing callback does before it throws: nothing, or one
    [disconnect]. *)
Definition throwing (oX : option addr) : list op :=
  match oX with
  | Some X => [OpDisconnect X; OpThrow]
  | None => [OpThrow]
  end.

(** The part of [l] behind the connection [k]. *)
Fixpoint after (k : addr) (l : list addr) : list addr :=
  match l with
  | [] => []
  | x :: l => if decide (x = k) then l else after k l
  end.

(** What a move of the connection [r] to the storage [this] achieves. *)
Definition relocated (s : addr) (st : state) (L1 : list addr) (r : addr) (L2 : list addr)
    (W : addr → list nat) (this : addr) (pr : option addr) (sl : slot_t)
    (fuel : nat) (st' : state) : Prop :=
  rep st' s (L1 ++ this :: L2) (<[this := W r]> W)
  ∧ (∀ d, d ∈ W r → ∃ b, walkers st' !! d = Some (IterationData (Some this) b))
  ∧ conns st' !! this = Some (Conn None (Some sl))
  ∧ conns st' !! r = Some (Conn pr None)
  ∧ clinks st' !! r = Some (ListElement None None)
  ∧ dlist (wlinks st') (WRoot r) []
  ∧ emit fuel s st'
      = Ok (Normal, with_trace (trace st ++ (slot_id st <$> L1 ++ r :: L2)) st').

(** A stored pointer is null or the address of an allocated element. *)
Definition ptr_ok {K V} `{Countable K} (h : gmap K V) (p : option K) : Prop :=
  match p with
  | None => True
  | Some a => is_Some (h !! a)
  end.

(** No link field and no walker holds the address of released storage. *)
Definition links_closed (st : state) : Prop :=
  map_Forall (λ _ e, ptr_ok (clinks st) (next e) ∧ ptr_ok (clinks st) (prev e))
    (clinks st)
  ∧ map_Forall (λ _ e, ptr_ok (wlinks st) (next e) ∧ ptr_ok (wlinks st) (prev e))
      (wlinks st)
  ∧ map_Forall (λ _ w, ptr_ok (clinks st) (held w)) (walkers st).

(** No connection holds the address of a released signal. *)
Definition parents_live (st : state) : Prop :=
  map_Forall (λ _ k, ptr_ok (clinks st) (parent k)) (conns st).

(** No pointer stored anywhere refers to released storage. *)
Definition no_dangling (st : state) : Prop := links_closed st ∧ parents_live st.

(** Nothing but the signal [s] is linked: every other element is unlinked
    or the root of an empty list, and every walker is parked on a connection
    of [s]. *)
Definition tidy (st : state) (s : addr) (L : list addr) (W : addr → list nat)
    : Prop :=
  map_Forall (λ a e, a ∈ s :: L
                     ∨ e = ListElement None None
                     ∨ e = ListElement (Some a) (Some a)) (clinks st)
  ∧ map_Forall (λ k e, Exists (λ c, k ∈ nodes W c) L
                       ∨ e = ListElement None None
                       ∨ e = ListElement (Some k) (Some k)) (wlinks st)
  ∧ map_Forall (λ d _, Exists (λ c, d ∈ W c) L) (walkers st).

(** The connections [L] of a signal [s] that is gone: unlinked, each with
    its parked walkers [W c], and still holding the address [s]. *)
Record orphans (st : state) (s : addr) (L : list addr) (W : addr → list nat)
    : Prop := {
  orph_links : ∀ c, c ∈ L → clinks st !! c = Some (ListElement None None);
  orph_knows : ∀ c, c ∈ L → knows st c s;
  orph_walk : ∀ c, c ∈ L → dlist (wlinks st) (WRoot c) (WNode <$> W c);
  orph_alloc : ∀ c d, c ∈ L → d ∈ W c → is_Some (walkers st !! d);
  orph_disj : ∀ c c' d, c ∈ L → c' ∈ L → d ∈ W c → d ∈ W c' → c = c';
}.

(** The running example: the signal at address 10 with the connections
    11, 12 and 13, connected in this order with the identifiers 1, 2 and 3.
    The callbacks of 11 and 13 call nothing; the callback of 12 runs [b].
    No emission is in progress. *)
Definition scene (b : list op) : state :=
  State
    (<[10 := ListElement (Some 13) (Some 11)]>
       (<[13 := ListElement (Some 12) (Some 10)]>
          (<[12 := ListElement (Some 11) (Some 13)]>
             (<[11 := ListElement (Some 10) (Some 12)]> ∅))))
    (<[WRoot 13 := ListElement (Some (WRoot 13)) (Some (WRoot 13))]>
       (<[WRoot 12 := ListElement (Some (WRoot 12)) (Some (WRoot 12))]>
          (<[WRoot 11 := ListElement (Some (WRoot 11)) (Some (WRoot 11))]> ∅)))
    (<[13 := Conn (Some 10) (Some (Slot 3 []))]>
       (<[12 := Conn (Some 10) (Some (Slot 2 b))]>
          (<[11 := Conn (Some 10) (Some (Slot 1 []))]> ∅)))
    ∅ ∅ 0 [].

(** Two lists in one heap, [10: 11, 12, 13] and [20: 21, 22], the root 40
    of an empty list, and the unlinked elements 30 and 31. *)
Definition two_lists : gmap nat (list_element nat) :=
  <[10 := ListElement (Some 11) (Some 13)]>
    (<[11 := ListElement (Some 12) (Some 10)]>
       (<[12 := ListElement (Some 13) (Some 11)]>
          (<[13 := ListElement (Some 10) (Some 12)]>
             (<[20 := ListElement (Some 21) (Some 22)]>
                (<[21 := ListElement (Some 22) (Some 20)]>
                   (<[22 := ListElement (Some 20) (Some 21)]>
                      (<[40 := ListElement (Some 40) (Some 40)]>
                         (<[30 := ListElement None None]>
                            (<[31 := ListElement None None]> ∅))))))))).

(** A signal at 10 whose only connection was stored by
    [connection c; c = sig.connect(f);]: [c] lives at 14, the object
    [connect] returned was moved from and destroyed, and the callback runs
    [b].  No emission is in progress. *)
Definition lone_moved (b : list op) : state :=
  State
    (<[10 := ListElement (Some 14) (Some 14)]>
       (<[14 := ListElement (Some 10) (Some 10)]> ∅))
    (<[WRoot 14 := ListElement (Some (WRoot 14)) (Some (WRoot 14))]> ∅)
    (<[14 := Conn None (Some (Slot 1 b))]> ∅)
    ∅ ∅ 0 [].

(** [lone_moved b] in the middle of an emission: the walker of stack slot 0
    is parked on the connection 14, whose callback is running. *)
Definition lone_parked (b : list op) : state :=
  State
    (clinks (lone_moved b))
    (<[WRoot 14 := ListElement (Some (WNode 0)) (Some (WNode 0))]>
       (<[WNode 0 := ListElement (Some (WRoot 14)) (Some (WRoot 14))]> ∅))
    (conns (lone_moved b))
    {[0 := IterationData (Some 14) false]}
    ∅ 1 [].

(** The running example in the middle of an emission: the walker of stack
    slot 0 is parked on the connection 12, whose callback is running. *)
Definition scene_parked : state :=
  State
    (clinks (scene []))
    (<[WRoot 12 := ListElement (Some (WNode 0)) (Some (WNode 0))]>
       (<[WNode 0 := ListElement (Some (WRoot 12)) (Some (WRoot 12))]>
          (wlinks (scene []))))
    (conns (scene []))
    {[0 := IterationData (Some 12) false]}
    ∅ 1 [].

(** The running example with callbacks that disconnect: the callback of 13
    disconnects 12 and then 13 itself, the callback of 11 disconnects 13
    and then 11 itself, and the callback of 12 calls nothing. *)
Definition scene_cutting : state :=
  with_conns
    (<[13 := Conn (Some 10) (Some (Slot 3 [OpDisconnect 12; OpDisconnect 13]))]>
       (<[11 := Conn (Some 10) (Some (Slot 1 [OpDisconnect 13; OpDisconnect 11]))]>
          (conns (scene []))))
    (scene []).

(** A connection that is in no list and has no parked walker. *)
Definition idle (st : state) (c : addr) : Prop :=
  clinks st !! c = Some (ListElement None None) ∧ dlist (wlinks st) (WRoot c) [].

(** The connections a callback disconnects, in the order of the calls. *)
Definition targets (st : state) (c : addr) : list addr :=
  match conns st !! c with
  | Some (Conn _ (Some sl)) =>
      omap (λ o, match o with OpDisconnect X => Some X | _ => None end) (body sl)
  | _ => []
  end.

(** The connection [c] of the signal [s] has a callback that only
    disconnects connections of [U]. *)
Definition disconnecting (st : state) (s : addr) (U : list addr) (c : addr) : Prop :=
  ∃ id Xs, conns st !! c = Some (Conn (Some s) (Some (Slot id (OpDisconnect <$> Xs))))
    ∧ Forall (λ X, X ∈ U) Xs.

(** The connections of [l] that an emission reaches when every callback
    [k] disconnects the connections [T k]: the first one, then those reached
    in what it leaves of the rest ([n] bounds the length of [l]). *)
Fixpoint visited (n : nat) (T : addr → list addr) (l : list addr) : list addr :=
  match n, l with
  | S n, k :: l => k :: visited n T (filter (λ c, c ∉ T k) l)
  | _, _ => []
  end.

(** During the callback of [k], whose walker sits in stack slot [d]: the
    signal has the connections [cur]; either [k] is still among them,
    between [pre] and [rest], with the walker parked on it, or [k] is gone
    and the walker, marked [deleted], holds the first of [rest] and is parked
    there (or is unlinked when [rest] is empty). *)
Definition walking (st : state) (s : addr) (d : nat) (k : addr)
    (pre rest : list addr) (W : addr → list nat) (cur : list addr) : Prop :=
  rep st s cur W ∧ depth st = S d
  ∧ ((cur = pre ++ k :: rest ∧ d ∈ W k
      ∧ walkers st !! d = Some (IterationData (Some k) false))
     ∨ (cur = pre ++ rest
        ∧ walkers st !! d = Some (IterationData (Some (hd s rest)) true)
        ∧ match rest with
          | [] => wlinks st !! WNode d = Some (ListElement None None)
          | n :: _ => d ∈ W n
          end)).

(** Every connection of [U] holds the address of [s] and is either
    connected or idle. *)
Definition settled (st : state) (s : addr) (U cur : list addr) : Prop :=
  ∀ c, c ∈ U → knows st c s ∧ (c ∈ cur ∨ idle st c).

(** * Reasoning about linked heaps *)

Section links_facts.
Context {K : Type} `{Countable K}.
Implicit Types (h : gmap K (list_element K)) (a b x y r : K) (xs L : list K).

Lemma nxt_insert h a e y :
  nxt (<[a := e]> h) y = if decide (a = y) then Some (next e) else nxt h y.
Proof. unfold nxt. rewrite lookup_insert. by case_decide. Qed.

Lemma prv_insert h a e y :
  prv (<[a := e]> h) y = if decide (a = y) then Some (prev e) else prv h y.
Proof. unfold prv. rewrite lookup_insert. by case_decide. Qed.

Lemma nxt_Some h a v : nxt h a = Some v → ∃ e, h !! a = Some e ∧ next e = v.
Proof. unfold nxt. destruct (h !! a) as [e|]; [|done]. intros [= <-]. eauto. Qed.

Lemma prv_Some h a v : prv h a = Some v → ∃ e, h !! a = Some e ∧ prev e = v.
Proof. unfold prv. destruct (h !! a) as [e|]; [|done]. intros [= <-]. eauto. Qed.

Lemma lookup_nxt_prv h a n p :
  nxt h a = Some n → prv h a = Some p → h !! a = Some (ListElement n p).
Proof.
  unfold nxt, prv. destruct (h !! a) as [[n' p']|]; [|done].
  simpl. by intros [= ->] [= ->].
Qed.

Lemma links_eq h h' :
  (∀ y, nxt h' y = nxt h y) → (∀ y, prv h' y = prv h y) → h' = h.
Proof.
  intros Hn Hp. apply map_eq. intros y. specialize (Hn y). specialize (Hp y).
  unfold nxt, prv in *.
  destruct (h' !! y) as [[n' p']|], (h !! y) as [[n p]|]; simpl in *; congruence.
Qed.

Lemma get_next_ok h a v : nxt h a = Some v → get_next h (Some a) = Ok v.
Proof. intros (e & He & <-)%nxt_Some. unfold get_next. simpl. by rewrite He. Qed.

Lemma get_prev_ok h a v : prv h a = Some v → get_prev h (Some a) = Ok v.
Proof. intros (e & He & <-)%prv_Some. unfold get_prev. simpl. by rewrite He. Qed.

Lemma set_next_ok h a e v :
  h !! a = Some e → set_next h (Some a) v = Ok (<[a := ListElement v (prev e)]> h).
Proof. intros He. simpl. by rewrite He. Qed.

Lemma set_prev_ok h a e v :
  h !! a = Some e → set_prev h (Some a) v = Ok (<[a := ListElement (next e) v]> h).
Proof. intros He. simpl. by rewrite He. Qed.

(** *** Lists of neighbour pairs *)

Lemma adjs_app a xs ys : adjs a (xs ++ ys) = adjs a xs ++ adjs (last_or xs a) ys.
Proof. revert a. induction xs as [|x xs IH]; intros a; simpl; [done|]. by rewrite IH. Qed.

Lemma adjs_snd a xs : (adjs a xs).*2 = xs.
Proof. revert a. induction xs as [|x xs IH]; intros a; simpl; [done|]. by rewrite IH. Qed.

Lemma adjs_fst a xs b : (adjs a (xs ++ [b])).*1 = a :: xs.
Proof. revert a. induction xs as [|x xs IH]; intros a; simpl; [done|]. by rewrite IH. Qed.

Lemma last_or_app xs ys a : last_or (xs ++ ys) a = last_or ys (last_or xs a).
Proof. revert a. induction xs as [|x xs IH]; intros a; simpl; [done|]. by rewrite IH. Qed.

Lemma last_or_elem xs a : last_or xs a ∈ a :: xs.
Proof.
  revert a. induction xs as [|x xs IH]; intros a; simpl; [set_solver|].
  specialize (IH x). set_solver.
Qed.

Lemma hd_snoc xs r : xs ++ [r] = hd r xs :: tail (xs ++ [r]).
Proof. by destruct xs. Qed.

Lemma hd_elem xs r : hd r xs ∈ xs ++ [r].
Proof. destruct xs; set_solver. Qed.

(** The pairs around an element [x] of the path [a, L1, x, L2, r]. *)
Lemma cycle_split a r L1 x L2 :
  adjs a ((L1 ++ x :: L2) ++ [r]) =
    adjs a L1 ++ (last_or L1 a, x) :: (x, hd r L2)
      :: adjs (hd r L2) (tail (L2 ++ [r])).
Proof.
  rewrite <-app_assoc. simpl. rewrite adjs_app. simpl.
  by rewrite (hd_snoc L2 r) at 1.
Qed.

(** The pairs of the path [a, L1, L2, r], cut between [L1] and [L2]. *)
Lemma cycle_cut a r L1 L2 :
  adjs a ((L1 ++ L2) ++ [r]) =
    adjs a L1 ++ (last_or L1 a, hd r L2) :: adjs (hd r L2) (tail (L2 ++ [r])).
Proof.
  rewrite <-app_assoc, adjs_app. by rewrite (hd_snoc L2 r) at 1.
Qed.

Lemma dlist_NoDup h r L : dlist h r L → NoDup (r :: L).
Proof. by intros [? _]. Qed.

Lemma dlist_fst_NoDup r L : NoDup (r :: L) → NoDup (adjs r (L ++ [r])).*1.
Proof. by rewrite adjs_fst. Qed.

Lemma dlist_snd_NoDup r L : NoDup (r :: L) → NoDup (adjs r (L ++ [r])).*2.
Proof.
  rewrite adjs_snd. intros Hnd.
  eapply NoDup_Permutation_proper; [|exact Hnd].
  by rewrite Permutation_app_comm.
Qed.

(** A change of links keeps every pair whose ends it does not touch. *)
Lemma adj_frame h h' (ab : K * K) :
  nxt h' ab.1 = nxt h ab.1 → prv h' ab.2 = prv h ab.2 → adj h ab → adj h' ab.
Proof. unfold adj. intros -> ->. done. Qed.

Lemma dlist_frame h h' r L :
  (∀ y, y ∈ r :: L → h' !! y = h !! y) → dlist h r L → dlist h' r L.
Proof.
  intros Hf [Hnd Hall]. split; [done|].
  rewrite Forall_forall in *. intros [a b] Hab.
  assert (a ∈ r :: L).
  { rewrite <-(adjs_fst r L r). apply list_elem_of_fmap. by exists (a, b). }
  assert (b ∈ r :: L).
  { assert (b ∈ L ++ [r]) as Hb; [|set_solver].
    rewrite <-(adjs_snd r (L ++ [r])). apply list_elem_of_fmap. by exists (a, b). }
  eapply adj_frame; [| |by apply Hall]; unfold nxt, prv; simpl; by rewrite Hf.
Qed.

(** Both fields of every member (and of the root) are fixed by [dlist]. *)
Lemma dlist_nxt h r L1 x L2 :
  dlist h r (L1 ++ x :: L2) → nxt h x = Some (Some (hd r L2)).
Proof.
  intros [_ Hall]. rewrite cycle_split in Hall.
  rewrite Forall_app, !Forall_cons in Hall. by destruct Hall as (_ & _ & [? _] & _).
Qed.

Lemma dlist_prv h r L1 x L2 :
  dlist h r (L1 ++ x :: L2) → prv h x = Some (Some (last_or L1 r)).
Proof.
  intros [_ Hall]. rewrite cycle_split in Hall.
  rewrite Forall_app, !Forall_cons in Hall. by destruct Hall as (_ & [_ ?] & _).
Qed.

Lemma dlist_root_nxt h r L : dlist h r L → nxt h r = Some (Some (hd r L)).
Proof.
  intros [_ Hall]. rewrite (hd_snoc L r) in Hall. simpl in Hall.
  rewrite Forall_cons in Hall. by destruct Hall as [[? _] _].
Qed.

Lemma dlist_root_prv h r L : dlist h r L → prv h r = Some (Some (last_or L r)).
Proof.
  intros [_ Hall]. rewrite adjs_app in Hall. simpl in Hall.
  rewrite Forall_app, Forall_cons in Hall. by destruct Hall as (_ & [_ ?] & _).
Qed.

Lemma dlist_nil h r :
  h !! r = Some (ListElement (Some r) (Some r)) → dlist h r [].
Proof.
  intros Hr. split; [apply NoDup_singleton|]. simpl.
  repeat constructor; unfold nxt, prv; simpl; by rewrite Hr.
Qed.

Lemma dlist_nil_inv h r :
  dlist h r [] → h !! r = Some (ListElement (Some r) (Some r)).
Proof.
  intros Hd. apply lookup_nxt_prv.
  - by apply dlist_root_nxt in Hd.
  - by apply dlist_root_prv in Hd.
Qed.

End links_facts.

(** ** The list operations on well-formed lists *)

Ltac heap_red :=
  repeat first
    [ rewrite lookup_insert_eq
    | rewrite lookup_insert_ne by congruence
    | match goal with
      | Hl : ?h !! ?a = Some _ |- context [?h !! ?a] => rewrite Hl
      end
    | progress simpl ].

Ltac field_red :=
  repeat first
    [ rewrite nxt_insert
    | rewrite prv_insert
    | case_decide; try congruence
    | progress simpl ];
  try done;
  try (subst; unfold nxt, prv;
       by repeat match goal with Hl : _ !! _ = Some _ |- _ => rewrite Hl end).

Section ops_facts.
Context {K : Type} `{Countable K}.
Implicit Types (h : gmap K (list_element K)) (a b x y r : K) (xs L : list K).

Lemma unlink_linked h x n p :
  nxt h x = Some (Some n) → prv h x = Some (Some p) →
  is_Some (h !! n) → is_Some (h !! p) → x ≠ n → x ≠ p →
  ∃ h', unlink x h = Ok (Some n, h')
    ∧ h' !! x = Some (ListElement None None)
    ∧ nxt h' p = Some (Some n) ∧ prv h' n = Some (Some p)
    ∧ (∀ y, y ≠ x → y ≠ p → nxt h' y = nxt h y)
    ∧ (∀ y, y ≠ x → y ≠ n → prv h' y = prv h y).
Proof.
  intros Hn Hp [en Hen] [ep Hep] Hxn Hxp.
  pose proof (lookup_nxt_prv _ _ _ _ Hn Hp) as Hx.
  unfold unlink, get_next, get_prev.
  destruct (decide (n = p)) as [->|Hnp]; heap_red;
    (eexists; split; [done|]; split; [by heap_red|]);
    repeat split; intros; field_red.
Qed.

(** An element that is in no list: [unlink] changes nothing. *)
Lemma unlink_unlinked h x :
  h !! x = Some (ListElement None None) → unlink x h = Ok (None, h).
Proof.
  intros Hx. unfold unlink, get_next, get_prev. heap_red.
  by rewrite insert_insert_eq, insert_id.
Qed.

(** [insert] of an allocated element [v] between the neighbours [p], [n]. *)
Lemma insert_between h p n v :
  adj h (p, n) → is_Some (h !! v) → v ≠ p → v ≠ n →
  ∃ h', insert (Some n) v h = Ok h'
    ∧ h' !! v = Some (ListElement (Some n) (Some p))
    ∧ nxt h' p = Some (Some v) ∧ prv h' n = Some (Some v)
    ∧ (∀ y, y ≠ v → y ≠ p → nxt h' y = nxt h y)
    ∧ (∀ y, y ≠ v → y ≠ n → prv h' y = prv h y).
Proof.
  intros [Hpn Hnp] [ev Hv] Hvp Hvn. simpl in *.
  apply nxt_Some in Hpn as ([pn pp] & Hp & Hepn).
  apply prv_Some in Hnp as ([nn np] & Hn & Henp).
  simpl in *. subst. unfold insert, get_prev.
  destruct (decide (n = p)) as [->|Hne]; heap_red;
    (eexists; split; [done|]; split; [by heap_red|]);
    repeat split; intros; field_red.
Qed.

Lemma adjs_fst_elem a xs (ab : K * K) : ab ∈ adjs a xs → ab.1 ∈ a :: xs.
Proof.
  revert a. induction xs as [|x xs IH]; intros a; simpl; [by intros ?%elem_of_nil|].
  intros [->|Hin]%elem_of_cons; [set_solver|]. apply IH in Hin. set_solver.
Qed.

Lemma adjs_snd_elem a xs (ab : K * K) : ab ∈ adjs a xs → ab.2 ∈ xs.
Proof.
  intros Hin. rewrite <-(adjs_snd a xs). apply list_elem_of_fmap. by exists ab.
Qed.

Lemma NoDup_mid1 {T} (l1 l2 : list T) (u z : T) :
  NoDup (l1 ++ u :: l2) → z ∈ l1 ++ l2 → z ≠ u.
Proof.
  rewrite NoDup_app, NoDup_cons, elem_of_app. intros (_ & Hd & Hu & _) [Hz|Hz] ->.
  - apply (Hd u Hz). set_solver.
  - done.
Qed.

Lemma NoDup_mid2 {T} (l1 l2 : list T) (u v z : T) :
  NoDup (l1 ++ u :: v :: l2) → z ∈ l1 ++ l2 → z ≠ u ∧ z ≠ v.
Proof.
  rewrite NoDup_app, !NoDup_cons, elem_of_app.
  intros (_ & Hd & Hu & Hv & _) [Hz|Hz]; split; intros ->.
  - apply (Hd u Hz). set_solver.
  - apply (Hd v Hz). set_solver.
  - set_solver.
  - done.
Qed.

Lemma Forall_adj_frame h h' (P : list (K * K)) :
  (∀ y, y ∈ P.*1 → nxt h' y = nxt h y) →
  (∀ y, y ∈ P.*2 → prv h' y = prv h y) →
  Forall (adj h) P → Forall (adj h') P.
Proof.
  intros Hn Hp. rewrite !Forall_forall. intros HP ab Hab.
  eapply adj_frame; [| |by apply HP].
  - apply Hn. by apply list_elem_of_fmap_2.
  - apply Hp. by apply list_elem_of_fmap_2.
Qed.

(** Removing the pairs around [x] from a cycle and closing the gap. *)
Lemma dlist_unlink h r L1 x L2 :
  dlist h r (L1 ++ x :: L2) →
  ∃ h', unlink x h = Ok (Some (hd r L2), h')
    ∧ dlist h' r (L1 ++ L2)
    ∧ h' !! x = Some (ListElement None None)
    ∧ nxt h' (last_or L1 r) = Some (Some (hd r L2))
    ∧ prv h' (hd r L2) = Some (Some (last_or L1 r))
    ∧ (∀ y, y ≠ x → y ≠ last_or L1 r → nxt h' y = nxt h y)
    ∧ (∀ y, y ≠ x → y ≠ hd r L2 → prv h' y = prv h y).
Proof.
  intros [Hnd Hall].
  pose proof (dlist_fst_NoDup _ _ Hnd) as Hf.
  pose proof (dlist_snd_NoDup _ _ Hnd) as Hs.
  rewrite cycle_split in Hall, Hf, Hs.
  set (p := last_or L1 r) in *. set (n := hd r L2) in *.
  set (A := adjs r L1) in *. set (B := adjs n (tail (L2 ++ [r]))) in *.
  rewrite fmap_app, !fmap_cons in Hf, Hs. simpl in Hf, Hs.
  apply Forall_app in Hall as (HA & Hall).
  apply Forall_cons in Hall as ([Hpx Hxp] & Hall).
  apply Forall_cons in Hall as ([Hxn Hnx] & HB). simpl in *.
  assert (x ≠ n ∧ x ≠ p) as [Hne1 Hne2].
  { apply NoDup_app in Hf as (_ & _ & Hf). apply NoDup_cons in Hf as [Hf _].
    apply NoDup_app in Hs as (_ & _ & Hs). apply NoDup_cons in Hs as [Hs _].
    set_solver. }
  destruct (unlink_linked h x n p) as (h' & Hun & Hx & Hpn & Hnp & Fn & Fp); try done.
  { apply prv_Some in Hnx as (? & -> & _). eauto. }
  { apply nxt_Some in Hpx as (? & -> & _). eauto. }
  exists h'. split; [done|]. split; [|done].
  split.
  { assert (r :: L1 ++ L2 `sublist_of` r :: L1 ++ x :: L2) as Hsub.
    { apply sublist_skip, sublist_app; [done|]. by apply sublist_cons. }
    exact (sublist_NoDup _ _ Hnd Hsub). }
  rewrite cycle_cut. fold p n A B.
  apply Forall_app. split; [|apply Forall_cons; split; [done|]].
  - eapply Forall_adj_frame; [| |exact HA]; intros y Hy.
    + destruct (NoDup_mid2 _ _ _ _ y Hf); [set_solver|]. by apply Fn.
    + destruct (NoDup_mid2 _ _ _ _ y Hs); [set_solver|]. by apply Fp.
  - eapply Forall_adj_frame; [| |exact HB]; intros y Hy.
    + destruct (NoDup_mid2 _ _ _ _ y Hf); [set_solver|]. by apply Fn.
    + destruct (NoDup_mid2 _ _ _ _ y Hs); [set_solver|]. by apply Fp.
Qed.

(** Opening a gap between two neighbours of a cycle for a new element. *)
Lemma dlist_insert h r L1 L2 v :
  dlist h r (L1 ++ L2) → v ∉ r :: L1 ++ L2 → is_Some (h !! v) →
  ∃ h', insert (Some (hd r L2)) v h = Ok h'
    ∧ dlist h' r (L1 ++ v :: L2)
    ∧ (∀ y, y ≠ v → y ≠ last_or L1 r → nxt h' y = nxt h y)
    ∧ (∀ y, y ≠ v → y ≠ hd r L2 → prv h' y = prv h y).
Proof.
  intros [Hnd Hall] Hv Hal.
  pose proof (dlist_fst_NoDup _ _ Hnd) as Hf.
  pose proof (dlist_snd_NoDup _ _ Hnd) as Hs.
  assert (∀ y, y ∈ (adjs r ((L1 ++ L2) ++ [r])).*1 → y ≠ v) as Hvf.
  { rewrite adjs_fst. set_solver. }
  assert (∀ y, y ∈ (adjs r ((L1 ++ L2) ++ [r])).*2 → y ≠ v) as Hvs.
  { rewrite adjs_snd. set_solver. }
  rewrite cycle_cut in Hall, Hf, Hs, Hvf, Hvs.
  set (p := last_or L1 r) in *. set (n := hd r L2) in *.
  set (A := adjs r L1) in *. set (B := adjs n (tail (L2 ++ [r]))) in *.
  rewrite fmap_app, !fmap_cons in Hf, Hs, Hvf, Hvs. simpl in Hf, Hs, Hvf, Hvs.
  apply Forall_app in Hall as (HA & Hall).
  apply Forall_cons in Hall as (Hpn & HB).
  destruct (insert_between h p n v) as (h' & Hin & Hv' & Hpv & Hnv & Fn & Fp); try done.
  { intros ->. apply (Hvf p); set_solver. }
  { intros ->. apply (Hvs n); set_solver. }
  exists h'. split; [done|]. split; [|done].
  split.
  { apply NoDup_cons in Hnd as [Hr Hnd]. apply NoDup_app in Hnd as (H1 & H2 & H3).
    apply NoDup_cons. split; [set_solver|]. apply NoDup_app. split; [done|].
    split; [|apply NoDup_cons; set_solver]. set_solver. }
  rewrite cycle_split. fold p n A B.
  apply Forall_app. split; [|apply Forall_cons; split; [|apply Forall_cons; split]].
  - eapply Forall_adj_frame; [| |exact HA]; intros y Hy.
    + apply Fn; [apply Hvf; set_solver|]. apply (NoDup_mid1 _ _ _ y Hf). set_solver.
    + apply Fp; [apply Hvs; set_solver|]. apply (NoDup_mid1 _ _ _ y Hs). set_solver.
  - split; simpl; [done|]. unfold prv. by rewrite Hv'.
  - split; simpl; [|done]. unfold nxt. by rewrite Hv'.
  - eapply Forall_adj_frame; [| |exact HB]; intros y Hy.
    + apply Fn; [apply Hvf; set_solver|]. apply (NoDup_mid1 _ _ _ y Hf). set_solver.
    + apply Fp; [apply Hvs; set_solver|]. apply (NoDup_mid1 _ _ _ y Hs). set_solver.
Qed.

(** [splice] of a whole list [r1: f .. tl] in front of [n], whose
    predecessor is [r2]. *)
Lemma splice_whole h r1 f tl r2 n :
  adj h (r1, f) → adj h (tl, r1) → adj h (r2, n) →
  r1 ≠ r2 → r1 ≠ f → r1 ≠ tl → r1 ≠ n → f ≠ r2 → f ≠ n → tl ≠ r2 → tl ≠ n →
  ∃ h', splice (Some n) (Some f) (Some r1) h = Ok h'
    ∧ adj h' (r1, r1) ∧ adj h' (r2, f) ∧ adj h' (tl, n)
    ∧ (∀ y, y ≠ r1 → y ≠ r2 → y ≠ tl → nxt h' y = nxt h y)
    ∧ (∀ y, y ≠ r1 → y ≠ f → y ≠ n → prv h' y = prv h y).
Proof.
  intros [H1 H2] [H3 H4] [H5 H6] ? ? ? ? ? ? ? ?. simpl in *.
  pose proof (lookup_nxt_prv _ _ _ _ H1 H4) as Hr1.
  apply prv_Some in H2 as ([fn fp] & Hf & ?).
  apply nxt_Some in H3 as ([tn tp] & Ht & ?).
  apply nxt_Some in H5 as ([r2n r2p] & Hr2 & ?).
  apply prv_Some in H6 as ([nn np] & Hn & ?).
  simpl in *. subst. unfold splice, get_prev, get_next.
  rewrite !bool_decide_eq_false_2 by congruence. simpl.
  destruct (decide (n = r2)) as [->|?]; destruct (decide (f = tl)) as [->|?];
    simplify_eq; heap_red;
    (eexists; split; [done|]); unfold adj;
    repeat split; intros; field_red.
Qed.

Lemma lookup_frame h h' y :
  nxt h' y = nxt h y → prv h' y = prv h y → h' !! y = h !! y.
Proof.
  unfold nxt, prv. destruct (h' !! y) as [[]|], (h !! y) as [[]|]; simpl; congruence.
Qed.

Lemma dlist_splice h r1 A r2 B :
  dlist h r1 A → dlist h r2 B → (∀ y, y ∈ r1 :: A → y ∉ r2 :: B) →
  ∃ h', splice (Some (hd r2 B)) (Some (hd r1 A)) (Some r1) h = Ok h'
    ∧ dlist h' r1 [] ∧ dlist h' r2 (A ++ B)
    ∧ (∀ y, y ∉ r1 :: A → y ∉ r2 :: B → h' !! y = h !! y).
Proof.
  intros HA HB Hdisj. destruct A as [|f A'].
  { exists h. unfold splice. simpl.
    rewrite (bool_decide_eq_true_2 (Some r1 = Some r1)) by done.
    rewrite orb_true_r. done. }
  destruct HA as [HndA HallA]. destruct HB as [HndB HallB].
  pose proof (dlist_fst_NoDup _ _ HndA) as HfA.
  pose proof (dlist_snd_NoDup _ _ HndA) as HsA.
  pose proof (dlist_fst_NoDup _ _ HndB) as HfB.
  pose proof (dlist_snd_NoDup _ _ HndB) as HsB.
  assert (∀ y, y ∈ (adjs r1 ((f :: A') ++ [r1])).*1 → y ∈ r1 :: f :: A') as HinA1.
  { rewrite adjs_fst. done. }
  assert (∀ y, y ∈ (adjs r1 ((f :: A') ++ [r1])).*2 → y ∈ r1 :: f :: A') as HinA2.
  { rewrite adjs_snd. clear. set_solver. }
  assert (∀ y, y ∈ (adjs r2 (B ++ [r2])).*1 → y ∈ r2 :: B) as HinB1.
  { rewrite adjs_fst. done. }
  assert (∀ y, y ∈ (adjs r2 (B ++ [r2])).*2 → y ∈ r2 :: B) as HinB2.
  { rewrite adjs_snd. clear. set_solver. }
  assert (last_or A' f ∈ r1 :: f :: A') as Htlin.
  { apply elem_of_cons. right. apply last_or_elem. }
  assert (hd r2 B ∈ r2 :: B) as Hnin.
  { pose proof (hd_elem B r2). clear -H0. set_solver. }
  assert (f ∈ r1 :: f :: A') as Hfin by (clear; set_solver).
  assert (r1 ∈ r1 :: f :: A') as Hr1in by (clear; set_solver).
  assert (r2 ∈ r2 :: B) as Hr2in by (clear; set_solver).
  assert (r1 ∉ f :: A') as Hr1 by (by apply NoDup_cons in HndA as [? _]).
  simpl in HallA, HfA, HsA, HinA1, HinA2. rewrite adjs_app in HallA, HfA, HsA, HinA1, HinA2.
  simpl in HallA, HfA, HsA, HinA1, HinA2.
  rewrite (hd_snoc B r2) in HallB, HfB, HsB, HinB1, HinB2.
  simpl in HallB, HfB, HsB, HinB1, HinB2.
  set (tl := last_or A' f) in *. set (n := hd r2 B) in *.
  set (M := adjs f A') in *. set (Bp := adjs n (tail (B ++ [r2]))) in *.
  rewrite fmap_app in HfA, HsA, HinA1, HinA2. simpl in HfA, HsA, HinA1, HinA2.
  apply Forall_cons in HallA as (Hr1f & HallA).
  apply Forall_app in HallA as (HM & Htl). apply Forall_cons in Htl as (Htl & _).
  apply Forall_cons in HallB as (Hr2n & HBp).
  assert (r1 ≠ r2) by (intros ->; by apply (Hdisj r2)).
  assert (r1 ≠ n) by (intros ->; by apply (Hdisj n)).
  assert (f ≠ r2) by (intros ->; by apply (Hdisj r2)).
  assert (f ≠ n) by (intros ->; by apply (Hdisj n)).
  assert (tl ≠ r2) by (intros Heq; rewrite Heq in Htlin; by apply (Hdisj r2)).
  assert (tl ≠ n) by (intros Heq; rewrite Heq in Htlin; by apply (Hdisj n)).
  assert (r1 ≠ f) by (intros ->; apply Hr1; clear; set_solver).
  assert (r1 ≠ tl).
  { intros Heq. apply Hr1. rewrite Heq. apply last_or_elem. }
  destruct (splice_whole h r1 f tl r2 n) as (h' & Hsp & Hc1 & Hc2 & Hc3 & Fn & Fp);
    try done.
  exists h'. split; [done|]. split; [|split].
  - split; [apply NoDup_singleton|]. simpl. constructor; [done|constructor].
  - split.
    { apply NoDup_cons in HndA as [? HndA]. apply NoDup_cons in HndB as [? HndB].
      apply NoDup_cons. split.
      { intros [Hin|Hin]%elem_of_app; [|done].
        apply (Hdisj r2); [by apply elem_of_cons; right|done]. }
      apply NoDup_app. split; [done|]. split; [|done].
      intros y Hy1 Hy2. apply (Hdisj y); by apply elem_of_cons; right. }
    simpl. rewrite cycle_cut. fold tl n M Bp.
    apply Forall_cons. split; [done|]. apply Forall_app. split.
    + eapply Forall_adj_frame; [| |exact HM]; intros y Hy.
      * apply Fn.
        -- intros ->. apply NoDup_cons in HfA as [HfA _]. apply HfA.
           apply elem_of_app. by left.
        -- intros ->. apply (Hdisj r2); [|done]. apply HinA1.
           apply elem_of_cons. right. apply elem_of_app. by left.
        -- intros ->. apply NoDup_cons in HfA as [_ HfA].
           apply NoDup_app in HfA as (_ & HfA & _). apply (HfA tl Hy).
           apply list_elem_of_singleton. done.
      * apply Fp.
        -- intros ->. apply NoDup_cons in HsA as [_ HsA].
           apply NoDup_app in HsA as (_ & HsA & _). apply (HsA r1 Hy).
           apply list_elem_of_singleton. done.
        -- intros ->. apply NoDup_cons in HsA as [HsA _]. apply HsA.
           apply elem_of_app. by left.
        -- intros ->. apply (Hdisj n); [|done]. apply HinA2.
           apply elem_of_cons. right. apply elem_of_app. by left.
    + apply Forall_cons. split; [done|].
      eapply Forall_adj_frame; [| |exact HBp]; intros y Hy.
      * assert (y ∈ r2 :: B) as HyB by (apply HinB1; by apply elem_of_cons; right).
        apply Fn.
        -- intros ->. by apply (Hdisj r1).
        -- intros ->. apply NoDup_cons in HfB as [HfB _]. done.
        -- intros ->. by apply (Hdisj tl).
      * assert (y ∈ r2 :: B) as HyB by (apply HinB2; by apply elem_of_cons; right).
        apply Fp.
        -- intros ->. by apply (Hdisj r1).
        -- intros ->. by apply (Hdisj f).
        -- intros ->. apply NoDup_cons in HsB as [HsB _]. done.
  - intros y Hy1 Hy2. apply lookup_frame; [apply Fn|apply Fp].
    + intros ->. by apply Hy1.
    + intros ->. by apply Hy2.
    + intros ->. by apply Hy1.
    + intros ->. by apply Hy1.
    + intros ->. by apply Hy1.
    + intros ->. by apply Hy2.
Qed.

Lemma dlist_alloc h r L y : dlist h r L → y ∈ r :: L → is_Some (h !! y).
Proof.
  intros [_ Hall] Hy. rewrite <-(adjs_fst r L r) in Hy.
  apply list_elem_of_fmap in Hy as (ab & -> & Hab).
  rewrite Forall_forall in Hall. destruct (Hall ab Hab) as [Hn _].
  apply nxt_Some in Hn as (e & -> & _). eauto.
Qed.

Lemma dlist_linked h r L y : dlist h r L → y ∈ r :: L → ∃ z, nxt h y = Some (Some z).
Proof.
  intros [_ Hall] Hy. rewrite <-(adjs_fst r L r) in Hy.
  apply list_elem_of_fmap in Hy as (ab & -> & Hab).
  rewrite Forall_forall in Hall. destruct (Hall ab Hab) as [Hn _]. eauto.
Qed.

Lemma length_le_size h (l : list K) :
  NoDup l → (∀ y, y ∈ l → is_Some (h !! y)) → length l ≤ size h.
Proof.
  intros Hnd Hal. rewrite <-(size_list_to_set (C := gset K) l Hnd).
  rewrite <-(size_dom (D := gset K) h). apply subseteq_size.
  intros y Hy. apply elem_of_list_to_set in Hy. apply elem_of_dom. by apply Hal.
Qed.

Lemma dlist_size h r L : dlist h r L → length L < size h.
Proof.
  intros Hd. pose proof (dlist_NoDup _ _ _ Hd) as Hnd.
  pose proof (length_le_size h (r :: L) Hnd) as Hle. simpl in Hle.
  apply Hle. intros y Hy. by eapply dlist_alloc.
Qed.

Lemma fchain_frame h h' cur xs :
  (∀ y, y ∈ cur :: xs → nxt h' y = nxt h y) → fchain h cur xs → fchain h' cur xs.
Proof.
  revert cur. induction xs as [|x xs IH]; intros cur Hf; simpl.
  - intros <-. apply Hf. by apply list_elem_of_singleton.
  - intros [Hc Hxs]. split.
    + rewrite <-Hc. apply Hf. apply elem_of_cons. by left.
    + apply IH; [|done]. intros y Hy. apply Hf. apply elem_of_cons. by right.
Qed.

Lemma fchain_intro h h' r xs cur :
  Forall (adj h) (adjs cur (xs ++ [r])) → NoDup (cur :: xs) →
  (∀ y, y ∈ cur :: xs → y ≠ last_or xs cur → nxt h' y = nxt h y) →
  nxt h' (last_or xs cur) = Some None →
  fchain h' cur xs.
Proof.
  revert cur. induction xs as [|x xs IH]; intros cur Hall Hnd Hf Hl; simpl in *.
  - done.
  - apply Forall_cons in Hall as [[Hcx _] Hall]. simpl in Hcx.
    apply NoDup_cons in Hnd as [Hc Hnd]. split.
    + rewrite <-Hcx. apply Hf; [apply elem_of_cons; by left|].
      intros Heq. apply Hc. rewrite Heq. apply last_or_elem.
    + apply IH; [done|done| |done]. intros y Hy. apply Hf. apply elem_of_cons. by right.
Qed.

Lemma clear_loop_chain xs : ∀ cur h fuel,
  NoDup (cur :: xs) → fchain h cur xs → is_Some (prv h cur) → length xs < fuel →
  (∀ y, y ∈ xs → is_Some (h !! y)) →
  ∃ h', clear_loop fuel (Some cur) h = Ok h'
    ∧ (∀ y, y ∈ cur :: xs → h' !! y = Some (ListElement None None))
    ∧ (∀ y, y ∉ cur :: xs → h' !! y = h !! y).
Proof.
  induction xs as [|x xs IH]; intros cur h fuel Hnd Hch Hprv Hfuel Hal;
    (destruct fuel as [|fuel]; [simpl in Hfuel; lia|]); simpl in *.
  - apply nxt_Some in Hch as ([cn cp] & Hc & ?). simpl in *. subst.
    unfold get_next. heap_red. eexists. split; [done|]. split.
    + intros y ->%list_elem_of_singleton. by heap_red.
    + intros y Hy. rewrite lookup_insert_ne; [done|]. intros ->. apply Hy.
      by apply list_elem_of_singleton.
  - destruct Hch as [Hcx Hch].
    apply nxt_Some in Hcx as ([cn cp] & Hc & ?). simpl in *. subst.
    apply NoDup_cons in Hnd as [Hcur Hnd].
    unfold get_next. heap_red. rewrite insert_insert_eq.
    destruct (Hal x) as [ex Hx]; [apply elem_of_cons; by left|].
    assert (cur ≠ x) as Hne by (intros ->; apply Hcur, elem_of_cons; by left).
    edestruct (IH x (<[cur := ListElement None None]> h) fuel)
      as (h' & Hcl & Hin & Hout); [done| | |lia| |].
    { eapply fchain_frame; [|exact Hch]. intros y Hy. rewrite nxt_insert.
      case_decide; [|done]. subst. done. }
    { unfold prv. rewrite lookup_insert_ne by done. rewrite Hx. eauto. }
    { intros y Hy. rewrite lookup_insert_ne.
      - apply Hal. apply elem_of_cons. by right.
      - intros ->. apply Hcur. apply elem_of_cons. by right. }
    exists h'. split; [done|]. split.
    + intros y [->|Hy]%elem_of_cons; [|by apply Hin].
      rewrite Hout by done. by heap_red.
    + intros y Hy. rewrite Hout.
      * rewrite lookup_insert_ne; [done|]. intros ->. apply Hy, elem_of_cons. by left.
      * intros Hy'. apply Hy, elem_of_cons. by right.
Qed.

Lemma dlist_clear h r A :
  dlist h r A →
  ∃ h', clear r h = Ok h'
    ∧ dlist h' r []
    ∧ (∀ y, y ∈ A → h' !! y = Some (ListElement None None))
    ∧ (∀ y, y ∉ r :: A → h' !! y = h !! y).
Proof.
  intros Hd. destruct A as [|f A'].
  { exists h. pose proof (dlist_nil_inv _ _ Hd) as Hr.
    unfold clear, empty, get_next. heap_red.
    rewrite bool_decide_eq_true_2 by done.
    split; [done|]. split; [done|]. split; [|done]. by intros y ?%elem_of_nil. }
  pose proof (dlist_size _ _ _ Hd) as Hsz.
  pose proof (dlist_root_nxt _ _ _ Hd) as Hrn.
  pose proof (dlist_root_prv _ _ _ Hd) as Hrp.
  pose proof (dlist_alloc _ _ _ (last_or (f :: A') r) Hd (last_or_elem _ _)) as [et Ht].
  assert (∀ y, y ∈ f :: A' → is_Some (h !! y)) as Hal.
  { intros y Hy. eapply dlist_alloc; [done|]. apply elem_of_cons. by right. }
  destruct Hd as [Hnd Hall]. simpl in *.
  apply Forall_cons in Hall as [_ Hall].
  apply NoDup_cons in Hnd as [Hr Hnd].
  pose proof (lookup_nxt_prv _ _ _ _ Hrn Hrp) as Hroot.
  assert (last_or A' f ∈ f :: A') as Htl by apply last_or_elem.
  remember (last_or A' f) as tl eqn:Etl.
  assert (r ≠ tl) as Hrtl by (intros ->; done).
  assert (r ≠ f) as Hrf by (intros ->; apply Hr, elem_of_cons; by left).
  unfold clear, empty, get_next, get_prev. heap_red.
  rewrite bool_decide_eq_false_2 by congruence. heap_red.
  rewrite insert_insert_eq.
  set (h3 := <[r:=_]> (<[tl:=_]> h)).
  destruct (clear_loop_chain A' f h3 (size h3)) as (h' & Hcl & Hin & Hout).
  - done.
  - eapply (fchain_intro h); [exact Hall|done| |].
    + intros y Hy Hne. unfold h3. rewrite !nxt_insert.
      repeat case_decide; subst; try done.
    + unfold h3. rewrite !nxt_insert. repeat case_decide; subst; done.
  - destruct (Hal f) as [ef Hf]; [apply elem_of_cons; by left|].
    unfold h3, prv. rewrite lookup_insert_ne by done.
    rewrite lookup_insert. case_decide; subst; [by eauto|]. rewrite Hf. by eauto.
  - unfold h3. rewrite !map_size_insert_Some; [simpl in Hsz; lia|by rewrite Ht|].
    rewrite lookup_insert_ne by done. by rewrite Hroot.
  - intros y Hy. unfold h3. rewrite lookup_insert_ne.
    + rewrite lookup_insert. case_decide; [by eauto|]. apply Hal, elem_of_cons. by right.
    + intros ->. apply Hr, elem_of_cons. by right.
  - exists h'. split; [done|]. split; [|split].
    + apply dlist_nil. rewrite Hout by done. unfold h3. by rewrite lookup_insert_eq.
    + done.
    + intros y Hy. rewrite Hout.
      * unfold h3. rewrite !lookup_insert_ne; [done| |].
        -- intros ->. apply Hy. by apply elem_of_cons; right.
        -- intros ->. apply Hy. by apply elem_of_cons; left.
      * intros Hy'. apply Hy. by apply elem_of_cons; right.
Qed.

(** Pushing a fresh element to the front and unlinking it again restores
    the heap. *)
Lemma insert_unlink_cancel h r L v h1 :
  dlist h r L → h !! v = None →
  insert (Some (hd r L)) v (<[v := ListElement None None]> h) = Ok h1 →
  ∃ h2, unlink v h1 = Ok (Some (hd r L), h2) ∧ delete v h2 = h.
Proof.
  intros Hd Hv Hins.
  set (h0 := <[v := ListElement None None]> h) in *.
  assert (v ∉ r :: L) as Hvl.
  { intros Hin. destruct (dlist_alloc _ _ _ _ Hd Hin). congruence. }
  assert (dlist h0 r L) as Hd0.
  { eapply dlist_frame; [|exact Hd]. intros y Hy. unfold h0.
    rewrite lookup_insert_ne; [done|]. by intros <-. }
  destruct (dlist_insert h0 r [] L v) as (h1' & Hins' & Hd1 & Fn1 & Fp1); try done.
  { unfold h0. rewrite lookup_insert_eq. eauto. }
  simpl in *. rewrite Hins in Hins'. injection Hins' as <-.
  destruct (dlist_unlink h1 r [] v L Hd1) as (h2 & Hun & _ & Hx & Hn2 & Hp2 & Fn2 & Fp2).
  simpl in *. exists h2. split; [done|].
  pose proof (dlist_root_nxt _ _ _ Hd) as Hrn.
  assert (prv h (hd r L) = Some (Some r)) as Hhp.
  { destruct Hd as [_ Hall]. rewrite (hd_snoc L r) in Hall. simpl in Hall.
    apply Forall_cons in Hall as [[_ ?] _]. done. }
  apply map_eq. intros y. destruct (decide (y = v)) as [->|Hne].
  { by rewrite lookup_delete_eq. }
  rewrite lookup_delete_ne by done. apply lookup_frame.
  - destruct (decide (y = r)) as [->|Hyr]; [congruence|].
    rewrite Fn2, Fn1 by done. unfold h0. rewrite nxt_insert. by case_decide.
  - destruct (decide (y = hd r L)) as [->|Hyr]; [congruence|].
    rewrite Fp2, Fp1 by done. unfold h0. rewrite prv_insert. by case_decide.
Qed.

(** [operator=(list_element&&)] into an element that is in no list. *)
Lemma move_linked h this x n p :
  nxt h x = Some (Some n) → prv h x = Some (Some p) →
  h !! this = Some (ListElement None None) →
  is_Some (h !! n) → is_Some (h !! p) →
  this ≠ x → this ≠ n → this ≠ p → x ≠ n → x ≠ p →
  ∃ h', element_move_assign this x h = Ok h'
    ∧ h' !! this = Some (ListElement (Some n) (Some p))
    ∧ h' !! x = Some (ListElement None None)
    ∧ nxt h' p = Some (Some this) ∧ prv h' n = Some (Some this)
    ∧ (∀ y, y ≠ this → y ≠ x → y ≠ p → nxt h' y = nxt h y)
    ∧ (∀ y, y ≠ this → y ≠ x → y ≠ n → prv h' y = prv h y).
Proof.
  intros Hn Hp Ht [[nn np] Hen] [[pn pp] Hep] ? ? ? ? ?.
  pose proof (lookup_nxt_prv _ _ _ _ Hn Hp) as Hx.
  unfold element_move_assign. rewrite (unlink_unlinked _ _ Ht). simpl.
  unfold get_next, get_prev.
  destruct (decide (n = p)) as [->|Hnp]; simplify_eq; heap_red;
    (eexists; split; [done|]; split; [by heap_red|]; split; [by heap_red|]);
    repeat split; intros; field_red.
Qed.

Lemma dlist_move h r L1 x L2 this :
  dlist h r (L1 ++ x :: L2) → this ∉ r :: L1 ++ x :: L2 →
  h !! this = Some (ListElement None None) →
  ∃ h', element_move_assign this x h = Ok h'
    ∧ dlist h' r (L1 ++ this :: L2)
    ∧ h' !! x = Some (ListElement None None)
    ∧ (∀ y, y ∉ this :: r :: L1 ++ x :: L2 → h' !! y = h !! y).
Proof.
  intros [Hnd Hall] Hthis Ht.
  pose proof (dlist_fst_NoDup _ _ Hnd) as Hf.
  pose proof (dlist_snd_NoDup _ _ Hnd) as Hs.
  assert (∀ y, y ∈ (adjs r ((L1 ++ x :: L2) ++ [r])).*1 → y ∈ r :: L1 ++ x :: L2) as Hin1.
  { by rewrite adjs_fst. }
  assert (∀ y, y ∈ (adjs r ((L1 ++ x :: L2) ++ [r])).*2 → y ∈ r :: L1 ++ x :: L2) as Hin2.
  { rewrite adjs_snd. intros y [?|Hy]%elem_of_app.
    - by apply elem_of_cons; right.
    - apply list_elem_of_singleton in Hy as ->. by apply elem_of_cons; left. }
  rewrite cycle_split in Hall, Hf, Hs, Hin1, Hin2.
  remember (last_or L1 r) as p eqn:Ep. remember (hd r L2) as n eqn:En.
  remember (adjs r L1) as A eqn:EA.
  remember (adjs n (tail (L2 ++ [r]))) as B eqn:EB.
  rewrite fmap_app, !fmap_cons in Hf, Hs, Hin1, Hin2. simpl in Hf, Hs, Hin1, Hin2.
  apply Forall_app in Hall as (HA & Hall).
  apply Forall_cons in Hall as ([Hpx Hxp] & Hall).
  apply Forall_cons in Hall as ([Hxn Hnx] & HB). simpl in *.
  assert (x ≠ n ∧ x ≠ p) as [Hne1 Hne2].
  { apply NoDup_app in Hf as (_ & _ & Hf). apply NoDup_cons in Hf as [Hf _].
    apply NoDup_app in Hs as (_ & _ & Hs). apply NoDup_cons in Hs as [Hs _].
    split; intros ->.
    - apply Hs. by apply elem_of_cons; left.
    - apply Hf. by apply elem_of_cons; left. }
  assert (p ∈ r :: L1 ++ x :: L2) as Hpin.
  { apply Hin1. apply elem_of_app. right. by apply elem_of_cons; left. }
  assert (n ∈ r :: L1 ++ x :: L2) as Hnin.
  { apply Hin2. apply elem_of_app. right. apply elem_of_cons. right.
    by apply elem_of_cons; left. }
  assert (x ∈ r :: L1 ++ x :: L2) as Hxin.
  { apply elem_of_cons. right. apply elem_of_app. right. by apply elem_of_cons; left. }
  destruct (move_linked h this x n p)
    as (h' & Hmv & Ht' & Hx' & Hpt & Hnt & Fn & Fp); try done;
    try (intros ->; done).
  { apply prv_Some in Hnx as (? & -> & _). eauto. }
  { apply nxt_Some in Hpx as (? & -> & _). eauto. }
  exists h'. split; [done|]. split; [|split; [done|]].
  - split.
    { apply NoDup_cons in Hnd as [Hr Hnd]. apply NoDup_app in Hnd as (H1 & H2 & H3).
      apply NoDup_cons in H3 as [H3 H4].
      assert (this ≠ r) by (intros ->; apply Hthis; by apply elem_of_cons; left).
      assert ((this ∉ L1) ∧ (this ∉ L2)) as [? ?].
      { split; intros ?; apply Hthis; apply elem_of_cons; right; apply elem_of_app;
          [by left|right; by apply elem_of_cons; right]. }
      apply NoDup_cons. split.
      { intros [?|[?|?]%elem_of_cons]%elem_of_app; [|done|].
        - apply Hr. apply elem_of_app. by left.
        - apply Hr. apply elem_of_app. right. by apply elem_of_cons; right. }
      apply NoDup_app. split; [done|]. split; [|by apply NoDup_cons].
      intros y Hy [->|Hy']%elem_of_cons; [done|].
      apply (H2 y Hy). by apply elem_of_cons; right. }
    rewrite cycle_split. rewrite <-Ep, <-En, <-EA, <-EB.
    apply Forall_app. split; [|apply Forall_cons; split; [|apply Forall_cons; split]].
    + eapply Forall_adj_frame; [| |exact HA]; intros y Hy.
      * destruct (NoDup_mid2 _ _ _ _ y Hf); [apply elem_of_app; by left|].
        apply Fn; [|done..]. intros ->. apply Hthis, Hin1. apply elem_of_app. by left.
      * destruct (NoDup_mid2 _ _ _ _ y Hs); [apply elem_of_app; by left|].
        apply Fp; [|done..]. intros ->. apply Hthis, Hin2. apply elem_of_app. by left.
    + split; simpl; [done|]. unfold prv. by rewrite Ht'.
    + split; simpl; [|done]. unfold nxt. by rewrite Ht'.
    + eapply Forall_adj_frame; [| |exact HB]; intros y Hy.
      * destruct (NoDup_mid2 _ _ _ _ y Hf); [apply elem_of_app; by right|].
        apply Fn; [|done..]. intros ->. apply Hthis, Hin1. apply elem_of_app. right.
        apply elem_of_cons. right. by apply elem_of_cons; right.
      * destruct (NoDup_mid2 _ _ _ _ y Hs); [apply elem_of_app; by right|].
        apply Fp; [|done..]. intros ->. apply Hthis, Hin2. apply elem_of_app. right.
        apply elem_of_cons. right. by apply elem_of_cons; right.
  - intros y Hy. apply lookup_frame; [apply Fn|apply Fp]; intros ->; apply Hy.
    + by apply elem_of_cons; left.
    + by apply elem_of_cons; right.
    + by apply elem_of_cons; right.
    + by apply elem_of_cons; left.
    + by apply elem_of_cons; right.
    + by apply elem_of_cons; right.
Qed.

(** A list root that links to itself unlinks like any element. *)
Lemma unlink_self h x :
  h !! x = Some (ListElement (Some x) (Some x)) →
  unlink x h = Ok (Some x, <[x := ListElement None None]> h).
Proof.
  intros Hx. unfold unlink, get_next, get_prev. heap_red.
  by rewrite !insert_insert_eq.
Qed.

End ops_facts.

(** * The emission protocol *)

(** ** Unfolding equations *)

Lemma run_ops_nil fuel st : run_ops (S fuel) [] st = Ok (Normal, st).
Proof. done. Qed.

Lemma run_ops_cons fuel o ops st :
  run_ops (S fuel) (o :: ops) st =
    r ← (match o with
         | OpDisconnect c => st ← disconnect c st; Ok (Normal, st)
         | OpConnect s c id b => st ← connect s c (Slot id b) st; Ok (Normal, st)
         | OpInsert s pos c =>
             h ← insert (Some pos) c (clinks st); Ok (Normal, with_clinks h st)
         | OpEmit s => emit fuel s st
         | OpMove dst src => st ← move_assign dst src st; Ok (Normal, st)
         | OpDestroy c => st ← destroy_connection c st; Ok (Normal, st)
         | OpOnce f b =>
             if bool_decide (f ∈ flags st) then Ok (Normal, st)
             else run_ops fuel b (with_flags ({[f]} ∪ flags st) st)
         | OpThrow => Ok (Thrown, st)
         end);
    match r with
    | (Normal, st) => run_ops fuel ops st
    | (Thrown, st) => Ok (Thrown, st)
    end.
Proof. done. Qed.

Lemma emit_unfold fuel s st :
  emit (S fuel) s st =
    e ← empty s (clinks st);
    if (e : bool) then Ok (Normal, st)
    else cur ← begin s (clinks st); emit_loop fuel s cur st.
Proof. done. Qed.

Lemma emit_loop_unfold fuel s c st :
  emit_loop (S fuel) s (Some c) st =
    if bool_decide (Some c = end_ s) then Ok (Normal, st)
    else
      let d := depth st in
      st ← plant c st;
      k ← of_option (conns st !! c);
      match slot k with
      | None => st ← retire d st; Ok (Thrown, st)
      | Some sl =>
          let st := with_trace (trace st ++ [sid sl]) st in
          r ← run_ops fuel (body sl) st;
          match r with
          | (Thrown, st) => st ← retire d st; Ok (Thrown, st)
          | (Normal, st) =>
              cur ← advance d c st;
              st ← retire d st;
              emit_loop fuel s cur st
          end
      end.
Proof. done. Qed.

Lemma emit_loop_null fuel s st : emit_loop (S fuel) s None st = Ok (Normal, st).
Proof. done. Qed.

Arguments run_ops : simpl never.
Arguments emit : simpl never.
Arguments emit_loop : simpl never.

Lemma state_eta st :
  st = State (clinks st) (wlinks st) (conns st) (walkers st) (flags st)
         (depth st) (trace st).
Proof. by destruct st. Qed.

Lemma state_eq st st' :
  clinks st = clinks st' → wlinks st = wlinks st' → conns st = conns st' →
  walkers st = walkers st' → flags st = flags st' → depth st = depth st' →
  trace st = trace st' → st = st'.
Proof. destruct st, st'. simpl. by intros -> -> -> -> -> -> ->. Qed.

Lemma without_notin X l : X ∉ l → without X l = l.
Proof.
  unfold without. induction l as [|a l IH]; intros Hx; [done|].
  rewrite filter_cons_True.
  - rewrite IH; [done|]. intros ?. apply Hx. by apply elem_of_cons; right.
  - intros ->. apply Hx. by apply elem_of_cons; left.
Qed.

Lemma without_mid X l1 l2 :
  NoDup (l1 ++ X :: l2) → without X (l1 ++ X :: l2) = l1 ++ l2.
Proof.
  intros Hnd. apply NoDup_app in Hnd as (_ & H1 & H2).
  apply NoDup_cons in H2 as [H2 _].
  unfold without. rewrite filter_app, filter_cons_False by (intros Hne; by apply Hne).
  fold (without X l1) (without X l2). rewrite !without_notin; [done|done|].
  intros Hx. apply (H1 X Hx). by apply elem_of_cons; left.
Qed.

Lemma without_cons_ne X k l : k ≠ X → without X (k :: l) = k :: without X l.
Proof. intros Hne. unfold without. by rewrite filter_cons_True. Qed.

Lemma without_app X l1 l2 : without X (l1 ++ l2) = without X l1 ++ without X l2.
Proof. unfold without. by rewrite filter_app. Qed.

(** ** The representation invariant *)

Section rep_facts.
Context (s : addr).
Implicit Types (st : state) (L : list addr) (W : addr → list nat) (c d : nat).

Lemma rep_stack st L W c d : rep st s L W → c ∈ L → d ∈ W c → d < depth st.
Proof.
  intros Hr Hc Hd. destruct (decide (d < depth st)) as [|Hge]; [done|].
  destruct (rep_free _ _ _ _ Hr d) as [Hnone _]; [lia|].
  destruct (dlist_alloc _ _ _ (WNode d) (rep_walk _ _ _ _ Hr c Hc)) as [e He].
  { apply elem_of_cons. right. by apply list_elem_of_fmap_2. }
  congruence.
Qed.

Lemma nodes_disj st L W c c' y :
  rep st s L W → c ∈ L → c' ∈ L → c ≠ c' → y ∈ nodes W c → y ∉ nodes W c'.
Proof.
  intros Hr Hc Hc' Hne. unfold nodes.
  intros [->|Hy]%elem_of_cons [Heq|Hy']%elem_of_cons.
  - congruence.
  - apply list_elem_of_fmap in Hy' as (? & ? & _). done.
  - subst. apply list_elem_of_fmap in Hy as (? & ? & _). done.
  - apply list_elem_of_fmap in Hy as (d & -> & Hd).
    apply list_elem_of_fmap in Hy' as (d' & [= <-] & Hd').
    apply Hne. by eapply rep_disj.
Qed.

Lemma rep_with_trace st L W t : rep st s L W → rep (with_trace t st) s L W.
Proof. intros []. by split. Qed.

Lemma rep_with_flags st L W f : rep st s L W → rep (with_flags f st) s L W.
Proof. intros []. by split. Qed.

(** Planting a walker on [c]. *)
Lemma plant_rep st L W c :
  rep st s L W → c ∈ L →
  ∃ st1, plant c st = Ok st1
    ∧ rep st1 s L (<[c := depth st :: W c]> W)
    ∧ depth st1 = S (depth st)
    ∧ clinks st1 = clinks st ∧ conns st1 = conns st
    ∧ flags st1 = flags st ∧ trace st1 = trace st
    ∧ walkers st1 = <[depth st := IterationData (Some c) false]> (walkers st).
Proof.
  intros Hr Hc. set (d := depth st).
  destruct (rep_free _ _ _ _ Hr d) as [Hd1 Hd2]; [done|].
  set (h0 := <[WNode d := ListElement None None]> (wlinks st)).
  assert (∀ c', c' ∈ L → dlist h0 (WRoot c') (WNode <$> W c')) as Hh0.
  { intros c' Hc'. eapply dlist_frame; [|by apply (rep_walk _ _ _ _ Hr)].
    intros y Hy. unfold h0. rewrite lookup_insert_ne; [done|]. intros <-.
    destruct (dlist_alloc _ _ _ _ (rep_walk _ _ _ _ Hr c' Hc') Hy). congruence. }
  assert (∀ c', c' ∈ L → WNode d ∉ nodes W c') as Hfresh.
  { intros c' Hc' Hy.
    destruct (dlist_alloc _ _ _ _ (rep_walk _ _ _ _ Hr c' Hc') Hy). congruence. }
  destruct (dlist_insert h0 (WRoot c) [] (WNode <$> W c) (WNode d))
    as (h1 & Hins & Hd1' & Fn & Fp).
  { by apply Hh0. } { by apply Hfresh. } { unfold h0. rewrite lookup_insert_eq. eauto. }
  simpl in *.
  exists (with_wlinks h1 (with_depth (S d) (with_walkers
            (<[d := IterationData (Some c) false]> (walkers st))
            (with_wlinks h0 st)))).
  split.
  { unfold plant, push_front, begin. simpl. fold d h0.
    rewrite (get_next_ok _ _ _ (dlist_root_nxt _ _ _ (Hh0 c Hc))). simpl.
    by rewrite Hins. }
  split; [|done].
  split; simpl.
  - apply Hr.
  - intros c' Hc'. destruct (decide (c = c')) as [<-|Hne].
    + by rewrite fn_lookup_insert.
    + rewrite fn_lookup_insert_ne by done.
      eapply dlist_frame; [|by apply Hh0]. intros y Hy.
      assert (y ∉ nodes W c) as Hyc by (eapply nodes_disj; eauto).
      apply lookup_frame; [apply Fn|apply Fp].
      * intros ->. by apply (Hfresh c').
      * intros ->. apply Hyc. apply elem_of_cons. by left.
      * intros ->. by apply (Hfresh c').
      * intros ->. apply Hyc. pose proof (hd_elem (WNode <$> W c) (WRoot c)) as Hh.
        apply elem_of_app in Hh as [Hh|Hh]; [by apply elem_of_cons; right|].
        apply list_elem_of_singleton in Hh. rewrite Hh. apply elem_of_cons. by left.
  - intros c' d' Hc'. destruct (decide (c = c')) as [<-|Hne].
    + rewrite fn_lookup_insert. intros [->|Hd']%elem_of_cons.
      * rewrite lookup_insert_eq. eauto.
      * rewrite lookup_insert_ne; [by eapply rep_held|].
        intros <-. apply (Hfresh c Hc). apply elem_of_cons. right.
        by apply list_elem_of_fmap_2.
    + rewrite fn_lookup_insert_ne by done. intros Hd'.
      rewrite lookup_insert_ne; [by eapply rep_held|].
      intros <-. apply (Hfresh c' Hc'). apply elem_of_cons. right.
      by apply list_elem_of_fmap_2.
  - intros c1 c2 d' Hc1 Hc2.
    assert (∀ c', c' ∈ L → d ∈ W c' → False) as Hnot.
    { intros c' Hc' Hin. apply (Hfresh c' Hc'). apply elem_of_cons. right.
      by apply list_elem_of_fmap_2. }
    destruct (decide (c = c1)) as [<-|Hne1]; destruct (decide (c = c2)) as [<-|Hne2];
      rewrite ?fn_lookup_insert, ?fn_lookup_insert_ne by done; try done.
    + intros [->|H1]%elem_of_cons H2; [by destruct (Hnot c2)|by eapply rep_disj].
    + intros H1 [->|H2]%elem_of_cons; [by destruct (Hnot c1)|by eapply rep_disj].
    + by eapply rep_disj.
  - intros d' Hd'. assert (d ≠ d') by lia.
    destruct (rep_free _ _ _ _ Hr d') as [Hf1 Hf2]; [fold d; lia|].
    split.
    + rewrite <-Hf1. apply lookup_frame; [rewrite Fn|rewrite Fp]; try congruence.
      * unfold h0. rewrite nxt_insert. case_decide; [congruence|done].
      * unfold h0. rewrite prv_insert. case_decide; [congruence|done].
      * intros Heq. pose proof (hd_elem (WNode <$> W c) (WRoot c)) as Hh.
        rewrite <-Heq in Hh.
        apply elem_of_app in Hh as [Hh|Hh]; [|by apply list_elem_of_singleton in Hh].
        destruct (dlist_alloc _ _ _ (WNode d') (rep_walk _ _ _ _ Hr c Hc)).
        { by apply elem_of_cons; right. } congruence.
    + rewrite lookup_insert_ne by done. done.
Qed.

(** Planting on [c] touches the links of [c]'s walker list only. *)
Lemma plant_frame st L W c st1 y :
  rep st s L W → c ∈ L → plant c st = Ok st1 →
  y ∉ nodes W c → y ≠ WNode (depth st) →
  wlinks st1 !! y = wlinks st !! y.
Proof.
  intros Hr Hc Hpl Hy Hyd. unfold plant, push_front, begin in Hpl. simpl in Hpl.
  set (d := depth st) in *.
  destruct (rep_free _ _ _ _ Hr d) as [Hd1 Hd2]; [done|].
  set (h0 := <[WNode d := ListElement None None]> (wlinks st)) in *.
  pose proof (rep_walk _ _ _ _ Hr c Hc) as Hw.
  assert (dlist h0 (WRoot c) (WNode <$> W c)) as Hh0.
  { eapply dlist_frame; [|exact Hw].
    intros z Hz. unfold h0. rewrite lookup_insert_ne; [done|]. intros <-.
    destruct (dlist_alloc _ _ _ _ Hw Hz). congruence. }
  destruct (dlist_insert h0 (WRoot c) [] (WNode <$> W c) (WNode d))
    as (h1 & Hins & _ & Fn & Fp).
  { done. }
  { intros Hz. destruct (dlist_alloc _ _ _ _ Hw Hz). congruence. }
  { unfold h0. rewrite lookup_insert_eq. eauto. }
  simpl in *.
  rewrite (get_next_ok _ _ _ (dlist_root_nxt _ _ _ Hh0)) in Hpl. simpl in Hpl.
  rewrite Hins in Hpl. simpl in Hpl. injection Hpl as <-. simpl.
  transitivity (h0 !! y); [|unfold h0; by rewrite lookup_insert_ne].
  apply lookup_frame; [apply Fn|apply Fp]; try done.
  - intros ->. apply Hy. by apply elem_of_cons; left.
  - intros ->. apply Hy. pose proof (hd_elem (WNode <$> W c) (WRoot c)) as Hh.
    apply elem_of_app in Hh as [Hh|Hh]; [by apply elem_of_cons; right|].
    apply list_elem_of_singleton in Hh. rewrite Hh. by apply elem_of_cons; left.
Qed.

Lemma rep_root_prev st L W c :
  rep st s L W → c ∈ L → nxt (wlinks st) (WRoot c) = Some (Some (hd (WRoot c) (WNode <$> W c))).
Proof. intros Hr Hc. by apply dlist_root_nxt, (rep_walk _ _ _ _ Hr). Qed.

(** A walker that was planted and is retired at once leaves no trace in
    the heap. *)
Lemma plant_retire st L W c st1 st1' :
  rep st s L W → c ∈ L → plant c st = Ok st1 →
  clinks st1' = clinks st1 → wlinks st1' = wlinks st1 → conns st1' = conns st1 →
  walkers st1' = walkers st1 →
  retire (depth st) st1'
    = Ok (State (clinks st) (wlinks st) (conns st) (walkers st) (flags st1')
            (depth st) (trace st1')).
Proof.
  intros Hr Hc. unfold plant, push_front, begin. simpl.
  set (d := depth st).
  destruct (rep_free _ _ _ _ Hr d) as [Hd1 Hd2]; [done|].
  pose proof (rep_walk _ _ _ _ Hr c Hc) as Hw.
  assert (nxt (<[WNode d := ListElement None None]> (wlinks st)) (WRoot c)
          = Some (Some (hd (WRoot c) (WNode <$> W c)))) as Hn.
  { rewrite nxt_insert. case_decide; [done|]. by apply dlist_root_nxt. }
  rewrite (get_next_ok _ _ _ Hn). simpl.
  destruct (insert _ _ _) as [h1| |] eqn:Hins; simpl; [|done..].
  intros [= <-]. simpl. intros E1 E2 E3 E4.
  destruct (insert_unlink_cancel _ _ _ _ _ Hw Hd1 Hins) as (h2 & Hun & Hdel).
  unfold retire. rewrite E2, Hun. simpl. f_equal.
  apply state_eq; simpl; try done.
  by rewrite E4, delete_insert_eq, delete_id.
Qed.

Lemma rep_succ st L1 c L2 W :
  rep st s (L1 ++ c :: L2) W →
  get_next (clinks st) (Some c) = Ok (Some (hd s L2)).
Proof.
  intros Hr. apply get_next_ok. eapply dlist_nxt, rep_conns. done.
Qed.

Lemma rep_not_root st L W c : rep st s L W → c ∈ L → c ≠ s.
Proof.
  intros Hr Hc ->. pose proof (dlist_NoDup _ _ _ (rep_conns _ _ _ _ Hr)) as Hnd.
  by apply NoDup_cons in Hnd as [? _].
Qed.

(** One step of emission over a connection whose callback is inert. *)
Lemma quiet_step st L1 c L2 W p id b fuel :
  rep st s (L1 ++ c :: L2) W →
  conns st !! c = Some (Conn p (Some (Slot id b))) → inert (flags st) b →
  2 ≤ fuel →
  emit_loop (S fuel) s (Some c) st
    = emit_loop fuel s (Some (hd s L2)) (with_trace (trace st ++ [id]) st).
Proof.
  intros Hr Hk Hb Hfuel.
  assert (c ∈ L1 ++ c :: L2) as Hc by (apply elem_of_app; right; by apply elem_of_cons; left).
  pose proof (rep_not_root _ _ _ _ Hr Hc) as Hcs.
  destruct (plant_rep _ _ _ _ Hr Hc) as (st1 & Hpl & Hr1 & Hdep & Ecl & Eco & Efl & Etr & Ewa).
  rewrite emit_loop_unfold, bool_decide_eq_false_2 by (unfold end_; congruence).
  simpl. rewrite Hpl. simpl. rewrite Eco, Hk. simpl.
  rewrite Hb; [|done|simpl; by rewrite Efl]. simpl.
  unfold advance. simpl. rewrite Ewa, lookup_insert_eq. simpl.
  rewrite Ecl, (rep_succ _ _ _ _ _ Hr). simpl.
  erewrite (plant_retire st _ _ c st1); [|done|done|done|done..].
  simpl. rewrite Efl, Etr. done.
Qed.

(** Emission over connections whose callbacks are all inert: each is
    invoked once, in list order, and the heap is left as it was. *)
Lemma quiet_loop R : ∀ pre st W fuel,
  rep st s (pre ++ R) W →
  (∀ c, c ∈ R → ∃ p id b,
      conns st !! c = Some (Conn p (Some (Slot id b))) ∧ inert (flags st) b) →
  length R + 3 ≤ fuel →
  emit_loop fuel s (Some (hd s R)) st
    = Ok (Normal, with_trace (trace st ++ (slot_id st <$> R)) st).
Proof.
  induction R as [|c R IH]; intros pre st W fuel Hr Hsl Hfuel;
    (destruct fuel as [|fuel]; [simpl in Hfuel; lia|]).
  - rewrite emit_loop_unfold. simpl. rewrite bool_decide_eq_true_2 by done. do 2 f_equal.
    apply state_eq; simpl; try done. by rewrite app_nil_r.
  - destruct (Hsl c) as (p & id & b & Hk & Hb); [by apply elem_of_cons; left|].
    simpl hd. erewrite quiet_step; [|done|done|done|simpl in Hfuel; lia].
    rewrite (IH (pre ++ [c]) _ W).
    + do 2 f_equal. apply state_eq; simpl; try done.
      rewrite <-app_assoc. simpl. unfold slot_id at 2. by rewrite Hk.
    + rewrite <-app_assoc. by apply rep_with_trace.
    + intros c' Hc'. simpl. apply Hsl. by apply elem_of_cons; right.
    + simpl in Hfuel. lia.
Qed.

Lemma quiet_emit st L W fuel :
  rep st s L W →
  (∀ c, c ∈ L → ∃ p id b,
      conns st !! c = Some (Conn p (Some (Slot id b))) ∧ inert (flags st) b) →
  length L + 4 ≤ fuel →
  emit fuel s st = Ok (Normal, with_trace (trace st ++ (slot_id st <$> L)) st).
Proof.
  intros Hr Hsl Hfuel. destruct fuel as [|fuel]; [lia|]. rewrite emit_unfold.
  pose proof (dlist_root_nxt _ _ _ (rep_conns _ _ _ _ Hr)) as Hn.
  unfold empty, begin. rewrite (get_next_ok _ _ _ Hn). simpl.
  destruct L as [|c L].
  - simpl. rewrite bool_decide_eq_true_2 by done. do 2 f_equal.
    apply state_eq; simpl; try done. by rewrite app_nil_r.
  - rewrite bool_decide_eq_false_2.
    + apply (quiet_loop (c :: L) [] st W); [done|done|simpl in *; lia].
    + simpl. intros [= ->]. apply (rep_not_root _ _ _ s Hr); [|done].
      apply elem_of_cons. by left.
Qed.

(** [connect] links the new connection in front of all others. *)
Lemma connect_rep st L W c sl :
  rep st s L W → c ∉ s :: L →
  ∃ st', connect s c sl st = Ok st'
    ∧ rep st' s (c :: L) (<[c := []]> W)
    ∧ conns st' = <[c := Conn (Some s) (Some sl)]> (conns st)
    ∧ walkers st' = walkers st ∧ flags st' = flags st
    ∧ depth st' = depth st ∧ trace st' = trace st.
Proof.
  intros Hr Hc.
  set (h0 := <[c := ListElement None None]> (clinks st)).
  assert (dlist h0 s L) as Hd0.
  { eapply dlist_frame; [|by apply Hr]. intros y Hy. unfold h0.
    rewrite lookup_insert_ne; [done|]. by intros <-. }
  destruct (dlist_insert h0 s [] L c) as (h1 & Hins & Hd1 & _ & _); try done.
  { unfold h0. rewrite lookup_insert_eq. eauto. }
  simpl in *. eexists. split.
  { unfold connect, push_front, begin. simpl. fold h0.
    rewrite (get_next_ok _ _ _ (dlist_root_nxt _ _ _ Hd0)). simpl.
    rewrite Hins. simpl. done. }
  split; [|done]. split; simpl.
  - done.
  - intros c' [->|Hc']%elem_of_cons.
    + rewrite fn_lookup_insert. simpl. apply dlist_nil. unfold list_init.
      by rewrite lookup_insert_eq.
    + assert (c ≠ c') as Hne.
      { intros ->. apply Hc. by apply elem_of_cons; right. }
      rewrite fn_lookup_insert_ne by done.
      eapply dlist_frame; [|by apply (rep_walk _ _ _ _ Hr)].
      intros y Hy. unfold list_init. rewrite lookup_insert_ne; [done|].
      intros <-. apply elem_of_cons in Hy as [[= ?]|Hy]; [done|].
      by apply list_elem_of_fmap in Hy as (? & ? & _).
  - intros c' d [->|Hc']%elem_of_cons.
    + rewrite fn_lookup_insert. by intros ?%elem_of_nil.
    + rewrite fn_lookup_insert_ne; [by apply (rep_held _ _ _ _ Hr)|].
      intros ->. apply Hc. by apply elem_of_cons; right.
  - intros c1 c2 d Hc1 Hc2.
    destruct (decide (c = c1)) as [<-|Hne1].
    { rewrite fn_lookup_insert. by intros ?%elem_of_nil. }
    destruct (decide (c = c2)) as [<-|Hne2].
    { rewrite (fn_lookup_insert _ c). by intros _ ?%elem_of_nil. }
    rewrite !fn_lookup_insert_ne by done.
    apply elem_of_cons in Hc1 as [?|Hc1]; [done|].
    apply elem_of_cons in Hc2 as [?|Hc2]; [done|].
    by apply (rep_disj _ _ _ _ Hr).
  - intros d Hd. destruct (rep_free _ _ _ _ Hr d Hd) as [H1 H2].
    split; [|done]. unfold list_init. by rewrite lookup_insert_ne.
Qed.

Lemma with_walkers_id st : with_walkers (walkers st) st = st.
Proof. by destruct st. Qed.

(** The range-for of [disconnect] marks exactly the walkers of the list. *)
Lemma mark_walkers_spec c a ds2 : ∀ ds1 st fuel,
  dlist (wlinks st) (WRoot c) (WNode <$> (ds1 ++ ds2)) →
  (∀ d, d ∈ ds2 → is_Some (walkers st !! d)) →
  length ds2 < fuel →
  ∃ m, mark_walkers fuel c (Some (hd (WRoot c) (WNode <$> ds2))) a st
         = Ok (with_walkers m st)
    ∧ (∀ d, d ∈ ds2 → m !! d = Some (IterationData a true))
    ∧ (∀ d, d ∉ ds2 → m !! d = walkers st !! d).
Proof.
  induction ds2 as [|d ds2 IH]; intros ds1 st fuel Hd Hal Hfuel;
    (destruct fuel as [|fuel]; [simpl in Hfuel; lia|]); simpl.
  - rewrite bool_decide_eq_true_2 by done. exists (walkers st).
    rewrite with_walkers_id. split; [done|]. split; [|done].
    by intros d ?%elem_of_nil.
  - destruct (Hal d) as [w Hw]; [by apply elem_of_cons; left|].
    rewrite Hw. simpl.
    assert (nxt (wlinks st) (WNode d) = Some (Some (hd (WRoot c) (WNode <$> ds2)))) as Hn.
    { rewrite fmap_app, fmap_cons in Hd. by apply dlist_nxt in Hd. }
    rewrite (get_next_ok _ _ _ Hn). simpl.
    assert (d ∉ ds2) as Hnd.
    { pose proof (dlist_NoDup _ _ _ Hd) as Hnd. apply NoDup_cons in Hnd as [_ Hnd].
      apply NoDup_fmap_1 in Hnd. apply NoDup_app in Hnd as (_ & _ & Hnd).
      by apply NoDup_cons in Hnd as [? _]. }
    destruct (IH (ds1 ++ [d])
                (with_walkers (<[d := IterationData a true]> (walkers st)) st)
                fuel) as (m & Hm & Hin & Hout).
    + simpl. by rewrite <-app_assoc.
    + intros d' Hd'. simpl. rewrite lookup_insert. case_decide; [by eauto|].
      apply Hal. by apply elem_of_cons; right.
    + simpl in Hfuel. lia.
    + exists m. split; [by rewrite Hm|]. split.
      * intros d' [->|Hd']%elem_of_cons; [|by apply Hin].
        rewrite Hout by done. simpl. by rewrite lookup_insert_eq.
      * intros d' Hd'. rewrite Hout.
        -- simpl. rewrite lookup_insert_ne; [done|]. intros ->. apply Hd'.
           by apply elem_of_cons; left.
        -- intros ?. apply Hd'. by apply elem_of_cons; right.
Qed.

Lemma rep_walkers_alloc st L W c d :
  rep st s L W → c ∈ L → d ∈ W c → is_Some (walkers st !! d).
Proof. intros Hr Hc Hd. destruct (rep_held _ _ _ _ Hr c d Hc Hd) as [b ->]. eauto. Qed.

Lemma elem_nodes W c d : d ∈ W c → WNode d ∈ nodes W c.
Proof. intros Hd. apply elem_of_cons. right. by apply list_elem_of_fmap_2. Qed.

Lemma root_nodes W c : WRoot c ∈ nodes W c.
Proof. apply elem_of_cons. by left. Qed.

Lemma disconnect_rep_any st L1 x L2 W p sl :
  rep st s (L1 ++ x :: L2) W →
  conns st !! x = Some (Conn p sl) →
  match L2 with [] => p = Some s | n :: _ => p ≠ Some n end →
  ∃ st', disconnect x st = Ok st'
    ∧ rep st' s (L1 ++ L2) (redirect W x L2)
    ∧ clinks st' !! x = Some (ListElement None None)
    ∧ dlist (wlinks st') (WRoot x) []
    ∧ (∀ d, d ∈ W x → walkers st' !! d = Some (IterationData (Some (hd s L2)) true))
    ∧ (∀ d, d ∉ W x → walkers st' !! d = walkers st !! d)
    ∧ (L2 = [] → ∀ d, d ∈ W x → wlinks st' !! WNode d = Some (ListElement None None))
    ∧ (∀ y, y ∉ nodes W x → y ∉ nodes W (hd s L2) → wlinks st' !! y = wlinks st !! y)
    ∧ conns st' = conns st ∧ flags st' = flags st
    ∧ depth st' = depth st ∧ trace st' = trace st
    ∧ (∀ y, y ∉ s :: L1 ++ x :: L2 → clinks st' !! y = clinks st !! y)
    ∧ (L2 = [] → ∀ y, y ∉ nodes W x → wlinks st' !! y = wlinks st !! y).
Proof.
  intros Hr Hk Hfit.
  assert (x ∈ L1 ++ x :: L2) as Hx by (apply elem_of_app; right; by apply elem_of_cons; left).
  pose proof (dlist_NoDup _ _ _ (rep_conns _ _ _ _ Hr)) as Hnd.
  assert (∀ c, c ∈ L1 ++ L2 → c ∈ L1 ++ x :: L2) as Hsub.
  { intros c [?|?]%elem_of_app; apply elem_of_app; [by left|right].
    by apply elem_of_cons; right. }
  assert (∀ c, c ∈ L1 ++ L2 → c ≠ x) as Hnx.
  { intros c Hc ->. apply NoDup_cons in Hnd as [_ Hnd].
    apply NoDup_app in Hnd as (_ & Hd1 & Hd2). apply NoDup_cons in Hd2 as [Hd2 _].
    apply elem_of_app in Hc as [Hc|Hc]; [|done].
    apply (Hd1 x Hc). by apply elem_of_cons; left. }
  assert (∀ c d, c ∈ L1 ++ L2 → d ∈ W c →
            ∃ b, walkers st !! d = Some (IterationData (Some c) b)) as Hheld.
  { intros c d Hc Hd. apply (rep_held _ _ _ _ Hr); [by apply Hsub|done]. }
  assert (∀ c d, c ∈ L1 ++ L2 → d ∈ W c → d ∉ W x) as Hdx.
  { intros c d Hc Hd Hd'. apply (Hnx c Hc).
    apply (rep_disj _ _ _ _ Hr c x d); [by apply Hsub|done..]. }
  assert (∀ c1 c2 d, c1 ∈ L1 ++ L2 → c2 ∈ L1 ++ L2 → d ∈ W c1 → d ∈ W c2 → c1 = c2)
    as Hdisj.
  { intros c1 c2 d H1 H2. apply (rep_disj _ _ _ _ Hr); by apply Hsub. }
  assert (∀ c y, c ∈ L1 ++ L2 → y ∈ nodes W c → y ∉ nodes W x) as Hndx.
  { intros c y Hc. apply (nodes_disj st (L1 ++ x :: L2) W c x); [done| |done|].
    - by apply Hsub. - by apply Hnx. }
  destruct (dlist_unlink _ _ _ _ _ (rep_conns _ _ _ _ Hr))
    as (hc & Hun & Hdc & Hxc & _ & _ & Hfn & Hfp).
  assert (∀ y, y ∉ s :: L1 ++ x :: L2 → hc !! y = clinks st !! y) as Hcfr.
  { intros y Hy.
    assert (y ≠ x) as Hyx.
    { intros ->. apply Hy. apply elem_of_cons. by right. }
    assert (y ≠ last_or L1 s) as Hyl.
    { intros ->. apply Hy. pose proof (last_or_elem L1 s) as Hl.
      apply elem_of_cons in Hl as [Hl|Hl]; [by apply elem_of_cons; left|].
      apply elem_of_cons. right. apply elem_of_app. by left. }
    assert (y ≠ hd s L2) as Hyh.
    { intros ->. apply Hy. pose proof (hd_elem L2 s) as Hl.
      apply elem_of_app in Hl as [Hl|Hl%list_elem_of_singleton].
      - apply elem_of_cons. right. apply elem_of_app. right. by apply elem_of_cons; right.
      - apply elem_of_cons. by left. }
    specialize (Hfn y Hyx Hyl). specialize (Hfp y Hyx Hyh). unfold nxt, prv in *.
    destruct (hc !! y) as [[? ?]|], (clinks st !! y) as [[? ?]|]; simpl in *; congruence. }
  pose proof (rep_walk _ _ _ _ Hr x Hx) as Hwx.
  destruct (mark_walkers_spec x (Some (hd s L2)) (W x) [] (with_clinks hc st)
              (size (wlinks st))) as (m & Hm & Hmin & Hmout).
  { done. } { intros d Hd. simpl. by apply (rep_walkers_alloc _ _ _ _ _ Hr Hx). }
  { pose proof (dlist_size _ _ _ Hwx) as Hsz. by rewrite length_fmap in Hsz. }
  simpl in Hmout.
  unfold disconnect. rewrite Hun. simpl.
  unfold begin. rewrite (get_next_ok _ _ _ (dlist_root_nxt _ _ _ Hwx)). simpl.
  rewrite Hm. simpl.
  assert (parent_end x (with_walkers m (with_clinks hc st)) = Ok p) as Hpe.
  { unfold parent_end. simpl. by rewrite Hk. }
  rewrite Hpe. simpl.
  assert (∀ d, depth st ≤ d → m !! d = None) as Hmfree.
  { intros d Hd. destruct (rep_free _ _ _ _ Hr d Hd) as [H1 H2].
    rewrite Hmout; [done|]. intros Hy.
    destruct (rep_walkers_alloc _ _ _ _ _ Hr Hx Hy). congruence. }
  destruct L2 as [|n L2]; simpl.
  - (* [x] was last: its walkers are discarded *)
    subst p. rewrite bool_decide_eq_false_2 by (intros Hne; by apply Hne).
    destruct (dlist_clear _ _ _ Hwx) as (hw & Hcl & Hnil & Hin & Hout).
    rewrite Hcl. simpl. eexists. split; [done|].
    split; [|split_and!; simpl; try done].
    + split; simpl; try done.
      * intros c Hc. eapply dlist_frame; [|apply (rep_walk _ _ _ _ Hr); by apply Hsub].
        intros y Hy. apply Hout. by apply (Hndx c).
      * intros c d Hc Hd. rewrite Hmout; [by apply Hheld|]. by apply (Hdx c).
      * intros d Hd. split; [|by apply Hmfree].
        destruct (rep_free _ _ _ _ Hr d Hd) as [H1 H2].
        rewrite Hout; [done|]. intros Hy.
        destruct (dlist_alloc _ _ _ _ Hwx Hy). congruence.
    + intros _ d Hd. apply Hin. by apply list_elem_of_fmap_2.
    + intros y Hy _. by apply Hout.
  - (* the walkers of [x] move to the front of the successor [n] *)
    assert (n ∈ L1 ++ x :: n :: L2) as Hn.
    { apply elem_of_app. right. apply elem_of_cons. right. by apply elem_of_cons; left. }
    assert (n ∈ L1 ++ n :: L2) as Hn'.
    { apply elem_of_app. right. by apply elem_of_cons; left. }
    rewrite bool_decide_eq_true_2 by (intros E; apply Hfit; by rewrite <-E).
    simpl.
    pose proof (rep_walk _ _ _ _ Hr n Hn) as Hwn.
    rewrite (get_next_ok _ _ _ (dlist_root_nxt _ _ _ Hwn)). simpl.
    rewrite (get_next_ok _ _ _ (dlist_root_nxt _ _ _ Hwx)). simpl.
    destruct (dlist_splice _ _ _ _ _ Hwx Hwn) as (hw & Hsp & Hnil & Hcat & Hout).
    { intros y Hy Hy'. by apply (Hndx n y). }
    unfold end_. rewrite Hsp. simpl. eexists. split; [done|].
    split; [|split_and!; simpl; try done].
    + split; simpl; try done.
      * intros c Hc. destruct (decide (n = c)) as [<-|Hne].
        -- rewrite fn_lookup_insert. by rewrite fmap_app.
        -- rewrite fn_lookup_insert_ne by done.
           eapply dlist_frame; [|apply (rep_walk _ _ _ _ Hr); by apply Hsub].
           intros y Hy. apply Hout; [by apply (Hndx c)|].
           apply (nodes_disj st (L1 ++ x :: n :: L2) W c n); [done| |done| |done].
           ++ by apply Hsub.
           ++ by apply not_eq_sym.
      * intros c d Hc. destruct (decide (n = c)) as [<-|Hne].
        -- rewrite fn_lookup_insert. intros [Hd|Hd]%elem_of_app.
           ++ rewrite Hmin by done. eauto.
           ++ rewrite Hmout; [by apply Hheld|]. by apply (Hdx n).
        -- rewrite fn_lookup_insert_ne by done. intros Hd.
           rewrite Hmout; [by apply Hheld|]. by apply (Hdx c).
      * assert (∀ c d, c ∈ L1 ++ n :: L2 → d ∈ W x ++ W n → d ∈ W c → c = n) as Haux.
        { intros c d Hc [Hd|Hd]%elem_of_app Hd'.
          - by destruct (Hdx c d).
          - by apply (Hdisj c n d). }
        intros c1 c2 d Hc1 Hc2.
        destruct (decide (n = c1)) as [<-|Hne1]; destruct (decide (n = c2)) as [<-|Hne2];
          rewrite ?fn_lookup_insert, ?fn_lookup_insert_ne by done; try done.
        -- intros Hd1 Hd2. symmetry. by eapply Haux.
        -- intros Hd1 Hd2. by eapply Haux.
        -- by apply Hdisj.
      * intros d Hd. split; [|by apply Hmfree].
        destruct (rep_free _ _ _ _ Hr d Hd) as [H1 H2].
        rewrite Hout; [done| |]; intros Hy.
        ++ destruct (dlist_alloc _ _ _ _ Hwx Hy). congruence.
        ++ destruct (dlist_alloc _ _ _ _ Hwn Hy). congruence.
Qed.

Lemma disconnect_rep st L1 x L2 W :
  rep st s (L1 ++ x :: L2) W → knows st x s →
  ∃ st', disconnect x st = Ok st'
    ∧ rep st' s (L1 ++ L2) (redirect W x L2)
    ∧ clinks st' !! x = Some (ListElement None None)
    ∧ dlist (wlinks st') (WRoot x) []
    ∧ (∀ d, d ∈ W x → walkers st' !! d = Some (IterationData (Some (hd s L2)) true))
    ∧ (∀ d, d ∉ W x → walkers st' !! d = walkers st !! d)
    ∧ (L2 = [] → ∀ d, d ∈ W x → wlinks st' !! WNode d = Some (ListElement None None))
    ∧ (∀ y, y ∉ nodes W x → y ∉ nodes W (hd s L2) → wlinks st' !! y = wlinks st !! y)
    ∧ conns st' = conns st ∧ flags st' = flags st
    ∧ depth st' = depth st ∧ trace st' = trace st
    ∧ (∀ y, y ∉ s :: L1 ++ x :: L2 → clinks st' !! y = clinks st !! y)
    ∧ (L2 = [] → ∀ y, y ∉ nodes W x → wlinks st' !! y = wlinks st !! y).
Proof.
  intros Hr [sl Hk]. apply (disconnect_rep_any st L1 x L2 W (Some s) sl); [done..|].
  destruct L2 as [|n L2]; [done|]. intros [= Heq].
  apply (rep_not_root _ _ _ n Hr); [|done].
  apply elem_of_app. right. apply elem_of_cons. right. by apply elem_of_cons; left.
Qed.

(** The end of a step: the walker [d] on top of the stack is unlinked from
    wherever it is parked (or from nowhere) and its slot is released. *)
Lemma retire_rep st L W d :
  rep st s L W → depth st = S d →
  (∃ c, c ∈ L ∧ d ∈ W c) ∨ wlinks st !! WNode d = Some (ListElement None None) →
  ∃ st' W', retire d st = Ok st'
    ∧ rep st' s L W'
    ∧ clinks st' = clinks st ∧ conns st' = conns st
    ∧ flags st' = flags st ∧ trace st' = trace st ∧ depth st' = d.
Proof.
  intros Hr Hdep [(c & Hc & Hd)|Hloose].
  - apply list_elem_of_split in Hd as (ds1 & ds2 & HW).
    pose proof (rep_walk _ _ _ _ Hr c Hc) as Hw.
    rewrite HW, fmap_app, fmap_cons in Hw.
    pose proof (dlist_NoDup _ _ _ Hw) as Hnd.
    destruct (dlist_unlink _ _ _ _ _ Hw) as (h' & Hun & Hd' & _ & _ & _ & Fn & Fp).
    assert (∀ y, y ∉ nodes W c → h' !! y = wlinks st !! y) as Hout.
    { intros y Hy. unfold nodes in Hy. rewrite HW, fmap_app, fmap_cons in Hy.
      apply lookup_frame; [apply Fn|apply Fp]; intros ->; apply Hy.
      - apply elem_of_cons. right. apply elem_of_app. right. by apply elem_of_cons; left.
      - pose proof (last_or_elem (WNode <$> ds1) (WRoot c)) as Hl.
        apply elem_of_cons in Hl as [->|Hl]; [by apply elem_of_cons; left|].
        apply elem_of_cons. right. apply elem_of_app. by left.
      - apply elem_of_cons. right. apply elem_of_app. right. by apply elem_of_cons; left.
      - pose proof (hd_elem (WNode <$> ds2) (WRoot c)) as Hl.
        apply elem_of_app in Hl as [Hl|Hl].
        + apply elem_of_cons. right. apply elem_of_app. right. by apply elem_of_cons; right.
        + apply list_elem_of_singleton in Hl. rewrite Hl. by apply elem_of_cons; left. }
    assert (d ∉ ds1 ++ ds2) as Hdn.
    { apply NoDup_cons in Hnd as [_ Hnd]. rewrite <-fmap_cons, <-fmap_app in Hnd.
      apply NoDup_fmap_1 in Hnd. intros Hin.
      apply (NoDup_mid1 ds1 ds2 d d Hnd Hin). done. }
    assert (∀ c' d', c' ∈ L → c' ≠ c → d' ∈ W c' → d' ≠ d) as Hod.
    { intros c' d' Hc' Hne Hd1 ->. apply Hne.
      apply (rep_disj _ _ _ _ Hr c' c d); [done..|].
      rewrite HW. apply elem_of_app. right. by apply elem_of_cons; left. }
    exists (with_depth d (with_walkers (delete d (walkers st))
              (with_wlinks (delete (WNode d) h') st))), (<[c := ds1 ++ ds2]> W).
    split; [unfold retire; by rewrite Hun|]. split; [|done].
    split; simpl.
    + apply Hr.
    + intros c' Hc'. destruct (decide (c = c')) as [<-|Hne].
      * rewrite fn_lookup_insert, fmap_app.
        eapply dlist_frame; [|exact Hd']. intros y Hy.
        rewrite lookup_delete_ne; [done|]. intros <-.
        apply elem_of_cons in Hy as [?|Hy]; [done|].
        rewrite <-fmap_app in Hy. apply list_elem_of_fmap in Hy as (d' & [= <-] & ?). done.
      * rewrite fn_lookup_insert_ne by done.
        eapply dlist_frame; [|by apply (rep_walk _ _ _ _ Hr)]. intros y Hy.
        rewrite lookup_delete_ne.
        -- apply Hout. by apply (nodes_disj st L W c' c).
        -- intros <-. apply elem_of_cons in Hy as [?|Hy]; [done|].
           apply list_elem_of_fmap in Hy as (d' & [= <-] & ?).
           by apply (Hod c' d).
    + intros c' d' Hc'. destruct (decide (c = c')) as [<-|Hne].
      * rewrite fn_lookup_insert. intros Hd1.
        rewrite lookup_delete_ne by (intros ->; done).
        apply (rep_held _ _ _ _ Hr); [done|]. rewrite HW.
        apply elem_of_app in Hd1 as [?|?]; apply elem_of_app; [by left|right].
        by apply elem_of_cons; right.
      * rewrite fn_lookup_insert_ne by done. intros Hd1.
        rewrite lookup_delete_ne; [by apply (rep_held _ _ _ _ Hr)|].
        apply not_eq_sym. by apply (Hod c').
    + assert (∀ d', d' ∈ ds1 ++ ds2 → d' ∈ W c) as Hsub.
      { intros d' Hd1. rewrite HW.
        apply elem_of_app in Hd1 as [?|?]; apply elem_of_app; [by left|right].
        by apply elem_of_cons; right. }
      intros c1 c2 d' Hc1 Hc2.
      destruct (decide (c = c1)) as [<-|Hne1]; destruct (decide (c = c2)) as [<-|Hne2];
        rewrite ?fn_lookup_insert, ?fn_lookup_insert_ne by done; try done.
      * intros H1 H2. apply (rep_disj _ _ _ _ Hr c c2 d'); [done..|by apply Hsub|done].
      * intros H1 H2. apply (rep_disj _ _ _ _ Hr c1 c d'); [done..|by apply Hsub].
      * by apply (rep_disj _ _ _ _ Hr).
    + intros d' Hd1. destruct (decide (d' = d)) as [->|Hne].
      { by rewrite !lookup_delete_eq. }
      destruct (rep_free _ _ _ _ Hr d') as [H1 H2]; [lia|].
      rewrite !lookup_delete_ne by congruence. split; [|done].
      rewrite Hout; [done|]. intros Hy.
      destruct (dlist_alloc _ _ _ _ (rep_walk _ _ _ _ Hr c Hc) Hy). congruence.
  - assert (∀ c, c ∈ L → WNode d ∉ nodes W c) as Hnot.
    { intros c Hc Hy.
      destruct (dlist_linked _ _ _ _ (rep_walk _ _ _ _ Hr c Hc) Hy) as [z Hz].
      unfold nxt in Hz. rewrite Hloose in Hz. done. }
    exists (with_depth d (with_walkers (delete d (walkers st))
              (with_wlinks (delete (WNode d) (wlinks st)) st))), W.
    split; [unfold retire; by rewrite (unlink_unlinked _ _ Hloose)|]. split; [|done].
    split; simpl.
    + apply Hr.
    + intros c Hc. eapply dlist_frame; [|by apply (rep_walk _ _ _ _ Hr)].
      intros y Hy. rewrite lookup_delete_ne; [done|]. intros <-. by apply (Hnot c).
    + intros c d' Hc Hd'. rewrite lookup_delete_ne; [by apply (rep_held _ _ _ _ Hr)|].
      intros <-. apply (Hnot c Hc). by apply elem_nodes.
    + apply Hr.
    + intros d' Hd1. destruct (decide (d' = d)) as [->|Hne].
      { by rewrite !lookup_delete_eq. }
      destruct (rep_free _ _ _ _ Hr d') as [H1 H2]; [lia|].
      by rewrite !lookup_delete_ne by congruence.
Qed.

(** A step whose callback disconnects [X]: the state just after the
    call to [disconnect], before the walker is looked at. *)
Lemma plant_disconnect st pre k rest W X t :
  rep st s (pre ++ k :: rest) W → X ∈ pre ++ k :: rest → knows st X s →
  ∃ st1 st2 W2, plant k st = Ok st1
    ∧ disconnect X (with_trace t st1) = Ok st2
    ∧ rep st2 s (without X (pre ++ k :: rest)) W2
    ∧ depth st2 = S (depth st)
    ∧ ((∃ c, c ∈ without X (pre ++ k :: rest) ∧ depth st ∈ W2 c)
       ∨ wlinks st2 !! WNode (depth st) = Some (ListElement None None))
    ∧ advance (depth st) k st2 = Ok (Some (hd s (without X rest)))
    ∧ conns st2 = conns st ∧ flags st2 = flags st ∧ trace st2 = t.
Proof.
  intros Hr HX Hkn.
  assert (k ∈ pre ++ k :: rest) as Hk by (apply elem_of_app; right; by apply elem_of_cons; left).
  pose proof (dlist_NoDup _ _ _ (rep_conns _ _ _ _ Hr)) as Hnd.
  apply NoDup_cons in Hnd as [_ Hnd].
  destruct (plant_rep _ _ _ _ Hr Hk) as (st1 & Hpl & Hr1 & Hdep & Ecl & Eco & Efl & Etr & Ewa).
  apply (rep_with_trace _ _ _ t) in Hr1.
  assert (knows (with_trace t st1) X s) as Hkn1.
  { unfold knows. simpl. by rewrite Eco. }
  set (W1 := <[k := depth st :: W k]> W) in *.
  assert (depth st ∈ W1 k) as Hdk.
  { unfold W1. rewrite fn_lookup_insert. by apply elem_of_cons; left. }
  exists st1. destruct (decide (X = k)) as [->|Hne].
  - (* the connection being visited disconnects itself *)
    destruct (disconnect_rep _ _ _ _ _ Hr1 Hkn1)
      as (st2 & Hdis & Hr2 & _ & _ & Hin & _ & Hloose & _ & Eco2 & Efl2 & Edep2 & Etr2 & _ & _).
    assert (k ∉ rest) as Hkr.
    { apply NoDup_app in Hnd as (_ & _ & Hnd). by apply NoDup_cons in Hnd as [? _]. }
    rewrite without_mid by done. rewrite without_notin by done.
    exists st2, (redirect W1 k rest). split_and!; try done.
    + simpl in Edep2. congruence.
    + destruct rest as [|n rest]; [right; by apply Hloose|left].
      exists n. split; [apply elem_of_app; right; by apply elem_of_cons; left|].
      simpl. rewrite fn_lookup_insert. apply elem_of_app. by left.
    + unfold advance. by rewrite (Hin _ Hdk).
    + simpl in Eco2. congruence.
    + simpl in Efl2. congruence.
  - (* another connection is disconnected *)
    destruct (list_elem_of_split _ _ HX) as (L1 & L2 & Heq).
    rewrite Heq in Hr1, Hnd.
    destruct (disconnect_rep _ _ _ _ _ Hr1 Hkn1)
      as (st2 & Hdis & Hr2 & _ & _ & _ & Hout & _ & _ & Eco2 & Efl2 & Edep2 & Etr2 & _ & _).
    rewrite <-(without_mid X L1 L2 Hnd), <-Heq in Hr2.
    assert (k ∈ without X (pre ++ k :: rest)) as Hk'.
    { apply list_elem_of_filter. done. }
    assert (depth st ∉ W1 X) as HdX.
    { intros Hd. apply Hne. apply (rep_disj _ _ _ _ Hr1 X k (depth st)); try done.
      - apply elem_of_app. right. by apply elem_of_cons; left.
      - by rewrite <-Heq. }
    exists st2, (redirect W1 X L2). split_and!; try done.
    + simpl in Edep2. congruence.
    + left. exists k. split; [done|]. unfold redirect. destruct L2 as [|n L2]; [done|].
      destruct (decide (n = k)) as [->|Hnk].
      * rewrite fn_lookup_insert. apply elem_of_app. by right.
      * by rewrite fn_lookup_insert_ne.
    + unfold advance. rewrite (Hout _ HdX). simpl. rewrite Ewa, lookup_insert_eq. simpl.
      rewrite without_app, without_cons_ne in Hr2 by done.
      apply (rep_succ _ _ _ _ _ Hr2).
    + simpl in Eco2. congruence.
    + simpl in Efl2. congruence.
Qed.

Lemma with_trace_nil st : with_trace (trace st ++ []) st = st.
Proof. destruct st. unfold with_trace. simpl. by rewrite app_nil_r. Qed.

(** [operator()] enters its loop at the front of the list. *)
Lemma emit_entry st L W fuel :
  rep st s L W → 1 ≤ fuel →
  emit (S fuel) s st = emit_loop fuel s (Some (hd s L)) st.
Proof.
  intros Hr Hfuel. rewrite emit_unfold.
  pose proof (dlist_root_nxt _ _ _ (rep_conns _ _ _ _ Hr)) as Hn.
  unfold empty, begin. rewrite (get_next_ok _ _ _ Hn). simpl.
  destruct L as [|c L]; simpl.
  - rewrite bool_decide_eq_true_2 by done.
    destruct fuel as [|fuel]; [lia|]. rewrite emit_loop_unfold.
    by rewrite bool_decide_eq_true_2.
  - rewrite bool_decide_eq_false_2; [done|]. intros [= ->].
    apply (rep_not_root _ _ _ s Hr); [|done]. by apply elem_of_cons; left.
Qed.

(** Emission over a run [R1] of connections with inert callbacks. *)
Lemma quiet_prefix R1 : ∀ pre R2 st W fuel,
  rep st s (pre ++ R1 ++ R2) W →
  (∀ c, c ∈ R1 → ∃ p id b,
      conns st !! c = Some (Conn p (Some (Slot id b))) ∧ inert (flags st) b) →
  2 ≤ fuel →
  emit_loop (length R1 + fuel) s (Some (hd s (R1 ++ R2))) st
    = emit_loop fuel s (Some (hd s R2)) (with_trace (trace st ++ (slot_id st <$> R1)) st).
Proof.
  induction R1 as [|c R1 IH]; intros pre R2 st W fuel Hr Hsl Hfuel.
  - simpl. by rewrite with_trace_nil.
  - destruct (Hsl c) as (p & id & b & Hk & Hb); [by apply elem_of_cons; left|].
    simpl. rewrite <-app_comm_cons in Hr.
    erewrite quiet_step; [|done|done|done|lia].
    rewrite (IH (pre ++ [c]) R2 _ W); [| |..|done].
    + f_equal. apply state_eq; simpl; try done.
      rewrite <-app_assoc. simpl. unfold slot_id at 2. by rewrite Hk.
    + rewrite <-app_assoc. by apply rep_with_trace.
    + intros c' Hc'. simpl. apply Hsl. by apply elem_of_cons; right.
Qed.

Lemma inert_nil F : inert F [].
Proof. intros [|fuel] st Hf _; [lia|]. apply run_ops_nil. Qed.

Lemma slot_id_conns st st' c : conns st' = conns st → slot_id st' c = slot_id st c.
Proof. unfold slot_id. by intros ->. Qed.

Lemma with_clinks_id st : with_clinks (clinks st) st = st.
Proof. by destruct st. Qed.

Lemma with_wlinks_id st : with_wlinks (wlinks st) st = st.
Proof. by destruct st. Qed.

(** A connection that is in no list, has no walkers and knows its signal:
    [disconnect] does nothing at all. *)
Lemma disconnect_unlinked st c p sl :
  clinks st !! c = Some (ListElement None None) →
  dlist (wlinks st) (WRoot c) [] →
  conns st !! c = Some (Conn (Some p) sl) →
  disconnect c st = Ok st.
Proof.
  intros Hc Hw Hk. unfold disconnect.
  rewrite (unlink_unlinked _ _ Hc). simpl. rewrite with_clinks_id.
  unfold parent_end. rewrite Hk. simpl.
  unfold begin. rewrite (get_next_ok _ _ _ (dlist_root_nxt _ _ _ Hw)). simpl.
  pose proof (dlist_size _ _ _ Hw) as Hsz. simpl in Hsz.
  destruct (size (wlinks st)) as [|n]; [lia|]. simpl.
  rewrite bool_decide_eq_true_2 by done. simpl. rewrite Hk. simpl.
  rewrite bool_decide_eq_false_2 by (intros Hne; by apply Hne).
  destruct (dlist_clear _ _ _ Hw) as (hw & Hcl & _ & _ & Hout).
  assert (hw = wlinks st) as ->.
  { apply map_eq. intros y. destruct (decide (y = WRoot c)) as [->|Hne].
    - unfold clear, empty in Hcl.
      rewrite (get_next_ok _ _ _ (dlist_root_nxt _ _ _ Hw)) in Hcl. simpl in Hcl.
      rewrite bool_decide_eq_true_2 in Hcl by done. by injection Hcl as <-.
    - apply Hout. by intros ->%list_elem_of_singleton. }
  rewrite Hcl. simpl. by rewrite with_wlinks_id.
Qed.

End rep_facts.

(** ** Connections whose callbacks call nothing *)

Lemma plain_inert st c :
  plain st c → ∃ p id b,
    conns st !! c = Some (Conn p (Some (Slot id b))) ∧ inert (flags st) b.
Proof. intros (p & id & Hk). exists p, id, []. split; [done|]. apply inert_nil. Qed.

Lemma plain_conns st st' c : conns st' = conns st → plain st c → plain st' c.
Proof. unfold plain. by intros ->. Qed.

Lemma connect_all_rep s cs : ∀ st L W,
  rep st s L W → NoDup (s :: reverse cs.*1 ++ L) →
  ∃ st' W', connect_all s cs st = Ok st'
    ∧ rep st' s (reverse cs.*1 ++ L) W'
    ∧ (∀ c, c ∈ L → conns st' !! c = conns st !! c)
    ∧ (∀ c sl, (c, sl) ∈ cs → conns st' !! c = Some (Conn (Some s) (Some sl)))
    ∧ flags st' = flags st ∧ trace st' = trace st.
Proof.
  induction cs as [|[c sl] cs IH]; intros st L W Hr Hnd; simpl in *.
  - exists st, W. split_and!; try done. by intros c sl ?%elem_of_nil.
  - rewrite reverse_cons, <-app_assoc in Hnd. simpl in Hnd.
    assert (c ∉ s :: L) as Hc.
    { apply NoDup_cons in Hnd as [Hs Hnd]. apply NoDup_app in Hnd as (_ & _ & Hnd).
      apply NoDup_cons in Hnd as [Hcl _]. intros [->|Hin]%elem_of_cons; [|done].
      apply Hs. apply elem_of_app. right. by apply elem_of_cons; left. }
    destruct (connect_rep s st L W c sl Hr Hc) as (st1 & Hco & Hr1 & Eco & _ & Efl & _ & Etr).
    rewrite Hco. simpl.
    destruct (IH st1 (c :: L) _ Hr1 Hnd) as (st' & W' & Hall & Hr' & Hold & Hnew & Efl' & Etr').
    exists st', W'. split_and!; try done; try congruence.
    + by rewrite reverse_cons, <-app_assoc.
    + intros c' Hc'. rewrite Hold by (by apply elem_of_cons; right).
      rewrite Eco, lookup_insert_ne; [done|]. intros ->. apply Hc.
      by apply elem_of_cons; right.
    + intros c' sl' [[= -> ->]|Hin]%elem_of_cons; [|by apply Hnew].
      rewrite Hold by (by apply elem_of_cons; left). by rewrite Eco, lookup_insert_eq.
Qed.

Lemma slot_id_known st c p sl :
  conns st !! c = Some (Conn p (Some sl)) → slot_id st c = sid sl.
Proof. unfold slot_id. by intros ->. Qed.

Lemma rep_new_signal s W : rep (new_signal s empty_state) s [] W.
Proof.
  split; simpl.
  - apply dlist_nil. unfold list_init. by rewrite lookup_insert_eq.
  - by intros c ?%elem_of_nil.
  - by intros c d ?%elem_of_nil.
  - by intros c c' d ?%elem_of_nil.
  - intros d _. by rewrite !lookup_empty.
Qed.

Lemma run_ops_nil' fuel st : 1 ≤ fuel → run_ops fuel [] st = Ok (Normal, st).
Proof. destruct fuel; [lia|]. intros _. apply run_ops_nil. Qed.

Lemma slot_ids_conns st' st (l : list addr) :
  conns st' = conns st → slot_id st' <$> l = slot_id st <$> l.
Proof. intros E. apply list_fmap_ext. intros i c _. by apply slot_id_conns. Qed.

Ltac norm_ids st :=
  repeat match goal with
         | |- context [slot_id ?x <$> ?l] =>
             lazymatch x with
             | st => fail
             | _ => rewrite (slot_ids_conns x st l) by (simpl; congruence)
             end
         end.

Lemma inert_once f b F : f ∈ F → inert F [OpOnce f b].
Proof.
  intros Hf [|[|fuel]] st Hfuel HF; try lia.
  rewrite run_ops_cons. rewrite bool_decide_eq_true_2 by (by apply HF).
  simpl. by rewrite ?run_ops_nil.
Qed.

Arguments slot_id : simpl never.

(** ** Connections added during an emission *)

Lemma after_app_in k A B : k ∈ A → after k (A ++ B) = after k A ++ B.
Proof.
  induction A as [|a A IH]; [by intros ?%elem_of_nil|]. simpl.
  intros [->|Hk]%elem_of_cons.
  - by rewrite !decide_True.
  - case_decide; [done|]. by apply IH.
Qed.

Lemma after_app_notin k A B : k ∉ A → after k (A ++ B) = after k B.
Proof.
  induction A as [|a A IH]; [done|]. simpl. intros Hk.
  rewrite decide_False.
  - apply IH. intros ?. apply Hk. by apply elem_of_cons; right.
  - intros ->. apply Hk. by apply elem_of_cons; left.
Qed.

Lemma after_split k l : k ∈ l → ∃ bef, l = bef ++ k :: after k l.
Proof.
  induction l as [|a l IH]; [by intros ?%elem_of_nil|]. simpl.
  destruct (decide (a = k)) as [->|Hne].
  - intros _. by exists [].
  - intros [->|Hk]%elem_of_cons; [done|].
    destruct (IH Hk) as [bef Hb]. exists (a :: bef). simpl. by rewrite <-Hb.
Qed.

Lemma after_subset k l c : c ∈ after k l → c ∈ l.
Proof.
  induction l as [|a l IH]; [done|]. simpl. case_decide.
  - intros ?. by apply elem_of_cons; right.
  - intros ?. apply elem_of_cons. right. by apply IH.
Qed.

Lemma after_mid k pre rest : k ∉ pre → after k (pre ++ k :: rest) = rest.
Proof. intros Hk. rewrite after_app_notin by done. simpl. by rewrite decide_True. Qed.

Section adding.
Context (s : addr).

(** [s.lst.insert(pos, n)] for a connection [n] that is in no list. *)
Lemma insert_rep st A B W n :
  rep st s (A ++ B) W → n ∉ s :: A ++ B →
  is_Some (clinks st !! n) → dlist (wlinks st) (WRoot n) [] →
  ∃ h, insert (Some (hd s B)) n (clinks st) = Ok h
    ∧ rep (with_clinks h st) s (A ++ n :: B) (<[n := []]> W).
Proof.
  intros Hr Hn Hal Hw.
  destruct (dlist_insert _ _ _ _ _ (rep_conns _ _ _ _ Hr) Hn Hal) as (h & Hins & Hd & _).
  exists h. split; [done|].
  assert (∀ c, c ∈ A ++ n :: B → c = n ∨ (c ≠ n ∧ c ∈ A ++ B)) as Hcase.
  { intros c Hc. destruct (decide (c = n)) as [->|Hne]; [by left|right].
    split; [done|]. apply elem_of_app in Hc as [?|[?|?]%elem_of_cons];
      apply elem_of_app; [by left|done|by right]. }
  split; simpl.
  - done.
  - intros c [->|[Hne Hc]]%Hcase.
    + by rewrite fn_lookup_insert.
    + rewrite fn_lookup_insert_ne by done. by apply (rep_walk _ _ _ _ Hr).
  - intros c d [->|[Hne Hc]]%Hcase.
    + rewrite fn_lookup_insert. by intros ?%elem_of_nil.
    + rewrite fn_lookup_insert_ne by done. by apply (rep_held _ _ _ _ Hr).
  - intros c1 c2 d [->|[Hne1 Hc1]]%Hcase [->|[Hne2 Hc2]]%Hcase;
      rewrite ?fn_lookup_insert, ?fn_lookup_insert_ne by done;
      try (by intros ?%elem_of_nil); try (by intros _ ?%elem_of_nil).
    by apply (rep_disj _ _ _ _ Hr).
  - apply Hr.
Qed.

Lemma insert_during_emission st A B k W n p idk fuel :
  rep st s (A ++ B) W → k ∈ A ++ B → n ∉ s :: A ++ B →
  clinks st !! n = Some (ListElement None None) →
  dlist (wlinks st) (WRoot n) [] →
  conns st !! k = Some (Conn p (Some (Slot idk [OpInsert s (hd s B) n]))) →
  (∀ c, c ∈ after k (A ++ n :: B) → plain st c) →
  length (A ++ B) + 5 ≤ fuel →
  ∃ st' W',
    emit_loop fuel s (Some k) st = Ok (Normal, st')
    ∧ trace st' = trace st ++ idk :: (slot_id st <$> after k (A ++ n :: B))
    ∧ rep st' s (A ++ n :: B) W'
    ∧ (n ∈ after k (A ++ n :: B) ↔ k ∈ A).
Proof.
  intros Hr Hk Hn Hcl Hw Hkc Hpl Hfuel.
  assert (k ≠ n) as Hkn.
  { intros ->. apply Hn. by apply elem_of_cons; right. }
  assert (k ∈ A ++ n :: B) as Hk'.
  { apply elem_of_app in Hk as [?|?]; apply elem_of_app; [by left|right].
    by apply elem_of_cons; right. }
  destruct (after_split k _ Hk') as [bef Hbef].
  destruct fuel as [|[|[|fuel]]]; try lia.
  destruct (plant_rep s st _ W k Hr Hk)
    as (st1 & Hpl1 & Hr1 & Hdep1 & Ecl1 & Eco1 & Efl1 & Etr1 & Ewa1).
  rewrite emit_loop_unfold, bool_decide_eq_false_2.
  2:{ unfold end_. intros [= ->]. by apply (rep_not_root s st _ W s Hr). }
  simpl. rewrite Hpl1. simpl. rewrite Eco1, Hkc. simpl.
  set (st1' := with_trace (trace st1 ++ [idk]) st1).
  assert (rep st1' s (A ++ B) (<[k := depth st :: W k]> W)) as Hr1'.
  { by apply rep_with_trace. }
  destruct (insert_rep st1' A B _ n Hr1' Hn) as (h & Hins & Hr2).
  { simpl. rewrite Ecl1, Hcl. eauto. }
  { apply dlist_nil. simpl.
    rewrite (plant_frame s st _ W k st1 (WRoot n) Hr Hk Hpl1); [by apply dlist_nil_inv| |done].
    intros [[= ?]|Hin]%elem_of_cons; [done|].
    by apply list_elem_of_fmap in Hin as (? & ? & _). }
  rewrite run_ops_cons. simpl in Hins. simpl. rewrite Hins. simpl.
  rewrite ?run_ops_nil. simpl.
  set (st2 := with_clinks h st1') in *.
  rewrite Hbef in Hr2.
  unfold advance. simpl. rewrite Ewa1, lookup_insert_eq. simpl.
  pose proof (rep_succ s st2 _ _ _ _ Hr2) as Hsucc. simpl in Hsucc.
  rewrite Hsucc. simpl.
  destruct (retire_rep s st2 _ _ (depth st) Hr2) as
    (st3 & W3 & Hret & Hr3 & Ecl3 & Eco3 & Efl3 & Etr3 & Edep3).
  { done. }
  { left. exists k. split; [rewrite <-Hbef; done|].
    rewrite fn_lookup_insert_ne by done. rewrite fn_lookup_insert.
    by apply elem_of_cons; left. }
  rewrite Hret. simpl.
  replace (bef ++ k :: after k (A ++ n :: B))
    with ((bef ++ [k]) ++ after k (A ++ n :: B)) in Hr3 by (by rewrite <-app_assoc).
  rewrite (quiet_loop s _ _ st3 W3 _ Hr3).
  - eexists _, W3. split; [done|]. simpl. split_and!.
    + rewrite Etr3. simpl. rewrite Etr1, <-app_assoc. simpl. do 2 f_equal.
      apply slot_ids_conns. rewrite Eco3. simpl. done.
    + apply rep_with_trace. rewrite <-app_assoc in Hr3. simpl in Hr3.
      by rewrite <-Hbef in Hr3.
    + pose proof (dlist_NoDup _ _ _ (rep_conns _ _ _ _ Hr)) as Hnd.
      apply NoDup_cons in Hnd as [_ Hnd]. apply NoDup_app in Hnd as (_ & Hdisj & _).
      split.
      * intros Hin. destruct (decide (k ∈ A)) as [|HkA]; [done|exfalso].
        rewrite after_app_notin in Hin by done. simpl in Hin.
        rewrite decide_False in Hin by done. apply after_subset in Hin.
        apply Hn. apply elem_of_cons. right. apply elem_of_app. by right.
      * intros HkA. rewrite after_app_in by done. apply elem_of_app. right.
        by apply elem_of_cons; left.
  - intros c Hc. apply plain_inert. apply (plain_conns st); [|by apply Hpl].
    rewrite Eco3. simpl. done.
  - assert (length (after k (A ++ n :: B)) ≤ length (A ++ n :: B)) as Hle.
    { rewrite Hbef at 2. rewrite length_app. simpl. lia. }
    rewrite length_app in Hle. simpl in Hle. rewrite length_app in Hfuel. lia.
Qed.

Lemma connect_during_emission st pre k rest W n f p idk idn fuel fuel' :
  rep st s (pre ++ k :: rest) W → n ∉ s :: pre ++ k :: rest →
  f ∉ flags st →
  conns st !! k
    = Some (Conn p (Some (Slot idk [OpOnce f [OpConnect s n idn []]]))) →
  (∀ c, c ∈ pre ++ rest → plain st c) →
  length (pre ++ k :: rest) + 6 ≤ fuel →
  length (pre ++ k :: rest) + 6 ≤ fuel' →
  ∃ st' W',
    emit_loop fuel s (Some k) st = Ok (Normal, st')
    ∧ trace st' = trace st ++ idk :: (slot_id st <$> rest)
    ∧ rep st' s (n :: pre ++ k :: rest) W'
    ∧ emit fuel' s st'
        = Ok (Normal,
              with_trace (trace st' ++ idn :: (slot_id st <$> pre ++ k :: rest)) st').
Proof.
  intros Hr Hn Hf Hkc Hpl Hfuel Hfuel'.
  assert (k ∈ pre ++ k :: rest) as Hk.
  { apply elem_of_app. right. by apply elem_of_cons; left. }
  assert (k ≠ n) as Hkn.
  { intros ->. apply Hn. by apply elem_of_cons; right. }
  rewrite length_app in Hfuel, Hfuel'. simpl in Hfuel, Hfuel'.
  destruct fuel as [|[|[|[|fuel]]]]; try lia.
  destruct (plant_rep s st _ W k Hr Hk)
    as (st1 & Hpl1 & Hr1 & Hdep1 & Ecl1 & Eco1 & Efl1 & Etr1 & Ewa1).
  rewrite emit_loop_unfold, bool_decide_eq_false_2.
  2:{ unfold end_. intros [= ->]. by apply (rep_not_root s st _ W s Hr). }
  simpl. rewrite Hpl1. simpl. rewrite Eco1, Hkc. simpl.
  rewrite run_ops_cons. simpl. rewrite Efl1.
  rewrite bool_decide_eq_false_2 by done.
  set (st1' := with_flags _ _).
  assert (rep st1' s (pre ++ k :: rest) (<[k := depth st :: W k]> W)) as Hr1'.
  { by apply rep_with_flags, rep_with_trace. }
  destruct (connect_rep s st1' _ _ n (Slot idn []) Hr1' Hn)
    as (st2 & Hco & Hr2 & Eco2 & Ewa2 & Efl2 & Edep2 & Etr2).
  rewrite run_ops_cons. rewrite Hco. simpl. rewrite ?run_ops_nil. simpl.
  unfold advance. rewrite Ewa2. simpl. rewrite Ewa1, lookup_insert_eq. simpl.
  rewrite app_comm_cons in Hr2.
  rewrite (rep_succ s st2 _ _ _ _ Hr2). simpl.
  destruct (retire_rep s st2 _ _ (depth st) Hr2) as
    (st3 & W3 & Hret & Hr3 & Ecl3 & Eco3 & Efl3 & Etr3 & Edep3).
  { rewrite Edep2. simpl. done. }
  { left. exists k. split; [by apply elem_of_cons; right|].
    rewrite fn_lookup_insert_ne by done. rewrite fn_lookup_insert.
    by apply elem_of_cons; left. }
  rewrite Hret. simpl.
  assert (conns st3 = <[n := Conn (Some s) (Some (Slot idn []))]> (conns st)) as Eco'.
  { rewrite Eco3, Eco2. unfold st1'. simpl. by rewrite Eco1. }
  assert (∀ c, c ∈ pre ++ k :: rest → conns st3 !! c = conns st !! c) as Hsame.
  { intros c Hc. rewrite Eco', lookup_insert_ne; [done|]. intros ->.
    apply Hn. by apply elem_of_cons; right. }
  assert (∀ l : list addr, (∀ c, c ∈ l → c ∈ pre ++ k :: rest) →
               slot_id st3 <$> l = slot_id st <$> l) as Hids.
  { intros l Hl. apply list_fmap_ext. intros i c Hi. unfold slot_id.
    rewrite Hsame; [done|]. apply Hl. by eapply list_elem_of_lookup_2. }
  assert (∀ c, c ∈ pre ++ rest → ∃ p id b,
             conns st3 !! c = Some (Conn p (Some (Slot id b))) ∧ inert (flags st3) b)
    as Hin3.
  { intros c Hc. destruct (Hpl c Hc) as (pc & idc & Hc').
    exists pc, idc, []. split; [|apply inert_nil]. rewrite Hsame; [done|].
    apply elem_of_app in Hc as [?|?]; apply elem_of_app; [by left|right].
    by apply elem_of_cons; right. }
  replace ((n :: pre) ++ k :: rest) with (((n :: pre) ++ [k]) ++ rest) in Hr3
    by (by rewrite <-app_assoc).
  rewrite (quiet_loop s rest _ st3 W3 _ Hr3).
  - eexists _, W3. split; [done|]. simpl. split_and!.
    + rewrite Etr3, Etr2. unfold st1'. simpl. rewrite Etr1, <-app_assoc. simpl.
      do 2 f_equal. apply Hids. intros c Hc. apply elem_of_app. right.
      by apply elem_of_cons; right.
    + apply rep_with_trace. rewrite <-app_assoc in Hr3. done.
    + set (st4 := with_trace _ st3).
      assert (rep st4 s (n :: pre ++ k :: rest) W3) as Hr4.
      { apply rep_with_trace. rewrite <-app_assoc in Hr3. done. }
      rewrite (quiet_emit s st4 _ W3 _ Hr4).
      * do 2 f_equal. unfold st4. apply state_eq; simpl; try done.
        f_equal. f_equal.
        -- unfold slot_id. simpl. by rewrite Eco', lookup_insert_eq.
        -- rewrite (slot_ids_conns _ st3) by done. by apply Hids.
      * intros c. unfold st4. simpl.
        intros [->|[Hc|[->|Hc]%elem_of_cons]%elem_of_app]%elem_of_cons.
        -- exists (Some s), idn, []. split; [|apply inert_nil].
           by rewrite Eco', lookup_insert_eq.
        -- apply Hin3. apply elem_of_app. by left.
        -- exists p, idk, [OpOnce f [OpConnect s n idn []]]. split.
           ++ by rewrite Hsame.
           ++ apply inert_once. rewrite Efl3, Efl2. unfold st1'. simpl.
              apply elem_of_union. left. by apply elem_of_singleton.
        -- apply Hin3. apply elem_of_app. by right.
      * simpl. rewrite length_app. simpl. lia.
  - intros c Hc. apply Hin3. apply elem_of_app. by right.
  - lia.
Qed.

End adding.

(** ** Moving a connection *)

Section moving.
Context (s : addr).

(** The range-for of [movelinks2empty] retargets exactly the walkers of
    the list and keeps their [deleted] flags. *)
Lemma retarget_walkers_spec c ds2 : ∀ ds1 st fuel,
  dlist (wlinks st) (WRoot c) (WNode <$> (ds1 ++ ds2)) →
  (∀ d, d ∈ ds2 → is_Some (walkers st !! d)) →
  length ds2 < fuel →
  ∃ m, retarget_walkers fuel c (Some (hd (WRoot c) (WNode <$> ds2))) st
         = Ok (with_walkers m st)
    ∧ (∀ d, d ∈ ds2 → ∃ w, walkers st !! d = Some w
                        ∧ m !! d = Some (IterationData (Some c) (deleted w)))
    ∧ (∀ d, d ∉ ds2 → m !! d = walkers st !! d).
Proof.
  induction ds2 as [|d ds2 IH]; intros ds1 st fuel Hd Hal Hfuel;
    (destruct fuel as [|fuel]; [simpl in Hfuel; lia|]); simpl.
  - rewrite bool_decide_eq_true_2 by done. exists (walkers st).
    rewrite with_walkers_id. split; [done|]. split; [|done].
    by intros d ?%elem_of_nil.
  - destruct (Hal d) as [w Hw]; [by apply elem_of_cons; left|].
    rewrite Hw. simpl.
    assert (nxt (wlinks st) (WNode d) = Some (Some (hd (WRoot c) (WNode <$> ds2)))) as Hn.
    { rewrite fmap_app, fmap_cons in Hd. by apply dlist_nxt in Hd. }
    rewrite (get_next_ok _ _ _ Hn). simpl.
    assert (d ∉ ds2) as Hnd.
    { pose proof (dlist_NoDup _ _ _ Hd) as Hnd. apply NoDup_cons in Hnd as [_ Hnd].
      apply NoDup_fmap_1 in Hnd. apply NoDup_app in Hnd as (_ & _ & Hnd).
      by apply NoDup_cons in Hnd as [? _]. }
    destruct (IH (ds1 ++ [d])
                (with_walkers (<[d := IterationData (Some c) (deleted w)]> (walkers st)) st)
                fuel) as (m & Hm & Hin & Hout).
    + simpl. by rewrite <-app_assoc.
    + intros d' Hd'. simpl. rewrite lookup_insert. case_decide; [by eauto|].
      apply Hal. by apply elem_of_cons; right.
    + simpl in Hfuel. lia.
    + exists m. split; [by rewrite Hm|]. split.
      * intros d' [->|Hd']%elem_of_cons.
        -- exists w. split; [done|]. rewrite Hout by done. simpl.
           by rewrite lookup_insert_eq.
        -- destruct (Hin d' Hd') as (w' & Hw' & Hm'). simpl in Hw'.
           rewrite lookup_insert_ne in Hw' by (intros ->; done). eauto.
      * intros d' Hd'. rewrite Hout.
        -- simpl. rewrite lookup_insert_ne; [done|]. intros ->. apply Hd'.
           by apply elem_of_cons; left.
        -- intros ?. apply Hd'. by apply elem_of_cons; right.
Qed.

(** [movelinks2empty] into a connection that is in no list and has no
    walkers: [this] takes the place of [r], with [r]'s walkers. *)
Lemma movelinks_rep st L1 r L2 W this :
  rep st s (L1 ++ r :: L2) W → this ∉ s :: L1 ++ r :: L2 →
  clinks st !! this = Some (ListElement None None) →
  dlist (wlinks st) (WRoot this) [] →
  ∃ st', movelinks2empty this r st = Ok st'
    ∧ rep st' s (L1 ++ this :: L2) (<[this := W r]> W)
    ∧ clinks st' !! r = Some (ListElement None None)
    ∧ dlist (wlinks st') (WRoot r) []
    ∧ conns st' = conns st ∧ flags st' = flags st
    ∧ depth st' = depth st ∧ trace st' = trace st.
Proof.
  intros Hr Hthis Hcl Hwt.
  assert (r ∈ L1 ++ r :: L2) as Hrin.
  { apply elem_of_app. right. by apply elem_of_cons; left. }
  assert (this ≠ r) as Hne.
  { intros ->. apply Hthis. by apply elem_of_cons; right. }
  assert (∀ c, c ∈ L1 ++ this :: L2 → c = this ∨ (c ≠ this ∧ c ≠ r ∧ c ∈ L1 ++ r :: L2))
    as Hcase.
  { pose proof (dlist_NoDup _ _ _ (rep_conns _ _ _ _ Hr)) as Hnd.
    apply NoDup_cons in Hnd as [_ Hnd].
    intros c Hc. destruct (decide (c = this)) as [->|Hct]; [by left|right].
    split; [done|]. split.
    - intros ->. apply elem_of_app in Hc as [Hc|[?|Hc]%elem_of_cons]; [|done|].
      + apply NoDup_app in Hnd as (_ & Hnd & _). apply (Hnd r Hc).
        by apply elem_of_cons; left.
      + apply NoDup_app in Hnd as (_ & _ & Hnd). by apply NoDup_cons in Hnd as [? _].
    - apply elem_of_app in Hc as [?|[?|?]%elem_of_cons]; apply elem_of_app;
        [by left|done|right; by apply elem_of_cons; right]. }
  destruct (dlist_move _ _ _ _ _ this (rep_conns _ _ _ _ Hr) Hthis Hcl)
    as (hc & Hmv & Hdc & Hrc & _).
  pose proof (rep_walk _ _ _ _ Hr r Hrin) as Hwr.
  destruct (dlist_clear _ _ _ Hwt) as (hw0 & Hcl0 & _ & _ & Hout0).
  assert (hw0 = wlinks st) as ->.
  { apply map_eq. intros y. destruct (decide (y = WRoot this)) as [->|Hy].
    - unfold clear, empty in Hcl0.
      rewrite (get_next_ok _ _ _ (dlist_root_nxt _ _ _ Hwt)) in Hcl0. simpl in Hcl0.
      rewrite bool_decide_eq_true_2 in Hcl0 by done. by injection Hcl0 as <-.
    - apply Hout0. by intros ->%list_elem_of_singleton. }
  destruct (dlist_splice _ _ _ _ _ Hwr Hwt) as (hw & Hsp & Hnil & Hcat & Hout).
  { intros y Hy Hy'. apply list_elem_of_singleton in Hy' as ->.
    apply elem_of_cons in Hy as [[= ?]|Hy]; [done|].
    by apply list_elem_of_fmap in Hy as (? & ? & _). }
  rewrite app_nil_r in Hcat. simpl in Hsp.
  destruct (retarget_walkers_spec this (W r) []
              (with_wlinks hw (with_clinks hc st)) (size hw))
    as (m & Hm & Hmin & Hmout).
  { done. }
  { intros d Hd. simpl. by apply (rep_walkers_alloc s st _ W r d Hr Hrin). }
  { pose proof (dlist_size _ _ _ Hcat) as Hsz. by rewrite length_fmap in Hsz. }
  simpl in Hmin, Hmout.
  eexists. split.
  { unfold movelinks2empty. rewrite Hmv. simpl.
    unfold list_move_assign. rewrite Hcl0. simpl.
    unfold begin. rewrite (get_next_ok _ _ _ (dlist_root_nxt _ _ _ Hwr)). simpl.
    unfold end_. rewrite Hsp. simpl.
    rewrite (get_next_ok _ _ _ (dlist_root_nxt _ _ _ Hcat)). simpl.
    rewrite Hm. done. }
  split; [|done]. split; simpl.
  - done.
  - intros c [->|(Hct & Hcr & Hc)]%Hcase.
    + by rewrite fn_lookup_insert.
    + rewrite fn_lookup_insert_ne by done.
      eapply dlist_frame; [|by apply (rep_walk _ _ _ _ Hr)].
      intros y Hy. apply Hout.
      * by apply (nodes_disj s st _ W c r y Hr).
      * intros ->%list_elem_of_singleton.
        apply elem_of_cons in Hy as [[= ?]|Hy]; [done|].
        by apply list_elem_of_fmap in Hy as (? & ? & _).
  - intros c d [->|(Hct & Hcr & Hc)]%Hcase.
    + rewrite fn_lookup_insert. intros Hd.
      destruct (Hmin d Hd) as (w & _ & ->). eauto.
    + rewrite fn_lookup_insert_ne by done. intros Hd.
      rewrite Hmout; [by apply (rep_held _ _ _ _ Hr)|].
      intros Hd'. apply Hcr. by apply (rep_disj _ _ _ _ Hr c r d).
  - intros c1 c2 d [->|(Hct1 & Hcr1 & Hc1)]%Hcase [->|(Hct2 & Hcr2 & Hc2)]%Hcase;
      rewrite ?fn_lookup_insert, ?fn_lookup_insert_ne by done; try done.
    + intros H1 H2. destruct Hcr2. by apply (rep_disj _ _ _ _ Hr c2 r d).
    + intros H1 H2. destruct Hcr1. by apply (rep_disj _ _ _ _ Hr c1 r d).
    + by apply (rep_disj _ _ _ _ Hr).
  - intros d Hd. destruct (rep_free _ _ _ _ Hr d Hd) as [H1 H2]. split.
    + rewrite Hout; [done| |].
      * intros Hy. destruct (dlist_alloc _ _ _ _ Hwr Hy). congruence.
      * by intros ?%list_elem_of_singleton.
    + rewrite Hmout; [done|]. intros Hy.
      destruct (rep_walkers_alloc s st _ W r d Hr Hrin Hy). congruence.
Qed.

Lemma rep_with_conns st L W m : rep st s L W → rep (with_conns m st) s L W.
Proof. intros []. by split. Qed.

(** A connection constructed in fresh storage leaves the signal alone. *)
Lemma rep_new_connection st L W this p sl :
  rep st s L W → this ∉ s :: L →
  rep (new_connection this p sl st) s L W
  ∧ clinks (new_connection this p sl st) !! this = Some (ListElement None None)
  ∧ dlist (wlinks (new_connection this p sl st)) (WRoot this) [].
Proof.
  intros Hr Hthis. split; [|split]; simpl.
  - split; simpl.
    + eapply dlist_frame; [|by apply Hr]. intros y Hy.
      rewrite lookup_insert_ne; [done|]. by intros <-.
    + intros c Hc. eapply dlist_frame; [|by apply (rep_walk _ _ _ _ Hr)].
      intros y Hy. unfold list_init. rewrite lookup_insert_ne; [done|]. intros <-.
      apply elem_of_cons in Hy as [[= ->]|Hy].
      * apply Hthis. by apply elem_of_cons; right.
      * by apply list_elem_of_fmap in Hy as (? & ? & _).
    + apply Hr.
    + apply Hr.
    + intros d Hd. destruct (rep_free _ _ _ _ Hr d Hd) as [H1 H2].
      split; [|done]. unfold list_init. by rewrite lookup_insert_ne.
  - by rewrite lookup_insert_eq.
  - apply dlist_nil. unfold list_init. by rewrite lookup_insert_eq.
Qed.

Lemma relocate st0 st L1 r L2 W this pr idr fuel m :
  rep st0 s (L1 ++ r :: L2) W → this ∉ s :: L1 ++ r :: L2 →
  clinks st0 !! this = Some (ListElement None None) →
  dlist (wlinks st0) (WRoot this) [] →
  flags st0 = flags st → trace st0 = trace st →
  conns st !! r = Some (Conn pr (Some (Slot idr []))) →
  (∀ c, c ∈ L1 ++ L2 → plain st c) →
  m !! this = Some (Conn None (Some (Slot idr []))) →
  m !! r = Some (Conn pr None) →
  (∀ c, c ≠ this → c ≠ r → m !! c = conns st !! c) →
  length (L1 ++ r :: L2) + 4 ≤ fuel →
  ∃ st', movelinks2empty this r st0 = Ok st'
    ∧ relocated s st L1 r L2 W this pr (Slot idr []) fuel (with_conns m st').
Proof.
  intros Hr Hthis Hcl Hw Efl Etr Hkr Hpl Hmt Hmr Hmo Hfuel.
  destruct (movelinks_rep st0 L1 r L2 W this Hr Hthis Hcl Hw)
    as (st' & Hmv & Hr' & Hrc & Hwr & Eco' & Efl' & Edep' & Etr').
  exists st'. split; [done|].
  apply (rep_with_conns _ _ _ m) in Hr'.
  assert (this ∈ L1 ++ this :: L2) as Htin.
  { apply elem_of_app. right. by apply elem_of_cons; left. }
  pose proof (dlist_NoDup _ _ _ (rep_conns _ _ _ _ Hr)) as Hnd.
  apply NoDup_cons in Hnd as [_ Hnd].
  assert (∀ c, c ∈ L1 ++ L2 → c ≠ this ∧ c ≠ r) as Hother.
  { intros c Hc. split; intros ->.
    - apply Hthis. apply elem_of_cons. right.
      apply elem_of_app in Hc as [?|?]; apply elem_of_app; [by left|right].
      by apply elem_of_cons; right.
    - by apply (NoDup_mid1 L1 L2 r r Hnd Hc). }
  unfold relocated. split_and!; try done.
  - intros d Hd. destruct (rep_held _ _ _ _ Hr' this d Htin) as [b Hb].
    { by rewrite fn_lookup_insert. }
    eauto.
  - rewrite (quiet_emit s _ _ _ fuel Hr').
    + do 2 f_equal. apply state_eq; simpl; try done.
      rewrite Etr', Etr. f_equal. rewrite !fmap_app, !fmap_cons.
      assert (∀ l : list addr, (∀ c, c ∈ l → c ∈ L1 ++ L2) →
                slot_id (with_conns m st') <$> l = slot_id st <$> l) as Hids.
      { intros l Hl. apply list_fmap_ext. intros i c Hi. unfold slot_id. simpl.
        destruct (Hother c) as [? ?]; [apply Hl; by eapply list_elem_of_lookup_2|].
        by rewrite Hmo. }
      rewrite !Hids.
      * do 2 f_equal. unfold slot_id. simpl. by rewrite Hmt, Hkr.
      * intros c ?. apply elem_of_app. by right.
      * intros c ?. apply elem_of_app. by left.
    + intros c Hc. simpl. destruct (decide (c = this)) as [->|Hct].
      * exists None, idr, []. split; [done|apply inert_nil].
      * assert (c ∈ L1 ++ L2) as Hc'.
        { apply elem_of_app in Hc as [?|[?|?]%elem_of_cons]; apply elem_of_app;
            [by left|done|by right]. }
        destruct (Hother c Hc') as [_ ?]. destruct (Hpl c Hc') as (pc & idc & Hkc).
        exists pc, idc, []. split; [by rewrite Hmo|apply inert_nil].
    + rewrite length_app in *. simpl in *. lia.
Qed.

End moving.

(** ** Destroying connections and signals *)

Section closed_facts.
Context {K : Type} `{Countable K}.
Implicit Types (h : gmap K (list_element K)) (a b x y r : K) (xs L : list K).

Lemma dlist_closed h r L y e :
  dlist h r L → y ∈ r :: L → h !! y = Some e →
  ptr_ok h (next e) ∧ ptr_ok h (prev e).
Proof.
  intros Hd Hy He.
  assert (∃ n p, nxt h y = Some (Some n) ∧ prv h y = Some (Some p)
                 ∧ n ∈ r :: L ∧ p ∈ r :: L) as (n & p & Hn & Hp & Hnr & Hpr).
  { apply elem_of_cons in Hy as [->|Hy].
    - exists (hd r L), (last_or L r). split_and!.
      + by apply dlist_root_nxt.
      + by apply dlist_root_prv.
      + pose proof (hd_elem L r) as Hl.
        apply elem_of_app in Hl as [Hl|Hl%list_elem_of_singleton]; apply elem_of_cons;
          [by right|by left].
      + apply last_or_elem.
    - apply list_elem_of_split in Hy as (L1 & L2 & ->).
      exists (hd r L2), (last_or L1 r). split_and!.
      + by eapply dlist_nxt.
      + by eapply dlist_prv.
      + pose proof (hd_elem L2 r) as Hl. apply elem_of_cons.
        apply elem_of_app in Hl as [Hl|Hl%list_elem_of_singleton]; [right|by left].
        apply elem_of_app. right. by apply elem_of_cons; right.
      + pose proof (last_or_elem L1 r) as Hl. apply elem_of_cons.
        apply elem_of_cons in Hl as [Hl|Hl]; [by left|right].
        apply elem_of_app. by left. }
  unfold nxt, prv in Hn, Hp. rewrite He in Hn, Hp. simpl in Hn, Hp.
  injection Hn as ->. injection Hp as ->. simpl.
  split; by eapply dlist_alloc.
Qed.

Lemma clear_empty h r : dlist h r [] → clear r h = Ok h.
Proof.
  intros Hd. unfold clear, empty.
  rewrite (get_next_ok _ _ _ (dlist_root_nxt _ _ _ Hd)). simpl.
  by rewrite bool_decide_eq_true_2.
Qed.

End closed_facts.

Section destroying.
Context (s : addr).
Implicit Types (st : state) (L : list addr) (W : addr → list nat) (c d : nat).

Lemma wlinks_closed st L W :
  rep st s L W → tidy st s L W →
  map_Forall (λ _ e, ptr_ok (wlinks st) (next e) ∧ ptr_ok (wlinks st) (prev e))
    (wlinks st).
Proof.
  intros Hr (_ & Ht & _) k e He.
  destruct (Ht k e He) as [Hex|[->| ->]].
  - apply Exists_exists in Hex as (c & Hc & Hk).
    by apply (dlist_closed _ _ _ k e (rep_walk _ _ _ _ Hr c Hc)).
  - done.
  - simpl. by rewrite He.
Qed.

Lemma tidy_closed st L W : rep st s L W → tidy st s L W → links_closed st.
Proof.
  intros Hr Ht. split_and!.
  - intros a e He. destruct Ht as (Ht & _ & _).
    destruct (Ht a e He) as [Ha|[->| ->]]; [|done|by simpl; rewrite He].
    by apply (dlist_closed _ _ _ a e (rep_conns _ _ _ _ Hr)).
  - by eapply wlinks_closed.
  - intros d w Hw. destruct Ht as (_ & _ & Ht).
    pose proof (Ht d w Hw) as Hex. apply Exists_exists in Hex as (c & Hc & Hd).
    destruct (rep_held _ _ _ _ Hr c d Hc Hd) as [b Hb].
    rewrite Hw in Hb. injection Hb as ->. simpl.
    apply (dlist_alloc _ _ _ _ (rep_conns _ _ _ _ Hr)). by apply elem_of_cons; right.
Qed.

(** What the destructor of a connection does after [disconnect]. *)
Lemma destroy_connection_after st c st1 :
  disconnect c st = Ok st1 →
  clinks st1 !! c = Some (ListElement None None) →
  dlist (wlinks st1) (WRoot c) [] →
  destroy_connection c st
  = Ok (State (delete c (clinks st1)) (delete (WRoot c) (wlinks st1))
          (delete c (conns st1)) (walkers st1) (flags st1) (depth st1) (trace st1)).
Proof.
  intros Hdis Hc Hw. unfold destroy_connection. rewrite Hdis. simpl.
  rewrite (clear_empty _ _ Hw). simpl.
  rewrite (unlink_self _ _ (dlist_nil_inv _ _ Hw)). simpl.
  rewrite (unlink_unlinked _ _ Hc). simpl.
  by rewrite delete_insert_eq.
Qed.

Lemma destroy_connection_rep st L1 c L2 W :
  rep st s (L1 ++ c :: L2) W → knows st c s →
  ∃ st', destroy_connection c st = Ok st'
    ∧ rep st' s (L1 ++ L2) (redirect W c L2)
    ∧ clinks st' !! c = None ∧ wlinks st' !! WRoot c = None
    ∧ conns st' = delete c (conns st)
    ∧ (∀ d, d ∈ W c → walkers st' !! d = Some (IterationData (Some (hd s L2)) true))
    ∧ (∀ d, d ∉ W c → walkers st' !! d = walkers st !! d)
    ∧ (L2 = [] → ∀ d, d ∈ W c → wlinks st' !! WNode d = Some (ListElement None None))
    ∧ (∀ y, y ∉ nodes W c → y ∉ nodes W (hd s L2) → wlinks st' !! y = wlinks st !! y)
    ∧ (L2 = [] → ∀ y, y ∉ nodes W c → wlinks st' !! y = wlinks st !! y)
    ∧ (∀ y, y ∉ s :: L1 ++ c :: L2 → clinks st' !! y = clinks st !! y).
Proof.
  intros Hr Hkn.
  pose proof (dlist_NoDup _ _ _ (rep_conns _ _ _ _ Hr)) as Hnd.
  assert (∀ a, a ∈ s :: L1 ++ L2 → a ≠ c) as Hne.
  { intros a Ha ->. apply NoDup_cons in Hnd as [Hs Hnd].
    apply elem_of_cons in Ha as [->|Ha].
    - apply Hs. apply elem_of_app. right. by apply elem_of_cons; left.
    - by apply (NoDup_mid1 _ _ _ _ Hnd Ha). }
  destruct (disconnect_rep s st L1 c L2 W Hr Hkn)
    as (st1 & Hdis & Hr1 & Hc1 & Hw1 & Hin & Hout & Hlast & Hfr & Eco & Efl & Edep & Etr
        & Hcfr & Hfr').
  rewrite (destroy_connection_after st c st1 Hdis Hc1 Hw1). eexists. split; [done|].
  assert (∀ c' y, y ∈ nodes (redirect W c L2) c' → c' ∈ L1 ++ L2 → y ≠ WRoot c) as Hrc.
  { intros c' y Hy Hc' ->. apply elem_of_cons in Hy as [[= ->]|Hy].
    - apply (Hne c'); [by apply elem_of_cons; right|done].
    - apply list_elem_of_fmap in Hy as (d & [=] & _). }
  split_and!; simpl.
  - split; simpl.
    + eapply dlist_frame; [|apply (rep_conns _ _ _ _ Hr1)].
      intros y Hy. apply lookup_delete_ne. apply not_eq_sym. by apply Hne.
    + intros c' Hc'. eapply dlist_frame; [|by apply (rep_walk _ _ _ _ Hr1)].
      intros y Hy. apply lookup_delete_ne. apply not_eq_sym. by apply (Hrc c').
    + apply (rep_held _ _ _ _ Hr1).
    + apply (rep_disj _ _ _ _ Hr1).
    + intros d Hd. destruct (rep_free _ _ _ _ Hr1 d Hd) as [H1 H2].
      split; [|done]. by rewrite lookup_delete_ne.
  - apply lookup_delete_eq.
  - apply lookup_delete_eq.
  - by rewrite Eco.
  - done.
  - done.
  - intros HL d Hd. rewrite lookup_delete_ne by done. by apply Hlast.
  - intros y Hy Hy'. rewrite lookup_delete_ne; [by apply Hfr|].
    intros <-. apply Hy. apply root_nodes.
  - intros HL y Hy. rewrite lookup_delete_ne; [by apply Hfr'|].
    intros <-. apply Hy. apply root_nodes.
  - intros y Hy. rewrite lookup_delete_ne; [by apply Hcfr|].
    intros <-. apply Hy. apply elem_of_cons. right. apply elem_of_app. right.
    by apply elem_of_cons; left.
Qed.

Lemma redirect_keeps W x L2 c d : d ∈ W c → d ∈ redirect W x L2 c.
Proof.
  intros Hd. destruct L2 as [|n L2]; simpl; [done|].
  destruct (decide (n = c)) as [->|Hne].
  - rewrite fn_lookup_insert. apply elem_of_app. by right.
  - by rewrite fn_lookup_insert_ne.
Qed.

Lemma redirect_moves W x n L2 d : d ∈ W x → d ∈ redirect W x (n :: L2) n.
Proof. intros Hd. simpl. rewrite fn_lookup_insert. apply elem_of_app. by left. Qed.

Lemma nodes_mono W W' c y :
  (∀ d, d ∈ W c → d ∈ W' c) → y ∈ nodes W c → y ∈ nodes W' c.
Proof.
  intros HW [->|Hy]%elem_of_cons; [apply root_nodes|].
  apply list_elem_of_fmap in Hy as (d & -> & Hd). apply elem_nodes. by apply HW.
Qed.

Lemma destroy_connection_closed st L1 c L2 W :
  rep st s (L1 ++ c :: L2) W → tidy st s (L1 ++ c :: L2) W → knows st c s →
  ∃ st', destroy_connection c st = Ok st'
    ∧ rep st' s (L1 ++ L2) (redirect W c L2)
    ∧ links_closed st'
    ∧ clinks st' !! c = None ∧ wlinks st' !! WRoot c = None ∧ conns st' !! c = None.
Proof.
  intros Hr (Ht1 & Ht2 & Ht3) Hkn.
  pose proof (dlist_NoDup _ _ _ (rep_conns _ _ _ _ Hr)) as Hnd.
  destruct (destroy_connection_rep st L1 c L2 W Hr Hkn)
    as (st' & Hde & Hr' & Hc' & Hw' & Eco & Hin & Hout & Hlast & Hfr & Hfr' & Hcfr).
  assert (∀ a, a ∈ s :: L1 ++ c :: L2 → a ≠ c → a ∈ s :: L1 ++ L2) as Hsub.
  { intros a Ha Hac. apply elem_of_cons in Ha as [->|Ha]; apply elem_of_cons; [by left|right].
    apply elem_of_app in Ha as [Ha|Ha]; apply elem_of_app; [by left|right].
    by apply elem_of_cons in Ha as [->|Ha]. }
  exists st'. split_and!; try done; [|by rewrite Eco, lookup_delete_eq].
  split_and!.
  - intros a e He.
    destruct (decide (a ∈ s :: L1 ++ L2)) as [Ha|Ha].
    { by apply (dlist_closed _ _ _ a e (rep_conns _ _ _ _ Hr')). }
    assert (a ≠ c) as Hac by (intros ->; congruence).
    assert (a ∉ s :: L1 ++ c :: L2) as Ha' by (intros ?; apply Ha; by apply Hsub).
    pose proof He as He'. rewrite (Hcfr a Ha') in He.
    destruct (Ht1 a e He) as [?|[->| ->]]; [done|done|]. simpl. by rewrite He'.
  - intros k e He.
    destruct (decide (Exists (λ c', k ∈ nodes (redirect W c L2) c') (L1 ++ L2)))
      as [Hex|Hex].
    { apply Exists_exists in Hex as (c' & Hc'' & Hk).
      by apply (dlist_closed _ _ _ k e (rep_walk _ _ _ _ Hr' c' Hc'')). }
    assert (∀ c', c' ∈ L1 ++ L2 → k ∉ nodes (redirect W c L2) c') as Hno.
    { intros c' Hc'' Hk. apply Hex. apply Exists_exists. eauto. }
    assert (k ≠ WRoot c) as Hkc by (intros ->; congruence).
    assert (wlinks st !! k = Some e ∧ k ∉ nodes W c
            ∨ e = ListElement None None) as Hcase.
    { destruct (decide (k ∈ nodes W c)) as [Hk|Hk].
      - apply elem_of_cons in Hk as [->|Hk]; [done|].
        apply list_elem_of_fmap in Hk as (d & -> & Hd).
        destruct L2 as [|n L2].
        + right. rewrite (Hlast eq_refl d Hd) in He. by injection He as <-.
        + exfalso. apply (Hno n).
          * apply elem_of_app. right. by apply elem_of_cons; left.
          * apply elem_nodes. by apply redirect_moves.
      - left. split; [|done]. destruct L2 as [|n L2].
        + by rewrite <-(Hfr' eq_refl k Hk).
        + rewrite <-Hfr; [done|done|]. simpl. intros Hkn'. apply (Hno n).
          * apply elem_of_app. right. by apply elem_of_cons; left.
          * eapply nodes_mono; [|done]. intros d. apply redirect_keeps. }
    destruct Hcase as [[He' Hkn']| ->]; [|done].
    destruct (Ht2 k e He') as [Hex'|[->| ->]]; [|done|].
    + exfalso. apply Exists_exists in Hex' as (c0 & Hc0 & Hk0).
      destruct (decide (c0 = c)) as [->|Hne]; [done|].
      apply (Hno c0).
      * assert (c0 ∈ s :: L1 ++ L2) as Hc0'.
        { apply Hsub; [by apply elem_of_cons; right|done]. }
        apply elem_of_cons in Hc0' as [->|?]; [|done].
        by destruct (rep_not_root s _ _ _ _ Hr Hc0).
      * eapply nodes_mono; [|done]. intros d. apply redirect_keeps.
    + simpl. by rewrite He.
  - intros d w Hw. destruct (decide (d ∈ W c)) as [Hd|Hd].
    + rewrite (Hin d Hd) in Hw. injection Hw as <-. simpl.
      apply (dlist_alloc _ _ _ _ (rep_conns _ _ _ _ Hr')).
      pose proof (hd_elem L2 s) as Hl. apply elem_of_cons.
      apply elem_of_app in Hl as [Hl|Hl%list_elem_of_singleton]; [right|by left].
      apply elem_of_app. by right.
    + rewrite (Hout d Hd) in Hw. pose proof (Ht3 d w Hw) as Hex.
      apply Exists_exists in Hex as (c0 & Hc0 & Hd0).
      destruct (rep_held _ _ _ _ Hr c0 d Hc0 Hd0) as [b Hb].
      rewrite Hw in Hb. injection Hb as ->. simpl.
      assert (c0 ≠ c) as Hne by (intros ->; done).
      apply (dlist_alloc _ _ _ _ (rep_conns _ _ _ _ Hr')).
      apply Hsub; [by apply elem_of_cons; right|done].
Qed.

Lemma orphans_nodes_disj st L W c c' y :
  orphans st s L W → c ∈ L → c' ∈ L → c ≠ c' → y ∈ nodes W c → y ∉ nodes W c'.
Proof.
  intros Ho Hc Hc' Hne Hy Hy'.
  apply elem_of_cons in Hy as [->|Hy].
  - apply elem_of_cons in Hy' as [[=]|Hy']; [done|].
    apply list_elem_of_fmap in Hy' as (d & [=] & _).
  - apply list_elem_of_fmap in Hy as (d & -> & Hd).
    apply elem_of_cons in Hy' as [[=]|Hy'].
    apply list_elem_of_fmap in Hy' as (d' & [= <-] & Hd').
    apply Hne. by apply (orph_disj _ _ _ _ Ho c c' d).
Qed.

(** [disconnect] on a connection whose signal is gone: the parked walkers
    are sent to the end position and dropped from the list. *)
Lemma disconnect_orphan st L W c :
  orphans st s L W → c ∈ L →
  ∃ st', disconnect c st = Ok st'
    ∧ orphans st' s L (<[c := []]> W)
    ∧ clinks st' = clinks st ∧ conns st' = conns st
    ∧ (∀ y, y ∉ nodes W c → wlinks st' !! y = wlinks st !! y)
    ∧ (∀ d, d ∈ W c → walkers st' !! d = Some (IterationData (Some s) true))
    ∧ (∀ d, d ∉ W c → walkers st' !! d = walkers st !! d).
Proof.
  intros Ho Hc.
  pose proof (orph_links _ _ _ _ Ho c Hc) as Hl.
  destruct (orph_knows _ _ _ _ Ho c Hc) as [sl Hk].
  pose proof (orph_walk _ _ _ _ Ho c Hc) as Hw.
  destruct (mark_walkers_spec c (Some s) (W c) [] st (size (wlinks st)))
    as (m & Hm & Hmin & Hmout).
  { done. } { intros d Hd. by apply (orph_alloc _ _ _ _ Ho c). }
  { pose proof (dlist_size _ _ _ Hw) as Hsz. by rewrite length_fmap in Hsz. }
  unfold disconnect. rewrite (unlink_unlinked _ _ Hl). simpl.
  rewrite with_clinks_id. unfold parent_end. rewrite Hk. simpl.
  unfold begin. rewrite (get_next_ok _ _ _ (dlist_root_nxt _ _ _ Hw)). simpl.
  rewrite Hm. simpl. rewrite Hk. simpl.
  rewrite bool_decide_eq_false_2 by (intros Hne; by apply Hne).
  destruct (dlist_clear _ _ _ Hw) as (hw & Hcl & Hnil & Hin & Hout).
  rewrite Hcl. simpl. eexists. split; [done|]. split_and!; simpl; try done.
  split; simpl.
  - apply (orph_links _ _ _ _ Ho).
  - apply (orph_knows _ _ _ _ Ho).
  - intros c' Hc'. destruct (decide (c = c')) as [<-|Hne].
    + by rewrite fn_lookup_insert.
    + rewrite fn_lookup_insert_ne by done.
      eapply dlist_frame; [|by apply (orph_walk _ _ _ _ Ho)].
      intros y Hy. apply Hout. by apply (orphans_nodes_disj st L W c' c).
  - intros c' d Hc'. destruct (decide (c = c')) as [<-|Hne].
    + rewrite fn_lookup_insert. by intros ?%elem_of_nil.
    + rewrite fn_lookup_insert_ne by done. intros Hd.
      rewrite Hmout; [by apply (orph_alloc _ _ _ _ Ho c')|].
      intros Hd'. apply Hne. by apply (orph_disj _ _ _ _ Ho c c' d).
  - intros c1 c2 d Hc1 Hc2.
    destruct (decide (c = c1)) as [<-|Hne1]; destruct (decide (c = c2)) as [<-|Hne2];
      rewrite ?fn_lookup_insert, ?fn_lookup_insert_ne by done; try done.
    + by intros ?%elem_of_nil.
    + by intros _ ?%elem_of_nil.
    + by apply (orph_disj _ _ _ _ Ho).
Qed.

(** The destructor of a connection whose signal is gone. *)
Lemma destroy_orphan st L W c :
  orphans st s L W → c ∈ L →
  ∃ st', destroy_connection c st = Ok st'
    ∧ orphans st' s (without c L) W
    ∧ clinks st' !! c = None ∧ wlinks st' !! WRoot c = None ∧ conns st' !! c = None.
Proof.
  intros Ho Hc.
  destruct (disconnect_orphan st L W c Ho Hc)
    as (st1 & Hdis & Ho1 & Ecl & Eco & Hfr & _ & Hout).
  pose proof (orph_links _ _ _ _ Ho1 c Hc) as Hl1.
  pose proof (orph_walk _ _ _ _ Ho1 c Hc) as Hw1.
  rewrite fn_lookup_insert in Hw1.
  rewrite (destroy_connection_after st c st1 Hdis Hl1 Hw1). eexists. split; [done|].
  simpl. split_and!; try apply lookup_delete_eq.
  split; simpl.
  - intros c' [Hne Hc']%list_elem_of_filter. rewrite lookup_delete_ne by done.
    by apply (orph_links _ _ _ _ Ho1).
  - intros c' [Hne Hc']%list_elem_of_filter.
    destruct (orph_knows _ _ _ _ Ho1 c' Hc') as [sl Hk]. exists sl.
    simpl. by rewrite lookup_delete_ne.
  - intros c' [Hne Hc']%list_elem_of_filter.
    pose proof (orph_walk _ _ _ _ Ho1 c' Hc') as Hw'.
    rewrite fn_lookup_insert_ne in Hw' by done.
    eapply dlist_frame; [|done]. intros y Hy. apply lookup_delete_ne.
    intros <-. apply elem_of_cons in Hy as [[= ->]|Hy]; [done|].
    apply list_elem_of_fmap in Hy as (d & [=] & _).
  - intros c' d [Hne Hc']%list_elem_of_filter Hd.
    apply (orph_alloc _ _ _ _ Ho1 c' d Hc'). by rewrite fn_lookup_insert_ne.
  - intros c1 c2 d [_ H1]%list_elem_of_filter [_ H2]%list_elem_of_filter.
    by apply (orph_disj _ _ _ _ Ho).
Qed.

(** The destructor of a signal with linked connections. *)
Lemma destroy_signal_orphans st L W :
  rep st s L W → (∀ c, c ∈ L → knows st c s) →
  ∃ st', destroy_signal s st = Ok st'
    ∧ orphans st' s L W
    ∧ clinks st' !! s = None
    ∧ (∀ y, y ∉ s :: L → clinks st' !! y = clinks st !! y)
    ∧ wlinks st' = wlinks st ∧ walkers st' = walkers st ∧ conns st' = conns st.
Proof.
  intros Hr Hkn.
  destruct (dlist_clear _ _ _ (rep_conns _ _ _ _ Hr)) as (h & Hcl & Hnil & Hin & Hout).
  unfold destroy_signal. rewrite Hcl. simpl.
  rewrite (unlink_self _ _ (dlist_nil_inv _ _ Hnil)). simpl.
  eexists. split; [done|]. rewrite delete_insert_eq. split_and!; simpl; try done.
  - split; simpl.
    + intros c Hc. rewrite lookup_delete_ne; [by apply Hin|].
      apply not_eq_sym. by eapply rep_not_root.
    + done.
    + apply (rep_walk _ _ _ _ Hr).
    + intros c d Hc Hd. by apply (rep_walkers_alloc s st L W c).
    + apply (rep_disj _ _ _ _ Hr).
  - apply lookup_delete_eq.
  - intros y Hy. rewrite lookup_delete_ne; [by apply Hout|].
    intros <-. apply Hy. by apply elem_of_cons; left.
Qed.

End destroying.

(** ** Fuel *)

Lemma bind_Ok {A B} (m : result A) (f : A → result B) b :
  m ≫= f = Ok b ↔ ∃ a, m = Ok a ∧ f a = Ok b.
Proof.
  destruct m as [a| |]; simpl; split; try done.
  - eauto.
  - by intros (a' & [= <-] & ?).
  - by intros (? & ? & _).
  - by intros (? & ? & _).
Qed.

(** More fuel does not change a result. *)
Lemma fuel_mono n :
  (∀ ops st r, run_ops n ops st = Ok r → ∀ m, n ≤ m → run_ops m ops st = Ok r)
  ∧ (∀ s st r, emit n s st = Ok r → ∀ m, n ≤ m → emit m s st = Ok r)
  ∧ (∀ s cur st r, emit_loop n s cur st = Ok r →
       ∀ m, n ≤ m → emit_loop m s cur st = Ok r).
Proof.
  induction n as [|n (IHr & IHe & IHl)]; [by split_and!|].
  split_and!.
  - intros ops st r Hrun [|m] Hm; [lia|]. apply le_S_n in Hm.
    destruct ops as [|o ops]; [done|].
    rewrite run_ops_cons in Hrun. rewrite run_ops_cons.
    apply bind_Ok in Hrun as ([oc st1] & Ho & Hrest).
    assert ((match o with
             | OpDisconnect c => st ← disconnect c st; Ok (Normal, st)
             | OpConnect s c id b => st ← connect s c (Slot id b) st; Ok (Normal, st)
             | OpInsert s pos c =>
                 h ← insert (Some pos) c (clinks st); Ok (Normal, with_clinks h st)
             | OpEmit s => emit m s st
             | OpMove dst src => st ← move_assign dst src st; Ok (Normal, st)
             | OpDestroy c => st ← destroy_connection c st; Ok (Normal, st)
             | OpOnce f b =>
                 if bool_decide (f ∈ flags st) then Ok (Normal, st)
                 else run_ops m b (with_flags ({[f]} ∪ flags st) st)
             | OpThrow => Ok (Thrown, st)
             end) = Ok (oc, st1)) as ->.
    { destruct o; try done.
      - by apply IHe.
      - case_bool_decide; [done|]. by apply IHr. }
    simpl. destruct oc; [by apply IHr|done].
  - intros s st r Hrun [|m] Hm; [lia|]. apply le_S_n in Hm.
    rewrite emit_unfold in Hrun. rewrite emit_unfold.
    destruct (empty s (clinks st)) as [[|]| |]; simpl in *; try done.
    destruct (begin s (clinks st)) as [cur| |]; simpl in *; try done.
    by apply IHl.
  - intros s cur st r Hrun [|m] Hm; [lia|]. apply le_S_n in Hm.
    destruct cur as [c|]; [|done].
    rewrite emit_loop_unfold in Hrun. rewrite emit_loop_unfold.
    case_bool_decide; [done|]. simpl in *.
    destruct (plant c st) as [st1| |]; simpl in *; try done.
    destruct (conns st1 !! c) as [k|]; simpl in *; try done.
    destruct (slot k) as [sl|]; [|done].
    apply bind_Ok in Hrun as ([oc st2] & Hb & Hrest).
    rewrite (IHr _ _ _ Hb m Hm). simpl.
    destruct oc; [|done].
    destruct (advance (depth st) c st2) as [cur'| |]; simpl in *; try done.
    destruct (retire (depth st) st2) as [st3| |]; simpl in *; try done.
    by apply IHl.
Qed.

Lemma emit_fuel_mono n m s st r : emit n s st = Ok r → n ≤ m → emit m s st = Ok r.
Proof. intros Hrun Hm. by apply (fuel_mono n). Qed.

Lemma emit_loop_fuel_mono n m s cur st r :
  emit_loop n s cur st = Ok r → n ≤ m → emit_loop m s cur st = Ok r.
Proof. intros Hrun Hm. by apply (fuel_mono n). Qed.

(** * The running example *)

(** [scene b] is what three calls of [connect] build, and it is a
    well-formed heap without walkers. *)
Lemma scene_built b :
  connect_all 10 [(11, Slot 1 []); (12, Slot 2 b); (13, Slot 3 [])]
    (new_signal 10 empty_state) = Ok (scene b).
Proof. vm_compute. reflexivity. Qed.

Lemma scene_rep b : rep (scene b) 10 [13; 12; 11] (λ _, []).
Proof.
  split.
  - split.
    + compute_done.
    + repeat constructor; vm_compute; reflexivity.
  - intros c Hc. apply dlist_nil.
    repeat (apply elem_of_cons in Hc as [->|Hc]); [reflexivity..|].
    by apply elem_of_nil in Hc.
  - intros c d _ Hd. by apply elem_of_nil in Hd.
  - intros c c' d _ _ Hd. by apply elem_of_nil in Hd.
  - intros d _. split; [|done]. simpl. by rewrite !lookup_insert_ne.
Qed.

Lemma scene_tidy b : tidy (scene b) 10 [13; 12; 11] (λ _, []).
Proof. split_and!; compute_done. Qed.

Lemma scene_knows b c : c ∈ [13; 12; 11] → knows (scene b) c 10.
Proof.
  intros Hc. repeat (apply elem_of_cons in Hc as [->|Hc]);
    [by eexists..|by apply elem_of_nil in Hc].
Qed.

Lemma scene_plain b c : c ∈ [13; 11] → plain (scene b) c.
Proof.
  intros Hc. repeat (apply elem_of_cons in Hc as [->|Hc]);
    [by eexists _, _..|by apply elem_of_nil in Hc].
Qed.

Lemma scene_plain_all c : c ∈ [13; 12; 11] → plain (scene []) c.
Proof.
  intros Hc. repeat (apply elem_of_cons in Hc as [->|Hc]);
    [by eexists _, _..|by apply elem_of_nil in Hc].
Qed.

(** [lone_moved b] is what the three statements build: the default
    constructor, [connect] into a temporary at 12, the move assignment and
    the destructor of the temporary. *)
Lemma lone_moved_built b :
  (st ← connect 10 12 (Slot 1 b) (default_connection 14 (new_signal 10 empty_state));
   st ← move_assign 14 12 st;
   destroy_connection 12 st) = Ok (lone_moved b).
Proof. vm_compute. reflexivity. Qed.

Lemma lone_moved_rep b : rep (lone_moved b) 10 [14] (λ _, []).
Proof.
  split.
  - split.
    + compute_done.
    + repeat constructor; vm_compute; reflexivity.
  - intros c ->%list_elem_of_singleton. apply dlist_nil. reflexivity.
  - by intros c d _ ?%elem_of_nil.
  - by intros c c' d _ _ ?%elem_of_nil.
  - intros d _. split; reflexivity.
Qed.

Lemma lone_parked_planted b : plant 14 (lone_moved b) = Ok (lone_parked b).
Proof. vm_compute. reflexivity. Qed.

Lemma lone_parked_rep b : rep (lone_parked b) 10 [14] (<[14 := [0]]> (λ _, [])).
Proof.
  destruct (plant_rep 10 (lone_moved b) [14] (λ _, []) 14 (lone_moved_rep b))
    as (st1 & Hpl & Hr & _); [compute_done|].
  rewrite lone_parked_planted in Hpl. by injection Hpl as <-.
Qed.

(** * The properties of the specification *)

(** C1 (the failing input): the only connection of the signal at 10 was
    stored by move assignment, [connection c; c = sig.connect(f);], and its
    callback disconnects it.  Move assignment did not write [parent], so
    [disconnect] finds the successor position, the end of the signal,
    different from [parent->lst.end()] and splices the walker of the step
    into [asit->lst], with [asit] the root of the signal taken for a
    connection: the emission does not return. *)
Lemma moved_handle_self_disconnect_faults :
  (st ← connect 10 12 (Slot 1 [OpDisconnect 14])
          (default_connection 14 (new_signal 10 empty_state));
   st ← move_assign 14 12 st;
   destroy_connection 12 st) = Ok (lone_moved [OpDisconnect 14])
  ∧ rep (lone_moved [OpDisconnect 14]) 10 [14] (λ _, [])
  ∧ conns (lone_moved [OpDisconnect 14]) !! 14
    = Some (Conn None (Some (Slot 1 [OpDisconnect 14])))
  ∧ ∀ fuel, 3 ≤ fuel → emit fuel 10 (lone_moved [OpDisconnect 14]) = Fault.
Proof.
  split; [apply lone_moved_built|]. split; [apply lone_moved_rep|].
  split; [reflexivity|].
  intros fuel Hfuel. destruct fuel as [|[|[|fuel]]]; try lia.
  rewrite emit_unfold.
  assert (empty 10 (clinks (lone_moved [OpDisconnect 14])) = Ok false) as ->
    by (vm_compute; reflexivity).
  assert (begin 10 (clinks (lone_moved [OpDisconnect 14])) = Ok (Some 14)) as ->
    by (vm_compute; reflexivity).
  simpl. rewrite emit_loop_unfold, bool_decide_eq_false_2 by done. simpl.
  destruct (plant 14 (lone_moved [OpDisconnect 14])) as [st1| |] eqn:Hpl;
    [|by vm_compute in Hpl..].
  simpl.
  assert (conns st1 !! 14 = Some (Conn None (Some (Slot 1 [OpDisconnect 14])))) as ->.
  { vm_compute in Hpl. injection Hpl as <-. reflexivity. }
  simpl. rewrite run_ops_cons.
  assert (disconnect 14 (with_trace (trace st1 ++ [1]) st1) = Fault) as ->.
  { vm_compute in Hpl. injection Hpl as <-. vm_compute. reflexivity. }
  reflexivity.
Qed.

(** The behaviour C1 describes, for a connection [X] whose [parent] field
    holds the address of the signal, as the constructor called by [connect]
    sets it: a callback that disconnects [X], wherever [X] is, is followed
    by exactly the not yet visited connections other than [X], in list
    order and once each. *)
Theorem disconnect_during_emission st s pre k rest W X p idk fuel :
  rep st s (pre ++ k :: rest) W →
  X ∈ pre ++ k :: rest → knows st X s →
  conns st !! k = Some (Conn p (Some (Slot idk [OpDisconnect X]))) →
  (∀ c, c ∈ without X rest → plain st c) →
  length rest + 4 ≤ fuel →
  ∃ st' W',
    emit_loop fuel s (Some k) st = Ok (Normal, st')
    ∧ trace st' = trace st ++ idk :: (slot_id st <$> without X rest)
    ∧ rep st' s (without X (pre ++ k :: rest)) W'
    ∧ NoDup (k :: without X rest).
Proof.
  intros Hr HX Hkn Hk Hpl Hfuel.
  destruct fuel as [|[|[|fuel]]]; try lia.
  destruct (plant_disconnect s st pre k rest W X (trace st ++ [idk]) Hr HX Hkn)
    as (st1 & st2 & W2 & Hpl1 & Hdis & Hr2 & Hdep & Hwhere & Hadv & Eco & Efl & Etr).
  destruct (retire_rep s st2 _ W2 (depth st) Hr2 Hdep Hwhere)
    as (st3 & W3 & Hret & Hr3 & Ecl3 & Eco3 & Efl3 & Etr3 & Edep3).
  assert (k ∈ pre ++ k :: rest) as Hkin.
  { apply elem_of_app. right. by apply elem_of_cons; left. }
  destruct (plant_rep s st _ W k Hr Hkin) as (st1' & Hpl1' & _ & _ & _ & Eco1 & _ & Etr1 & _).
  rewrite Hpl1 in Hpl1'. injection Hpl1' as <-.
  rewrite emit_loop_unfold, bool_decide_eq_false_2.
  2:{ unfold end_. intros [= ->]. by apply (rep_not_root s st _ W s Hr). }
  simpl. rewrite Hpl1. simpl. rewrite Eco1, Hk. simpl.
  rewrite run_ops_cons, Etr1, Hdis. simpl. rewrite ?run_ops_nil. simpl. rewrite Hadv. simpl.
  rewrite Hret. simpl.
  assert (without X (pre ++ k :: rest)
          = (without X pre ++ without X [k]) ++ without X rest) as Esplit.
  { by rewrite <-app_assoc, <-!without_app. }
  rewrite Esplit in Hr3.
  rewrite (quiet_loop s (without X rest) _ st3 W3 _ Hr3).
  - eexists _, W3. split; [done|]. simpl. split_and!.
    + rewrite Etr3, Etr, <-app_assoc. simpl. do 2 f_equal.
      apply list_fmap_ext. intros i c _. apply slot_id_conns. congruence.
    + rewrite Esplit. by apply rep_with_trace.
    + pose proof (dlist_NoDup _ _ _ (rep_conns _ _ _ _ Hr)) as Hnd.
      apply NoDup_cons in Hnd as [_ Hnd]. apply NoDup_app in Hnd as (_ & _ & Hnd).
      apply NoDup_cons in Hnd as [Hkr Hnd]. apply NoDup_cons. split.
      * intros [_ ?]%list_elem_of_filter. done.
      * by apply NoDup_filter.
  - intros c Hc. apply plain_inert. apply (plain_conns st); [congruence|by apply Hpl].
  - assert (length (without X rest) ≤ length rest) by apply length_filter. lia.
Qed.

(** On the running example, for the three places [X] can be in. *)
Lemma disconnect_during_emission_witness :
  (* the callback of 12 disconnects the connection being visited *)
  (∃ st' W',
     emit_loop 5 10 (Some 12) (scene [OpDisconnect 12]) = Ok (Normal, st')
     ∧ trace st' = [2; 1] ∧ rep st' 10 [13; 11] W' ∧ NoDup [12; 11])
  (* ... the next connection to be visited *)
  ∧ (∃ st' W',
       emit_loop 5 10 (Some 12) (scene [OpDisconnect 11]) = Ok (Normal, st')
       ∧ trace st' = [2] ∧ rep st' 10 [13; 12] W' ∧ NoDup [12])
  (* ... a connection visited before *)
  ∧ (∃ st' W',
       emit_loop 5 10 (Some 12) (scene [OpDisconnect 13]) = Ok (Normal, st')
       ∧ trace st' = [2; 1] ∧ rep st' 10 [12; 11] W' ∧ NoDup [12; 11]).
Proof.
  split_and!.
  - apply (disconnect_during_emission (scene [OpDisconnect 12]) 10 [13] 12 [11]
             (λ _, []) 12 (Some 10) 2 5).
    + apply scene_rep.
    + compute_done.
    + by eexists.
    + reflexivity.
    + intros c Hc. apply scene_plain. revert Hc. vm_compute (without _ _).
      intros ->%list_elem_of_singleton. compute_done.
    + simpl. lia.
  - apply (disconnect_during_emission (scene [OpDisconnect 11]) 10 [13] 12 [11]
             (λ _, []) 11 (Some 10) 2 5).
    + apply scene_rep.
    + compute_done.
    + by eexists.
    + reflexivity.
    + intros c Hc. vm_compute (without _ _) in Hc. by apply elem_of_nil in Hc.
    + simpl. lia.
  - apply (disconnect_during_emission (scene [OpDisconnect 13]) 10 [13] 12 [11]
             (λ _, []) 13 (Some 10) 2 5).
    + apply scene_rep.
    + compute_done.
    + by eexists.
    + reflexivity.
    + intros c Hc. apply scene_plain. revert Hc. vm_compute (without _ _).
      intros ->%list_elem_of_singleton. compute_done.
    + simpl. lia.
Defined.

(** C2: connect A (address 11, identifier 1), then B (12, 2), then C
    (13, 3), where the callback of B disconnects A.  The first emission
    invokes C, then B, and returns normally without invoking A; the second
    emission invokes C and B again, in this order, and nothing else. *)
Theorem scenario_disconnect_earlier fuel :
  connect_all 10 [(11, Slot 1 []); (12, Slot 2 [OpDisconnect 11]); (13, Slot 3 [])]
    (new_signal 10 empty_state) = Ok (scene [OpDisconnect 11])
  ∧ ∃ st1 st2,
      emit (fuel + 5) 10 (scene [OpDisconnect 11]) = Ok (Normal, st1)
      ∧ trace st1 = [3; 2]
      ∧ clinks st1 !! 11 = Some (ListElement None None)
      ∧ emit (fuel + 5) 10 st1 = Ok (Normal, st2)
      ∧ trace st2 = trace st1 ++ [3; 2].
Proof.
  split; [apply scene_built|]. eexists _, _. split_and!.
  - apply (emit_fuel_mono 5); [vm_compute; reflexivity|lia].
  - vm_compute; reflexivity.
  - vm_compute; reflexivity.
  - apply (emit_fuel_mono 5); [vm_compute; reflexivity|lia].
  - vm_compute; reflexivity.
Qed.

(** C3: connections made by [connect] are linked at the front, and an
    emission during which no callback calls into the library invokes every
    connection exactly once, the most recently connected first. *)
Theorem emit_visits_all_most_recent_first st s L W cs fuel :
  rep st s L W →
  (∀ c, c ∈ L → plain st c) →
  NoDup (s :: reverse cs.*1 ++ L) →
  (∀ sl, sl ∈ cs.*2 → body sl = []) →
  length cs + length L + 4 ≤ fuel →
  ∃ st' W',
    connect_all s cs st = Ok st'
    ∧ rep st' s (reverse cs.*1 ++ L) W'
    ∧ emit fuel s st'
        = Ok (Normal,
              with_trace (trace st ++ reverse (sid <$> cs.*2) ++ (slot_id st <$> L)) st').
Proof.
  intros Hr Hpl Hnd Hb Hfuel.
  destruct (connect_all_rep s cs st L W Hr Hnd)
    as (st' & W' & Hall & Hr' & Hold & Hnew & Efl & Etr).
  exists st', W'. split; [done|]. split; [done|].
  rewrite (quiet_emit s st' _ W' fuel Hr').
  - assert (slot_id st' <$> reverse cs.*1 = reverse (sid <$> cs.*2)) as E1.
    { rewrite <-!fmap_reverse. rewrite <-!list_fmap_compose.
      apply list_fmap_ext. intros i [c sl] Hi. simpl.
      apply (slot_id_known _ _ (Some s)). apply Hnew.
      apply list_elem_of_lookup_2 in Hi. by rewrite elem_of_reverse in Hi. }
    assert (slot_id st' <$> L = slot_id st <$> L) as E2.
    { apply list_fmap_ext. intros i c Hi. unfold slot_id.
      rewrite Hold; [done|]. by eapply list_elem_of_lookup_2. }
    by rewrite Etr, fmap_app, E1, E2.
  - intros c [Hc|Hc]%elem_of_app.
    + rewrite elem_of_reverse in Hc. apply list_elem_of_fmap in Hc as ([c' sl] & -> & Hin). simpl.
      exists (Some s), (sid sl), (body sl). split; [|].
      * rewrite (Hnew c' sl Hin). by destruct sl.
      * rewrite (Hb sl); [apply inert_nil|]. apply list_elem_of_fmap. by exists (c', sl).
    + apply plain_inert. destruct (Hpl c Hc) as (p & id & Hk). exists p, id.
      by rewrite Hold.
  - rewrite length_app, length_reverse, length_fmap. lia.
Qed.

(** Three connections made on a new signal. *)
Lemma emit_visits_all_most_recent_first_witness :
  ∃ st' W',
    connect_all 10 [(11, Slot 1 []); (12, Slot 2 []); (13, Slot 3 [])]
      (new_signal 10 empty_state) = Ok st'
    ∧ rep st' 10 [13; 12; 11] W'
    ∧ emit 7 10 st' = Ok (Normal, with_trace [3; 2; 1] st').
Proof.
  apply (emit_visits_all_most_recent_first (new_signal 10 empty_state) 10 []
           (λ _, []) [(11, Slot 1 []); (12, Slot 2 []); (13, Slot 3 [])] 7).
  - apply rep_new_signal.
  - intros c Hc. by apply elem_of_nil in Hc.
  - compute_done.
  - intros sl Hsl. simpl in Hsl.
    repeat (apply elem_of_cons in Hsl as [->|Hsl]); [reflexivity..|].
    by apply elem_of_nil in Hsl.
  - simpl. lia.
Defined.

(** C4: unlinking or erasing the element [x] of a well-formed list writes
    the two fields of [x] (both null afterwards), the [next] field of its
    predecessor and the [prev] field of its successor, which become
    neighbours; every other field of every element is unchanged, nothing
    is allocated or released, and the result is the well-formed list
    without [x]: every position other than [x], the end position included,
    is a position of the resulting list, in the same order. *)
Theorem erase_invalidates_only_erased {K} `{Countable K}
    (h : gmap K (list_element K)) (r : K) (L1 : list K) (x : K) (L2 : list K) :
  dlist h r (L1 ++ x :: L2) →
  ∃ h', unlink x h = Ok (Some (hd r L2), h')
    ∧ erase (Some x) h = Ok (Some (hd r L2), h')
    ∧ dlist h' r (L1 ++ L2)
    ∧ h' !! x = Some (ListElement None None)
    ∧ nxt h' (last_or L1 r) = Some (Some (hd r L2))
    ∧ prv h' (hd r L2) = Some (Some (last_or L1 r))
    ∧ (∀ y, y ≠ x → y ≠ last_or L1 r → nxt h' y = nxt h y)
    ∧ (∀ y, y ≠ x → y ≠ hd r L2 → prv h' y = prv h y)
    ∧ (∀ y, y ≠ x → y ≠ last_or L1 r → y ≠ hd r L2 → h' !! y = h !! y)
    ∧ (∀ y, is_Some (h' !! y) ↔ is_Some (h !! y))
    ∧ (∀ y, y ∈ r :: L1 ++ x :: L2 → y ≠ x → y ∈ r :: L1 ++ L2).
Proof.
  intros Hd.
  destruct (dlist_unlink _ _ _ _ _ Hd) as (h' & Hun & Hd' & Hx & Hpn & Hnp & Hfn & Hfp).
  exists h'. split_and!; try done.
  - unfold erase. rewrite (get_next_ok _ _ _ (dlist_nxt _ _ _ _ _ Hd)). simpl.
    by rewrite Hun.
  - intros y ? ? ?. apply lookup_frame; [by apply Hfn|by apply Hfp].
  - intros y. destruct (decide (y = x)) as [->|Hyx].
    { rewrite Hx. split; [intros _|by eauto].
      apply (dlist_alloc _ _ _ _ Hd). apply elem_of_cons. right.
      apply elem_of_app. right. by apply elem_of_cons; left. }
    destruct (decide (y = last_or L1 r)) as [->|Hyl].
    { split; intros _.
      - apply (dlist_alloc _ _ _ _ Hd). pose proof (last_or_elem L1 r) as Hl.
        apply elem_of_cons in Hl as [Hl|Hl]; apply elem_of_cons; [by left|right].
        apply elem_of_app. by left.
      - apply nxt_Some in Hpn as (e & He & _). by rewrite He. }
    specialize (Hfn y Hyx Hyl). unfold nxt in Hfn.
    destruct (h' !! y), (h !! y); simpl in Hfn; try done; split; by eauto.
  - intros y Hy Hyx. apply elem_of_cons in Hy as [->|Hy]; apply elem_of_cons; [by left|right].
    apply elem_of_app in Hy as [Hy|Hy]; apply elem_of_app; [by left|right].
    by apply elem_of_cons in Hy as [->|Hy].
Qed.

(** The connection 12 is unlinked from the list of the running example. *)
Lemma erase_invalidates_only_erased_witness :
  ∃ h', unlink 12 (clinks (scene [])) = Ok (Some (hd 10 [11]), h')
    ∧ erase (Some 12) (clinks (scene [])) = Ok (Some (hd 10 [11]), h')
    ∧ dlist h' 10 ([13] ++ [11])
    ∧ h' !! 12 = Some (ListElement None None)
    ∧ nxt h' (last_or [13] 10) = Some (Some (hd 10 [11]))
    ∧ prv h' (hd 10 [11]) = Some (Some (last_or [13] 10))
    ∧ (∀ y, y ≠ 12 → y ≠ last_or [13] 10 → nxt h' y = nxt (clinks (scene [])) y)
    ∧ (∀ y, y ≠ 12 → y ≠ hd 10 [11] → prv h' y = prv (clinks (scene [])) y)
    ∧ (∀ y, y ≠ 12 → y ≠ last_or [13] 10 → y ≠ hd 10 [11] →
         h' !! y = clinks (scene []) !! y)
    ∧ (∀ y, is_Some (h' !! y) ↔ is_Some (clinks (scene []) !! y))
    ∧ (∀ y, y ∈ 10 :: [13] ++ 12 :: [11] → y ≠ 12 → y ∈ 10 :: [13] ++ [11]).
Proof.
  apply (erase_invalidates_only_erased (clinks (scene [])) 10 [13] 12 [11]).
  apply (rep_conns _ _ _ _ (scene_rep [])).
Defined.

(** C5: a callback that emits the same signal again.  The inner emission
    walks the whole list with its own walkers, one of them parked on [k]
    in front of the outer one, and returns the heap as it found it; the
    outer emission then goes on with the connections after [k]. *)
Theorem nested_emission st s pre k rest W f p idk fuel :
  rep st s (pre ++ k :: rest) W →
  f ∉ flags st →
  conns st !! k = Some (Conn p (Some (Slot idk [OpOnce f [OpEmit s]]))) →
  (∀ c, c ∈ pre ++ rest → plain st c) →
  2 * length (pre ++ k :: rest) + 10 ≤ fuel →
  emit fuel s st
    = Ok (Normal,
          with_flags ({[f]} ∪ flags st)
            (with_trace
               (trace st ++ (slot_id st <$> pre) ++ [idk]
                  ++ (slot_id st <$> pre ++ k :: rest)
                  ++ (slot_id st <$> rest)) st))
  ∧ ∃ st1 st2,
      plant k st = Ok st1 ∧ plant k st1 = Ok st2
      ∧ dlist (wlinks st2) (WRoot k)
          (WNode (S (depth st)) :: WNode (depth st) :: (WNode <$> W k))
      ∧ walkers st2 !! depth st = Some (IterationData (Some k) false)
      ∧ walkers st2 !! S (depth st) = Some (IterationData (Some k) false).
Proof.
  intros Hr Hf Hk Hpl Hfuel.
  assert (k ∈ pre ++ k :: rest) as Hkin.
  { apply elem_of_app. right. by apply elem_of_cons; left. }
  assert (∀ c, c ∈ pre → plain st c) as Hpre.
  { intros c Hc. apply Hpl. apply elem_of_app. by left. }
  assert (∀ c, c ∈ rest → plain st c) as Hrest.
  { intros c Hc. apply Hpl. apply elem_of_app. by right. }
  rewrite length_app in Hfuel. simpl in Hfuel.
  split.
  - destruct fuel as [|fuel]; [lia|].
    rewrite (emit_entry s st _ W fuel Hr) by lia.
    replace fuel with (length pre + (fuel - length pre)) by lia.
    replace (pre ++ k :: rest) with ([] ++ pre ++ k :: rest) in Hr by done.
    rewrite (quiet_prefix s pre [] (k :: rest) st W _ Hr); [| |lia].
    2:{ intros c Hc. by apply plain_inert, Hpre. }
    simpl hd. simpl in Hr.
    set (st0 := with_trace (trace st ++ (slot_id st <$> pre)) st).
    assert (rep st0 s (pre ++ k :: rest) W) as Hr0 by (by apply rep_with_trace).
    destruct (fuel - length pre) as [|[|[|fuel']]] eqn:Ef; try lia.
    rewrite emit_loop_unfold, bool_decide_eq_false_2.
    2:{ unfold end_. intros [= ->]. by apply (rep_not_root s st _ W s Hr). }
    simpl.
    destruct (plant_rep s st0 _ W k Hr0 Hkin)
      as (st1 & Hpl1 & Hr1 & Hdep1 & Ecl1 & Eco1 & Efl1 & Etr1 & Ewa1).
    rewrite Hpl1. simpl. rewrite Eco1. simpl. rewrite Hk. simpl.
    rewrite run_ops_cons. simpl. rewrite Efl1. simpl.
    rewrite bool_decide_eq_false_2 by done.
    rewrite run_ops_cons.
    set (sti := with_flags _ _).
    assert (rep sti s (pre ++ k :: rest) (<[k := depth st0 :: W k]> W)) as Hri.
    { unfold sti. by apply rep_with_flags, rep_with_trace. }
    rewrite (quiet_emit s sti _ _ fuel' Hri).
    + simpl. rewrite run_ops_nil' by lia. simpl. rewrite ?run_ops_nil. simpl.
      unfold advance. unfold sti. simpl. rewrite Ewa1, lookup_insert_eq. simpl.
      rewrite Ecl1. simpl. rewrite (rep_succ s st _ _ _ _ Hr). simpl.
      erewrite (plant_retire s st0 _ W k st1); [|done..]. simpl.
      set (sto := State _ _ _ _ _ _ _).
      assert (rep sto s ((pre ++ [k]) ++ rest) W) as Hro.
      { rewrite <-app_assoc. split; simpl; apply Hr. }
      rewrite (quiet_loop s rest _ sto W _ Hro).
      * do 2 f_equal. unfold sto. apply state_eq; simpl; try done.
        assert (conns st1 = conns st) as Eco1' by (by rewrite Eco1).
        norm_ids st. rewrite Etr1. unfold st0. simpl.
        rewrite <-!app_assoc. simpl. done.
      * intros c Hc. destruct (Hrest c Hc) as (pc & idc & Hkc).
        exists pc, idc, []. split; [done|]. apply inert_nil.
      * lia.
    + intros c Hc. unfold sti. simpl. rewrite Eco1. simpl.
      apply elem_of_app in Hc as [Hc|[->|Hc]%elem_of_cons].
      * destruct (Hpre c Hc) as (pc & idc & Hkc).
        exists pc, idc, []. split; [done|]. apply inert_nil.
      * exists p, idk, [OpOnce f [OpEmit s]]. split; [done|].
        apply inert_once. apply elem_of_union. left. by apply elem_of_singleton.
      * destruct (Hrest c Hc) as (pc & idc & Hkc).
        exists pc, idc, []. split; [done|]. apply inert_nil.
    + rewrite length_app. simpl. lia.
  - destruct (plant_rep s st _ W k Hr Hkin)
      as (st1 & Hpl1 & Hr1 & Hdep1 & Ecl1 & Eco1 & Efl1 & Etr1 & Ewa1).
    destruct (plant_rep s st1 _ _ k Hr1 Hkin)
      as (st2 & Hpl2 & Hr2 & Hdep2 & Ecl2 & Eco2 & Efl2 & Etr2 & Ewa2).
    exists st1, st2. split_and!; try done.
    + pose proof (rep_walk _ _ _ _ Hr2 k Hkin) as Hw.
      rewrite !fn_lookup_insert, Hdep1 in Hw. done.
    + rewrite Ewa2, Ewa1, Hdep1. rewrite lookup_insert_ne by lia.
      by rewrite lookup_insert_eq.
    + rewrite Ewa2, Hdep1. by rewrite lookup_insert_eq.
Qed.

(** On the running example, the callback of 12 emitting once more. *)
Lemma nested_emission_witness :
  emit 16 10 (scene [OpOnce 0 [OpEmit 10]])
    = Ok (Normal,
          with_flags ({[0]} ∪ ∅)
            (with_trace [3; 2; 3; 2; 1; 1] (scene [OpOnce 0 [OpEmit 10]])))
  ∧ ∃ st1 st2,
      plant 12 (scene [OpOnce 0 [OpEmit 10]]) = Ok st1 ∧ plant 12 st1 = Ok st2
      ∧ dlist (wlinks st2) (WRoot 12) [WNode 1; WNode 0]
      ∧ walkers st2 !! 0 = Some (IterationData (Some 12) false)
      ∧ walkers st2 !! 1 = Some (IterationData (Some 12) false).
Proof.
  apply (nested_emission (scene [OpOnce 0 [OpEmit 10]]) 10 [13] 12 [11] (λ _, []) 0
           (Some 10) 2 16).
  - apply scene_rep.
  - compute_done.
  - reflexivity.
  - apply scene_plain.
  - simpl. lia.
Defined.

(** C6: moving a connection, by the move constructor into fresh storage or
    by move assignment into a default constructed connection, puts the new
    storage in the place of the old one in the signal's list, carries the
    parked walkers over with [held] rewritten, transfers the callback and
    unlinks the source; the next emission invokes the callback once, at the
    same place.  The [parent] field of the new storage is not written. *)
Theorem move_preserves_subscription st s L1 r L2 W this pr idr fuel :
  rep st s (L1 ++ r :: L2) W →
  this ∉ s :: L1 ++ r :: L2 →
  conns st !! r = Some (Conn pr (Some (Slot idr []))) →
  (∀ c, c ∈ L1 ++ L2 → plain st c) →
  length (L1 ++ r :: L2) + 4 ≤ fuel →
  ∃ st1 st2,
    move_construct this r st = Ok st1
    ∧ relocated s st L1 r L2 W this pr (Slot idr []) fuel st1
    ∧ move_assign this r (default_connection this st) = Ok st2
    ∧ relocated s st L1 r L2 W this pr (Slot idr []) fuel st2.
Proof.
  intros Hr Hthis Hkr Hpl Hfuel.
  assert (this ≠ r) as Hne.
  { intros ->. apply Hthis. apply elem_of_cons. right. apply elem_of_app. right.
    by apply elem_of_cons; left. }
  (* the move constructor *)
  set (sta := with_conns (<[r := Conn pr None]>
                (conns (new_connection this None (Some (Slot idr [])) st)))
                (new_connection this None (Some (Slot idr [])) st)).
  destruct (rep_new_connection s st _ W this None (Some (Slot idr [])) Hr Hthis)
    as (Hra & Hcla & Hwa).
  destruct (relocate s sta st L1 r L2 W this pr idr fuel (conns sta))
    as (st1 & Hmv1 & Hrel1); try done.
  { by apply rep_with_conns. }
  { unfold sta. simpl. rewrite lookup_insert_ne by done. by rewrite lookup_insert_eq. }
  { unfold sta. simpl. by rewrite lookup_insert_eq. }
  { intros c ? ?. unfold sta. simpl. by rewrite !lookup_insert_ne. }
  (* move assignment into a default constructed connection *)
  destruct (rep_new_connection s st _ W this None None Hr Hthis) as (Hrb & Hclb & Hwb).
  destruct (relocate s (default_connection this st) st L1 r L2 W this pr idr fuel
              (<[r := Conn pr None]>
                 (<[this := Conn None (Some (Slot idr []))]>
                    (conns (default_connection this st)))))
    as (st2 & Hmv2 & Hrel2); try done.
  { rewrite lookup_insert_ne by done. by rewrite lookup_insert_eq. }
  { by rewrite lookup_insert_eq. }
  { intros c ? ?. simpl. by rewrite !lookup_insert_ne. }
  pose proof (movelinks_rep s (default_connection this st) L1 r L2 W this Hrb Hthis Hclb Hwb)
    as (st2' & Hmv2' & _ & _ & _ & Eco2 & _).
  rewrite Hmv2 in Hmv2'. injection Hmv2' as <-.
  eexists (with_conns (conns sta) st1), _. split_and!; [|exact Hrel1| |exact Hrel2].
  - unfold move_construct. rewrite Hkr. simpl.
    change (movelinks2empty this r sta = Ok (with_conns (conns sta) st1)).
    pose proof (movelinks_rep s sta L1 r L2 W this (rep_with_conns s _ _ _ _ Hra) Hthis Hcla Hwa)
      as (st1' & Hmv1' & _ & _ & _ & Eco1 & _).
    rewrite Hmv1 in Hmv1'. injection Hmv1' as <-. rewrite Hmv1. f_equal.
    apply state_eq; simpl; done.
  - unfold move_assign. rewrite bool_decide_eq_false_2 by done.
    rewrite Hmv2. simpl. rewrite Eco2. simpl.
    rewrite lookup_insert_eq. simpl. rewrite lookup_insert_ne by done. rewrite Hkr. simpl.
    done.
Qed.

(** On the running example, 12 is moved to the address 14. *)
Lemma move_preserves_subscription_witness :
  ∃ st1 st2,
    move_construct 14 12 (scene []) = Ok st1
    ∧ relocated 10 (scene []) [13] 12 [11] (λ _, []) 14 (Some 10) (Slot 2 []) 7 st1
    ∧ move_assign 14 12 (default_connection 14 (scene [])) = Ok st2
    ∧ relocated 10 (scene []) [13] 12 [11] (λ _, []) 14 (Some 10) (Slot 2 []) 7 st2.
Proof.
  apply (move_preserves_subscription (scene []) 10 [13] 12 [11] (λ _, []) 14
           (Some 10) 2 7).
  - apply scene_rep.
  - compute_done.
  - reflexivity.
  - apply scene_plain.
  - simpl. lia.
Defined.

(** The storage a connection was moved to has no [parent]: neither move
    writes the field.  [disconnect] and the destructor only compare the
    position it gives.  In front of another connection the storage is
    unlinked as usual; at the tail the comparison with the end of the signal
    fails, and a walker parked on the storage is spliced into [asit->lst]
    where [asit] is the root of the signal. *)
Lemma moved_connection_has_no_parent :
  (∃ st1 st', move_construct 14 12 (scene []) = Ok st1
     ∧ conns st1 !! 14 = Some (Conn None (Some (Slot 2 [])))
     ∧ disconnect 14 st1 = Ok st'
     ∧ clinks st' !! 14 = Some (ListElement None None)
     ∧ clinks st' !! 13 = Some (ListElement (Some 11) (Some 10)))
  ∧ (∃ st2 st3, move_assign 14 11 (default_connection 14 (scene [])) = Ok st2
       ∧ conns st2 !! 14 = Some (Conn None (Some (Slot 1 [])))
       ∧ plant 14 st2 = Ok st3
       ∧ disconnect 14 st3 = Fault
       ∧ destroy_connection 14 st3 = Fault).
Proof. split; eexists; eexists; split_and!; vm_compute; reflexivity. Qed.

(** A move of the connection being visited, made by its own callback,
    ends the emission in progress: the walker is carried over with [held]
    rewritten but not marked [deleted], so the step advances from the old
    storage, whose [next] is null by then.  Here the connection 11, still
    linked behind the new storage 14, is not visited. *)
Lemma move_of_visited_connection_ends_emission :
  ∃ st', emit 6 10 (default_connection 14 (scene [OpMove 14 12])) = Ok (Normal, st')
    ∧ trace st' = [3; 2]
    ∧ clinks st' !! 14 = Some (ListElement (Some 11) (Some 13))
    ∧ clinks st' !! 12 = Some (ListElement None None).
Proof. eexists. split_and!; vm_compute; reflexivity. Qed.

(** C7 (amended): for connections that hold the address of their signal in
    [parent], the destructor of a linked connection and the destructor of a
    signal whose connections are still linked return without fault and
    leave every link field and every walker null or pointing at live
    storage.  After the connection is gone the heap still represents the
    signal with the remaining connections.  After the signal is gone its
    connections are unlinked and still hold its address, which a later
    [disconnect] or destructor call on any of them compares but never
    dereferences: both return without fault. *)
Theorem destruction_leaves_links_sound st s L W :
  rep st s L W → tidy st s L W → (∀ c, c ∈ L → knows st c s) →
  (∀ c, c ∈ L →
     ∃ st' W', destroy_connection c st = Ok st'
       ∧ rep st' s (without c L) W' ∧ links_closed st'
       ∧ clinks st' !! c = None ∧ wlinks st' !! WRoot c = None
       ∧ conns st' !! c = None)
  ∧ (∃ st', destroy_signal s st = Ok st'
       ∧ links_closed st' ∧ clinks st' !! s = None ∧ orphans st' s L W
       ∧ ∀ c, c ∈ L →
           (∃ st1, disconnect c st' = Ok st1 ∧ orphans st1 s L (<[c := []]> W))
           ∧ (∃ st2, destroy_connection c st' = Ok st2
                ∧ orphans st2 s (without c L) W
                ∧ clinks st2 !! c = None ∧ wlinks st2 !! WRoot c = None
                ∧ conns st2 !! c = None)).
Proof.
  intros Hr Ht Hkn. split.
  - intros c Hc. pose proof (dlist_NoDup _ _ _ (rep_conns _ _ _ _ Hr)) as Hnd.
    apply NoDup_cons in Hnd as [_ Hnd].
    apply list_elem_of_split in Hc as (L1 & L2 & ->).
    destruct (destroy_connection_closed s st L1 c L2 W Hr Ht) as (st' & Hde & Hr' & Hrest).
    { apply Hkn. apply elem_of_app. right. by apply elem_of_cons; left. }
    exists st', (redirect W c L2). rewrite without_mid by done.
    split; [done|]. split; [done|]. exact Hrest.
  - destruct (destroy_signal_orphans s st L W Hr Hkn)
      as (st' & Hde & Ho & Hs & Hfr & Ewl & Ewa & Eco).
    exists st'. split_and!; try done.
    + destruct Ht as (Ht1 & Ht2 & Ht3). split_and!.
      * intros a e He. destruct (decide (a ∈ s :: L)) as [Ha|Ha].
        -- apply elem_of_cons in Ha as [->|Ha]; [congruence|].
           rewrite (orph_links _ _ _ _ Ho a Ha) in He. by injection He as <-.
        -- pose proof He as He'. rewrite (Hfr a Ha) in He.
           destruct (Ht1 a e He) as [?|[->| ->]]; [done|done|]. simpl. by rewrite He'.
      * rewrite Ewl. by apply (wlinks_closed s st L W).
      * rewrite Ewa. intros d w Hw. pose proof (Ht3 d w Hw) as Hex.
        apply Exists_exists in Hex as (c & Hc & Hd).
        destruct (rep_held _ _ _ _ Hr c d Hc Hd) as [b Hb].
        rewrite Hw in Hb. injection Hb as ->. simpl.
        by rewrite (orph_links _ _ _ _ Ho c Hc).
    + intros c Hc. split.
      * destruct (disconnect_orphan s st' L W c Ho Hc) as (st1 & Hdis & Ho1 & _). eauto.
      * destruct (destroy_orphan s st' L W c Ho Hc) as (st2 & Hd2 & Hrest). eauto.
Qed.

(** On the running example. *)
Lemma destruction_leaves_links_sound_witness :
  (∀ c, c ∈ [13; 12; 11] →
     ∃ st' W', destroy_connection c (scene []) = Ok st'
       ∧ rep st' 10 (without c [13; 12; 11]) W' ∧ links_closed st'
       ∧ clinks st' !! c = None ∧ wlinks st' !! WRoot c = None
       ∧ conns st' !! c = None)
  ∧ (∃ st', destroy_signal 10 (scene []) = Ok st'
       ∧ links_closed st' ∧ clinks st' !! 10 = None
       ∧ orphans st' 10 [13; 12; 11] (λ _, [])
       ∧ ∀ c, c ∈ [13; 12; 11] →
           (∃ st1, disconnect c st' = Ok st1
              ∧ orphans st1 10 [13; 12; 11] (<[c := []]> (λ _, [])))
           ∧ (∃ st2, destroy_connection c st' = Ok st2
                ∧ orphans st2 10 (without c [13; 12; 11]) (λ _, [])
                ∧ clinks st2 !! c = None ∧ wlinks st2 !! WRoot c = None
                ∧ conns st2 !! c = None)).
Proof.
  apply (destruction_leaves_links_sound (scene []) 10 [13; 12; 11] (λ _, [])).
  - apply scene_rep.
  - apply scene_tidy.
  - apply scene_knows.
Defined.

(** C7, as stated, fails for the [parent] field: after the signal at
    address 10 is destroyed, the connection 11 still holds that address. *)
Lemma signal_destruction_leaves_parent :
  ∃ st', destroy_signal 10 (scene []) = Ok st'
    ∧ conns st' !! 11 = Some (Conn (Some 10) (Some (Slot 1 [])))
    ∧ clinks st' !! 10 = None
    ∧ ¬ no_dangling st'.
Proof.
  destruct (destroy_signal_orphans 10 (scene []) _ _ (scene_rep []) (scene_knows []))
    as (st' & Hde & _ & Hs & _ & _ & _ & Eco).
  assert (conns st' !! 11 = Some (Conn (Some 10) (Some (Slot 1 [])))) as Hk.
  { by rewrite Eco. }
  exists st'. split_and!; try done.
  intros [_ Hp]. specialize (Hp 11 _ Hk). simpl in Hp. rewrite Hs in Hp.
  by destruct Hp.
Qed.

(** C8: when a callback throws, the walker of the step is retired as on a
    normal return, the heap still represents the signal, [emit] returns the
    exception to its caller, and no later connection is visited. *)
Theorem callback_failure st s pre k rest W oX p idk fuel :
  rep st s (pre ++ k :: rest) W →
  (∀ c, c ∈ pre → plain st c) →
  (∀ X, oX = Some X → X ∈ pre ++ k :: rest ∧ knows st X s) →
  conns st !! k = Some (Conn p (Some (Slot idk (throwing oX)))) →
  length pre + 5 ≤ fuel →
  ∃ st' W',
    emit fuel s st = Ok (Thrown, st')
    ∧ trace st' = trace st ++ (slot_id st <$> pre) ++ [idk]
    ∧ rep st' s (match oX with
                 | Some X => without X (pre ++ k :: rest)
                 | None => pre ++ k :: rest
                 end) W'
    ∧ depth st' = depth st
    ∧ wlinks st' !! WNode (depth st) = None
    ∧ walkers st' !! depth st = None.
Proof.
  intros Hr Hpl HX Hk Hfuel.
  destruct fuel as [|fuel]; [lia|].
  rewrite (emit_entry s st _ W fuel Hr) by lia.
  replace fuel with (length pre + (fuel - length pre)) by lia.
  assert (hd s (pre ++ k :: rest) = hd s (pre ++ [k])) as ->.
  { by destruct pre. }
  replace (pre ++ k :: rest) with ([] ++ pre ++ k :: rest) in Hr by done.
  assert (hd s (pre ++ [k]) = hd s (pre ++ k :: rest)) as -> by (by destruct pre).
  rewrite (quiet_prefix s pre [] (k :: rest) st W _ Hr); [| |lia].
  2:{ intros c Hc. by apply plain_inert, Hpl. }
  simpl hd. simpl in Hr.
  set (st0 := with_trace (trace st ++ (slot_id st <$> pre)) st).
  assert (rep st0 s (pre ++ k :: rest) W) as Hr0 by (by apply rep_with_trace).
  assert (k ∈ pre ++ k :: rest) as Hkin.
  { apply elem_of_app. right. by apply elem_of_cons; left. }
  destruct (fuel - length pre) as [|[|[|fuel']]] eqn:Ef; try lia.
  rewrite emit_loop_unfold, bool_decide_eq_false_2.
  2:{ unfold end_. intros [= ->]. by apply (rep_not_root s st _ W s Hr). }
  simpl.
  destruct oX as [X|]; simpl in Hk.
  - destruct (HX X eq_refl) as [HXin HXkn].
    destruct (plant_disconnect s st0 pre k rest W X (trace st0 ++ [idk]) Hr0 HXin HXkn)
      as (st1 & st2 & W2 & Hpl1 & Hdis & Hr2 & Hdep & Hwhere & Hadv & Eco & Efl & Etr).
    destruct (retire_rep s st2 _ W2 (depth st) Hr2 Hdep Hwhere)
      as (st3 & W3 & Hret & Hr3 & Ecl3 & Eco3 & Efl3 & Etr3 & Edep3).
    destruct (plant_rep s st0 _ W k Hr0 Hkin)
      as (st1' & Hpl1' & _ & _ & _ & Eco1 & _ & Etr1 & _).
    rewrite Hpl1 in Hpl1'. injection Hpl1' as <-.
    rewrite Hpl1. simpl. rewrite Eco1. simpl. rewrite Hk. simpl.
    rewrite run_ops_cons, Etr1, Hdis. simpl. rewrite ?run_ops_cons. simpl.
    rewrite Hret. simpl. exists st3, W3. split_and!; try done.
    + rewrite Etr3, Etr. simpl. by rewrite <-app_assoc.
    + destruct (rep_free _ _ _ _ Hr3 (depth st)) as [? _]; [lia|done].
    + destruct (rep_free _ _ _ _ Hr3 (depth st)) as [_ ?]; [lia|done].
  - destruct (plant_rep s st0 _ W k Hr0 Hkin)
      as (st1 & Hpl1 & _ & _ & Ecl1 & Eco1 & Efl1 & Etr1 & Ewa1).
    rewrite Hpl1. simpl. rewrite Eco1. simpl. rewrite Hk. simpl.
    rewrite ?run_ops_cons. simpl.
    erewrite (plant_retire s st0 _ W k st1); [|done..].
    simpl. eexists _, W. split; [done|]. simpl. split_and!; try done.
    + rewrite Etr1. unfold st0. simpl. by rewrite <-app_assoc.
    + split; simpl; apply Hr.
    + destruct (rep_free _ _ _ _ Hr (depth st)) as [? _]; [lia|done].
    + destruct (rep_free _ _ _ _ Hr (depth st)) as [_ ?]; [lia|done].
Qed.

(** On the running example, for the two shapes of a throwing callback. *)
Lemma callback_failure_witness :
  (* the callback of 12 throws *)
  (∃ st' W',
     emit 6 10 (scene [OpThrow]) = Ok (Thrown, st')
     ∧ trace st' = [3; 2] ∧ rep st' 10 [13; 12; 11] W'
     ∧ depth st' = 0 ∧ wlinks st' !! WNode 0 = None ∧ walkers st' !! 0 = None)
  (* the callback of 12 disconnects 12, then throws *)
  ∧ (∃ st' W',
       emit 6 10 (scene [OpDisconnect 12; OpThrow]) = Ok (Thrown, st')
       ∧ trace st' = [3; 2] ∧ rep st' 10 [13; 11] W'
       ∧ depth st' = 0 ∧ wlinks st' !! WNode 0 = None ∧ walkers st' !! 0 = None).
Proof.
  split.
  - apply (callback_failure (scene [OpThrow]) 10 [13] 12 [11] (λ _, []) None
             (Some 10) 2 6).
    + apply scene_rep.
    + intros c Hc. apply scene_plain. revert Hc.
      intros ->%list_elem_of_singleton. compute_done.
    + intros X [=].
    + reflexivity.
    + simpl. lia.
  - apply (callback_failure (scene [OpDisconnect 12; OpThrow]) 10 [13] 12 [11]
             (λ _, []) (Some 12) (Some 10) 2 6).
    + apply scene_rep.
    + intros c Hc. apply scene_plain. revert Hc.
      intros ->%list_elem_of_singleton. compute_done.
    + intros X [= <-]. split; [compute_done|by eexists].
    + reflexivity.
    + simpl. lia.
Defined.

(** C9: a second [disconnect] returns the very same state. *)
Theorem disconnect_idempotent st s L W c :
  rep st s L W → c ∈ L → knows st c s →
  ∃ st', disconnect c st = Ok st' ∧ disconnect c st' = Ok st'.
Proof.
  intros Hr Hc Hkn. apply list_elem_of_split in Hc as (L1 & L2 & ->).
  destruct (disconnect_rep s st L1 c L2 W Hr Hkn)
    as (st' & Hdis & _ & Hcl & Hw & _ & _ & _ & _ & Eco & _).
  exists st'. split; [done|]. destruct Hkn as [sl Hk].
  apply (disconnect_unlinked st' c s sl); [done|done|by rewrite Eco].
Qed.

(** On the running example. *)
Lemma disconnect_idempotent_witness :
  ∃ st', disconnect 12 (scene []) = Ok st' ∧ disconnect 12 st' = Ok st'.
Proof.
  apply (disconnect_idempotent (scene []) 10 [13; 12; 11] (λ _, []) 12).
  - apply scene_rep.
  - compute_done.
  - by eexists.
Defined.

(** C10: whether the emission in progress visits a connection added by a
    callback depends only on where it was linked.  Inserted through the
    public list of the signal, it is visited exactly when it was placed
    behind the connection [k] being visited; connected through [connect],
    it lands at the front and is visited by later emissions only. *)
Theorem added_connections_positional st s pre k rest W n fuel :
  rep st s (pre ++ k :: rest) W →
  n ∉ s :: pre ++ k :: rest →
  length (pre ++ k :: rest) + 6 ≤ fuel →
  (∀ A B p idk,
      A ++ B = pre ++ k :: rest →
      clinks st !! n = Some (ListElement None None) →
      dlist (wlinks st) (WRoot n) [] →
      conns st !! k = Some (Conn p (Some (Slot idk [OpInsert s (hd s B) n]))) →
      (∀ c, c ∈ after k (A ++ n :: B) → plain st c) →
      ∃ st' W',
        emit_loop fuel s (Some k) st = Ok (Normal, st')
        ∧ trace st' = trace st ++ idk :: (slot_id st <$> after k (A ++ n :: B))
        ∧ rep st' s (A ++ n :: B) W'
        ∧ (n ∈ after k (A ++ n :: B) ↔ k ∈ A))
  ∧ (∀ f p idk idn,
      f ∉ flags st →
      conns st !! k
        = Some (Conn p (Some (Slot idk [OpOnce f [OpConnect s n idn []]]))) →
      (∀ c, c ∈ pre ++ rest → plain st c) →
      ∃ st' W',
        emit_loop fuel s (Some k) st = Ok (Normal, st')
        ∧ trace st' = trace st ++ idk :: (slot_id st <$> rest)
        ∧ rep st' s (n :: pre ++ k :: rest) W'
        ∧ emit fuel s st'
            = Ok (Normal,
                  with_trace (trace st' ++ idn :: (slot_id st <$> pre ++ k :: rest))
                    st')).
Proof.
  intros Hr Hn Hfuel. split.
  - intros A B p idk Heq Hcl Hw Hk Hpl. rewrite <-Heq in Hr, Hn, Hfuel.
    apply (insert_during_emission s st A B k W n p idk fuel); try done.
    + rewrite Heq. apply elem_of_app. right. by apply elem_of_cons; left.
    + lia.
  - intros f p idk idn Hf Hk Hpl.
    by apply (connect_during_emission s st pre k rest W n f p idk idn fuel fuel).
Qed.

(** On the running example, with a fourth connection at the address 14. *)
Lemma added_connections_positional_witness :
  (* 14 is inserted in front of 11, among the connections still to be visited *)
  (∃ st' W',
     emit_loop 9 10 (Some 12)
       (new_connection 14 (Some 10) (Some (Slot 4 [])) (scene [OpInsert 10 11 14]))
       = Ok (Normal, st')
     ∧ trace st' = [2; 4; 1] ∧ rep st' 10 [13; 12; 14; 11] W'
     ∧ (14 ∈ [14; 11] ↔ 12 ∈ [13; 12]))
  (* 14 is inserted in front of 13, among the connections already visited *)
  ∧ (∃ st' W',
       emit_loop 9 10 (Some 12)
         (new_connection 14 (Some 10) (Some (Slot 4 [])) (scene [OpInsert 10 13 14]))
         = Ok (Normal, st')
       ∧ trace st' = [2; 1] ∧ rep st' 10 [14; 13; 12; 11] W'
       ∧ (14 ∈ [11] ↔ 12 ∈ []))
  (* 14 is connected by the callback of 12 *)
  ∧ (∃ st' W',
       emit_loop 9 10 (Some 12) (scene [OpOnce 0 [OpConnect 10 14 4 []]])
         = Ok (Normal, st')
       ∧ trace st' = [2; 1] ∧ rep st' 10 [14; 13; 12; 11] W'
       ∧ emit 9 10 st' = Ok (Normal, with_trace (trace st' ++ [4; 3; 2; 1]) st')).
Proof.
  assert (14 ∉ 10 :: [13] ++ 12 :: [11]) as Hfresh by compute_done.
  assert (∀ b, rep (new_connection 14 (Some 10) (Some (Slot 4 [])) (scene b)) 10
                 ([13] ++ 12 :: [11]) (λ _, [])
               ∧ clinks (new_connection 14 (Some 10) (Some (Slot 4 [])) (scene b)) !! 14
                 = Some (ListElement None None)
               ∧ dlist (wlinks (new_connection 14 (Some 10) (Some (Slot 4 [])) (scene b)))
                   (WRoot 14) []) as Hspare.
  { intros b. apply rep_new_connection; [apply scene_rep|compute_done]. }
  split_and!.
  - destruct (Hspare [OpInsert 10 11 14]) as (Hr & Hl & Hw).
    destruct (added_connections_positional _ 10 [13] 12 [11] (λ _, []) 14 9 Hr
                Hfresh ltac:(simpl; lia)) as [Hins _].
    apply (Hins [13; 12] [11] (Some 10) 2); try done.
    intros c Hc. vm_compute (after _ _) in Hc.
    repeat (apply elem_of_cons in Hc as [->|Hc]);
      [by eexists _, _..|by apply elem_of_nil in Hc].
  - destruct (Hspare [OpInsert 10 13 14]) as (Hr & Hl & Hw).
    destruct (added_connections_positional _ 10 [13] 12 [11] (λ _, []) 14 9 Hr
                Hfresh ltac:(simpl; lia)) as [Hins _].
    apply (Hins [] [13; 12; 11] (Some 10) 2); try done.
    intros c Hc. vm_compute (after _ _) in Hc.
    repeat (apply elem_of_cons in Hc as [->|Hc]);
      [by eexists _, _..|by apply elem_of_nil in Hc].
  - destruct (added_connections_positional (scene [OpOnce 0 [OpConnect 10 14 4 []]])
                10 [13] 12 [11] (λ _, []) 14 9 (scene_rep _)
                Hfresh ltac:(simpl; lia)) as [_ Hcon].
    apply (Hcon 0 (Some 10) 2 4); [compute_done|done|apply scene_plain].
Defined.

(** * Further properties of the code *)

(** ** The remaining list operations *)

Section more_list_facts.
Context {K : Type} `{Countable K}.
Implicit Types (h : gmap K (list_element K)) (a b x y r v : K) (xs L : list K).

Lemma elem_mid (L1 L2 : list K) (x : K) : x ∈ L1 ++ x :: L2.
Proof. apply elem_of_app. right. by apply elem_of_cons; left. Qed.

Lemma hd_in r L1 L2 : hd r L2 ∈ r :: L1 ++ L2.
Proof.
  pose proof (hd_elem L2 r) as Hl. apply elem_of_cons.
  apply elem_of_app in Hl as [Hl|Hl%list_elem_of_singleton]; [right|by left].
  apply elem_of_app. by right.
Qed.

Lemma last_or_in r L1 L2 : last_or L1 r ∈ r :: L1 ++ L2.
Proof.
  pose proof (last_or_elem L1 r) as Hl. apply elem_of_cons.
  apply elem_of_cons in Hl as [Hl|Hl]; [by left|right]. apply elem_of_app. by left.
Qed.

End more_list_facts.

(** X1: Inserting [v] before a position of a well-formed list, the end position
    included, gives the well-formed list with [v] at that position.  The
    call writes the two fields of [v], the [next] field of the predecessor
    and the [prev] field of the position; every other element is unchanged. *)
Theorem insert_links_before_position {K} `{Countable K}
    (h : gmap K (list_element K)) (r : K) (L1 L2 : list K) (v : K) :
  dlist h r (L1 ++ L2) → v ∉ r :: L1 ++ L2 → is_Some (h !! v) →
  ∃ h', insert (Some (hd r L2)) v h = Ok h'
    ∧ dlist h' r (L1 ++ v :: L2)
    ∧ h' !! v = Some (ListElement (Some (hd r L2)) (Some (last_or L1 r)))
    ∧ (∀ y, y ≠ v → y ≠ last_or L1 r → nxt h' y = nxt h y)
    ∧ (∀ y, y ≠ v → y ≠ hd r L2 → prv h' y = prv h y)
    ∧ (∀ y, y ≠ v → y ≠ last_or L1 r → y ≠ hd r L2 → h' !! y = h !! y).
Proof.
  intros Hd Hv Hal.
  destruct (dlist_insert h r L1 L2 v Hd Hv Hal) as (h' & Hin & Hd' & Hfn & Hfp).
  exists h'. split_and!; try done.
  - apply lookup_nxt_prv; [by eapply dlist_nxt|by eapply dlist_prv].
  - intros y ? ? ?. apply lookup_frame; [by apply Hfn|by apply Hfp].
Qed.

Ltac dlist_by_computation :=
  split; [compute_done|simpl; repeat constructor; vm_compute; reflexivity].

(** [two_lists] is built by the list operations from unlinked elements. *)
Lemma two_lists_built :
  let h0 : gmap nat (list_element nat) :=
    list_init 40 (list_init 20 (list_init 10
      (gset_to_gmap (ListElement None None) {[11; 12; 13; 21; 22; 30; 31]}))) in
  (h ← push_back 10 11 h0; h ← push_back 10 13 h; h ← insert (Some 13) 12 h;
   h ← push_front 20 22 h; push_front 20 21 h) = Ok two_lists.
Proof. vm_compute. reflexivity. Qed.

Lemma two_lists_fst : dlist two_lists 10 [11; 12; 13].
Proof. dlist_by_computation. Qed.

Lemma two_lists_snd : dlist two_lists 20 [21; 22].
Proof. dlist_by_computation. Qed.

Lemma two_lists_nil : dlist two_lists 40 [].
Proof. dlist_by_computation. Qed.

(** The element 30 is inserted before 12, before the first element and
    before the end of the list rooted at 10. *)
Lemma insert_links_before_position_witness :
  (∃ h', insert (Some 12) 30 two_lists = Ok h' ∧ dlist h' 10 [11; 30; 12; 13]
     ∧ h' !! 30 = Some (ListElement (Some 12) (Some 11)))
  ∧ (∃ h', insert (Some 10) 30 two_lists = Ok h' ∧ dlist h' 10 [11; 12; 13; 30]
       ∧ h' !! 30 = Some (ListElement (Some 10) (Some 13)))
  ∧ (∃ h', insert (Some 40) 30 two_lists = Ok h' ∧ dlist h' 40 [30]
       ∧ h' !! 30 = Some (ListElement (Some 40) (Some 40))).
Proof.
  split_and!.
  - destruct (insert_links_before_position two_lists 10 [11] [12; 13] 30)
      as (h' & ? & ? & ? & _); [apply two_lists_fst|compute_done|by eexists|].
    by exists h'.
  - destruct (insert_links_before_position two_lists 10 [11; 12; 13] [] 30)
      as (h' & ? & ? & ? & _); [apply two_lists_fst|compute_done|by eexists|].
    by exists h'.
  - destruct (insert_links_before_position two_lists 40 [] [] 30)
      as (h' & ? & ? & ? & _); [apply two_lists_nil|compute_done|by eexists|].
    by exists h'.
Defined.

Section more_list_facts2.
Context {K : Type} `{Countable K}.
Implicit Types (h : gmap K (list_element K)) (a b x y r v : K) (xs L : list K).

Lemma dlist_cut_adj h r L1 L2 :
  dlist h r (L1 ++ L2) → adj h (last_or L1 r, hd r L2).
Proof.
  intros [_ Hall]. rewrite cycle_cut in Hall.
  apply Forall_app in Hall as (_ & Hall). by apply Forall_cons in Hall as (? & _).
Qed.

Lemma front_ok h r L : dlist h r L → front r h = Ok (hd r L).
Proof.
  intros Hd. unfold front. by rewrite (get_next_ok _ _ _ (dlist_root_nxt _ _ _ Hd)).
Qed.

Lemma back_ok h r L : dlist h r L → back r h = Ok (last_or L r).
Proof.
  intros Hd. unfold back. by rewrite (get_prev_ok _ _ _ (dlist_root_prv _ _ _ Hd)).
Qed.

Lemma last_or_snoc L x a : last_or (L ++ [x]) a = x.
Proof. revert a. induction L as [|y L IH]; intros a; simpl; [done|apply IH]. Qed.

Lemma insert_unlink_restores h r L1 L2 v h1 :
  dlist h r (L1 ++ L2) → v ∉ r :: L1 ++ L2 →
  h !! v = Some (ListElement None None) →
  insert (Some (hd r L2)) v h = Ok h1 →
  unlink v h1 = Ok (Some (hd r L2), h).
Proof.
  intros Hd Hv Hvl Hin.
  destruct (dlist_insert h r L1 L2 v Hd Hv) as (h1' & Hin' & Hd1 & Hfn & Hfp);
    [by eexists|].
  rewrite Hin in Hin'. injection Hin' as <-.
  destruct (dlist_unlink _ _ _ _ _ Hd1) as (h2 & Hun & Hd2 & Hv2 & Hpn & Hnp & Hfn2 & Hfp2).
  rewrite Hun. do 2 f_equal.
  destruct (dlist_cut_adj h r L1 L2 Hd) as [Hpn0 Hnp0]. simpl in Hpn0, Hnp0.
  apply links_eq.
  - intros y. destruct (decide (y = v)) as [->|Hyv].
    { unfold nxt. by rewrite Hv2, Hvl. }
    destruct (decide (y = last_or L1 r)) as [->|Hyl]; [by rewrite Hpn, Hpn0|].
    rewrite Hfn2 by done. by apply Hfn.
  - intros y. destruct (decide (y = v)) as [->|Hyv].
    { unfold prv. by rewrite Hv2, Hvl. }
    destruct (decide (y = hd r L2)) as [->|Hyl]; [by rewrite Hnp, Hnp0|].
    rewrite Hfp2 by done. by apply Hfp.
Qed.

End more_list_facts2.

(** X2: [front] and [back] return the first and the last element; on an empty
    list both return the sentinel itself.  After [push_front] the new
    element is the front, after [push_back] it is the back, and the other
    elements keep their order. *)
Theorem push_front_back_ends {K} `{Countable K}
    (h : gmap K (list_element K)) (r : K) (L : list K) (v : K) :
  dlist h r L → v ∉ r :: L → is_Some (h !! v) →
  front r h = Ok (hd r L) ∧ back r h = Ok (last_or L r)
  ∧ (∃ hf, push_front r v h = Ok hf ∧ dlist hf r (v :: L) ∧ front r hf = Ok v)
  ∧ (∃ hb, push_back r v h = Ok hb ∧ dlist hb r (L ++ [v]) ∧ back r hb = Ok v).
Proof.
  intros Hd Hv Hal. split_and!.
  - by apply front_ok.
  - by apply back_ok.
  - destruct (dlist_insert h r [] L v Hd Hv Hal) as (hf & Hin & Hd' & _).
    exists hf. unfold push_front, begin.
    rewrite (get_next_ok _ _ _ (dlist_root_nxt _ _ _ Hd)). simpl.
    split_and!; [done|done|]. by rewrite (front_ok _ _ _ Hd').
  - assert (dlist h r (L ++ [])) as Hd0 by (by rewrite app_nil_r).
    assert (v ∉ r :: L ++ []) as Hv0 by (by rewrite app_nil_r).
    destruct (dlist_insert h r L [] v Hd0 Hv0 Hal) as (hb & Hin & Hd' & _).
    exists hb. unfold push_back, end_. split_and!; [done|done|].
    by rewrite (back_ok _ _ _ Hd'), last_or_snoc.
Qed.

Lemma push_front_back_ends_witness :
  front 10 two_lists = Ok 11 ∧ back 10 two_lists = Ok 13
  ∧ (∃ hf, push_front 10 30 two_lists = Ok hf ∧ dlist hf 10 [30; 11; 12; 13]
       ∧ front 10 hf = Ok 30)
  ∧ (∃ hb, push_back 10 30 two_lists = Ok hb ∧ dlist hb 10 [11; 12; 13; 30]
       ∧ back 10 hb = Ok 30).
Proof.
  apply (push_front_back_ends two_lists 10 [11; 12; 13] 30).
  - apply two_lists_fst.
  - compute_done.
  - by eexists.
Defined.

(** X3: Inserting an unlinked element anywhere in a well-formed list and then
    erasing it gives back the very same heap, and [erase] returns the
    position the element was inserted before.  For the two ends:
    [push_front] then [pop_front], and [push_back] then [pop_back]. *)
Theorem insert_erase_round_trip {K} `{Countable K}
    (h : gmap K (list_element K)) (r : K) (L1 L2 : list K) (v : K) :
  dlist h r (L1 ++ L2) → v ∉ r :: L1 ++ L2 →
  h !! v = Some (ListElement None None) →
  ∃ h1, insert (Some (hd r L2)) v h = Ok h1
    ∧ erase (Some v) h1 = Ok (Some (hd r L2), h)
    ∧ (L1 = [] → push_front r v h = Ok h1 ∧ pop_front r h1 = Ok h)
    ∧ (L2 = [] → push_back r v h = Ok h1 ∧ pop_back r h1 = Ok h).
Proof.
  intros Hd Hv Hvl.
  destruct (dlist_insert h r L1 L2 v Hd Hv) as (h1 & Hin & Hd1 & _); [by eexists|].
  pose proof (insert_unlink_restores h r L1 L2 v h1 Hd Hv Hvl Hin) as Hun.
  exists h1. split_and!; [done| | |].
  - unfold erase. rewrite (get_next_ok _ _ _ (dlist_nxt _ _ _ _ _ Hd1)). simpl.
    by rewrite Hun.
  - intros ->. simpl in *. split.
    + unfold push_front, begin.
      by rewrite (get_next_ok _ _ _ (dlist_root_nxt _ _ _ Hd)).
    + unfold pop_front. rewrite (get_next_ok _ _ _ (dlist_root_nxt _ _ _ Hd1)). simpl.
      by rewrite Hun.
  - intros ->. split; [done|].
    unfold pop_back. rewrite (get_prev_ok _ _ _ (dlist_root_prv _ _ _ Hd1)). simpl.
    rewrite last_or_snoc. by rewrite Hun.
Qed.

Lemma insert_erase_round_trip_witness :
  (∃ h1, insert (Some 12) 30 two_lists = Ok h1
     ∧ erase (Some 30) h1 = Ok (Some 12, two_lists))
  ∧ (∃ h1, push_front 10 30 two_lists = Ok h1 ∧ pop_front 10 h1 = Ok two_lists)
  ∧ (∃ h1, push_back 10 30 two_lists = Ok h1 ∧ pop_back 10 h1 = Ok two_lists).
Proof.
  split_and!.
  - destruct (insert_erase_round_trip two_lists 10 [11] [12; 13] 30)
      as (h1 & ? & ? & _); [apply two_lists_fst|compute_done|reflexivity|].
    by exists h1.
  - destruct (insert_erase_round_trip two_lists 10 [] [11; 12; 13] 30)
      as (h1 & _ & _ & Hf & _); [apply two_lists_fst|compute_done|reflexivity|].
    exists h1. by apply Hf.
  - destruct (insert_erase_round_trip two_lists 10 [11; 12; 13] [] 30)
      as (h1 & _ & _ & _ & Hb); [apply two_lists_fst|compute_done|reflexivity|].
    exists h1. by apply Hb.
Defined.

(** X4: On a list that is not empty, [pop_front] unlinks the first element and
    [pop_back] the last one: the rest stays a well-formed list in the same
    order, the removed element has null links, and nothing else is touched
    besides its two neighbours. *)
Theorem pop_removes_the_ends {K} `{Countable K}
    (h : gmap K (list_element K)) (r x z : K) (L L' : list K) :
  dlist h r (x :: L) → dlist h r (L' ++ [z]) →
  (∃ hf, pop_front r h = Ok hf ∧ dlist hf r L
     ∧ hf !! x = Some (ListElement None None)
     ∧ (∀ y, y ≠ x → y ≠ r → y ≠ hd r L → hf !! y = h !! y))
  ∧ (∃ hb, pop_back r h = Ok hb ∧ dlist hb r L'
       ∧ hb !! z = Some (ListElement None None)
       ∧ (∀ y, y ≠ z → y ≠ last_or L' r → y ≠ r → hb !! y = h !! y)).
Proof.
  intros Hf Hb. split.
  - destruct (dlist_unlink h r [] x L Hf) as (hf & Hun & Hd & Hx & _ & _ & Hfn & Hfp).
    exists hf. unfold pop_front.
    rewrite (get_next_ok _ _ _ (dlist_root_nxt _ _ _ Hf)). simpl. rewrite Hun. simpl.
    split_and!; try done.
    intros y ? ? ?. apply lookup_frame; [by apply Hfn|by apply Hfp].
  - destruct (dlist_unlink h r L' z [] Hb) as (hb & Hun & Hd & Hz & _ & _ & Hfn & Hfp).
    rewrite app_nil_r in Hd. exists hb. unfold pop_back.
    rewrite (get_prev_ok _ _ _ (dlist_root_prv _ _ _ Hb)). simpl.
    rewrite last_or_snoc. rewrite Hun. simpl. split_and!; try done.
    intros y ? ? ?. apply lookup_frame; [by apply Hfn|by apply Hfp].
Qed.

Lemma pop_removes_the_ends_witness :
  (∃ hf, pop_front 10 two_lists = Ok hf ∧ dlist hf 10 [12; 13]
     ∧ hf !! 11 = Some (ListElement None None)
     ∧ (∀ y, y ≠ 11 → y ≠ 10 → y ≠ 12 → hf !! y = two_lists !! y))
  ∧ (∃ hb, pop_back 10 two_lists = Ok hb ∧ dlist hb 10 [11; 12]
       ∧ hb !! 13 = Some (ListElement None None)
       ∧ (∀ y, y ≠ 13 → y ≠ 12 → y ≠ 10 → hb !! y = two_lists !! y)).
Proof.
  apply (pop_removes_the_ends two_lists 10 11 13 [12; 13] [11; 12]);
    apply two_lists_fst.
Defined.

(** X5: [pop_front] and [pop_back] do not check for emptiness: on an empty
    list they unlink the sentinel from itself.  The list is broken from
    then on: [empty] answers false, [begin] is the null iterator, and
    [push_front], [push_back] and [clear] dereference a null pointer. *)
Theorem pop_on_empty_list_unlinks_the_sentinel {K} `{Countable K}
    (h : gmap K (list_element K)) (r : K) :
  dlist h r [] →
  pop_front r h = Ok (<[r := ListElement None None]> h)
  ∧ pop_back r h = Ok (<[r := ListElement None None]> h)
  ∧ empty r (<[r := ListElement None None]> h) = Ok false
  ∧ begin r (<[r := ListElement None None]> h) = Ok None
  ∧ (∀ v, push_front r v (<[r := ListElement None None]> h) = Fault)
  ∧ (∀ v, push_back r v (<[r := ListElement None None]> h) = Fault)
  ∧ clear r (<[r := ListElement None None]> h) = Fault.
Proof.
  intros Hd. pose proof (dlist_nil_inv _ _ Hd) as Hr.
  assert (get_next (<[r := ListElement None None]> h) (Some r) = Ok None) as Hn.
  { unfold get_next. simpl. by rewrite lookup_insert_eq. }
  assert (get_prev (<[r := ListElement None None]> h) (Some r) = Ok None) as Hp.
  { unfold get_prev. simpl. by rewrite lookup_insert_eq. }
  split_and!.
  - unfold pop_front, get_next. simpl. rewrite Hr. simpl.
    by rewrite (unlink_self _ _ Hr).
  - unfold pop_back, get_prev. simpl. rewrite Hr. simpl.
    by rewrite (unlink_self _ _ Hr).
  - unfold empty. by rewrite Hn.
  - done.
  - intros v. unfold push_front, begin. rewrite Hn. done.
  - intros v. unfold push_back, end_, insert. rewrite Hp. done.
  - unfold clear, empty. rewrite Hn. simpl. by rewrite Hp.
Qed.

Lemma pop_on_empty_list_unlinks_the_sentinel_witness :
  pop_front 40 two_lists = Ok (<[40 := ListElement None None]> two_lists)
  ∧ pop_back 40 two_lists = Ok (<[40 := ListElement None None]> two_lists)
  ∧ empty 40 (<[40 := ListElement None None]> two_lists) = Ok false
  ∧ begin 40 (<[40 := ListElement None None]> two_lists) = Ok None
  ∧ (∀ v, push_front 40 v (<[40 := ListElement None None]> two_lists) = Fault)
  ∧ (∀ v, push_back 40 v (<[40 := ListElement None None]> two_lists) = Fault)
  ∧ clear 40 (<[40 := ListElement None None]> two_lists) = Fault.
Proof. apply (pop_on_empty_list_unlinks_the_sentinel two_lists 40), two_lists_nil. Defined.

(** X6: [clear] empties a well-formed list: the root is linked to itself,
    every former member has null links, nothing else is touched, and the
    loop ends within the size of the heap.  On an empty list it changes
    nothing. *)
Theorem clear_unlinks_every_member {K} `{Countable K}
    (h : gmap K (list_element K)) (r : K) (L : list K) :
  dlist h r L →
  ∃ h', clear r h = Ok h'
    ∧ dlist h' r [] ∧ empty r h' = Ok true
    ∧ (∀ y, y ∈ L → h' !! y = Some (ListElement None None))
    ∧ (∀ y, y ∉ r :: L → h' !! y = h !! y)
    ∧ (L = [] → h' = h)
    ∧ clear r h' = Ok h'.
Proof.
  intros Hd. destruct (dlist_clear h r L Hd) as (h' & Hcl & Hnil & Hin & Hout).
  exists h'. split_and!; try done.
  - unfold empty. rewrite (get_next_ok _ _ _ (dlist_root_nxt _ _ _ Hnil)). simpl.
    by rewrite bool_decide_eq_true_2.
  - intros ->. rewrite (clear_empty _ _ Hd) in Hcl. by injection Hcl as <-.
  - by apply clear_empty.
Qed.

Lemma clear_unlinks_every_member_witness :
  ∃ h', clear 10 two_lists = Ok h'
    ∧ dlist h' 10 [] ∧ empty 10 h' = Ok true
    ∧ (∀ y, y ∈ [11; 12; 13] → h' !! y = Some (ListElement None None))
    ∧ (∀ y, y ∉ 10 :: [11; 12; 13] → h' !! y = two_lists !! y)
    ∧ ([11; 12; 13] = [] → h' = two_lists)
    ∧ clear 10 h' = Ok h'.
Proof. apply (clear_unlinks_every_member two_lists 10 [11; 12; 13]), two_lists_fst. Defined.

(** ** Splicing and moving lists *)

Section splice_facts.
Context {K : Type} `{Countable K}.
Implicit Types (h : gmap K (list_element K)) (a b x y r v : K) (xs L : list K).

(** [splice] of the range [f .. tl], which sits between [pf] and [la], to
    the place between [pp] and [pos]. *)
Lemma splice_range h pf f tl la pp pos :
  adj h (pf, f) → adj h (tl, la) → adj h (pp, pos) →
  f ≠ pf → f ≠ la → f ≠ pp → f ≠ pos →
  tl ≠ pf → tl ≠ la → tl ≠ pp → tl ≠ pos →
  pf ≠ pp → pf ≠ pos → la ≠ pp → la ≠ pos →
  ∃ h', splice (Some pos) (Some f) (Some la) h = Ok h'
    ∧ adj h' (pf, la) ∧ adj h' (pp, f) ∧ adj h' (tl, pos)
    ∧ (∀ y, y ≠ pf → y ≠ pp → y ≠ tl → nxt h' y = nxt h y)
    ∧ (∀ y, y ≠ la → y ≠ f → y ≠ pos → prv h' y = prv h y).
Proof.
  intros [H1 H2] [H3 H4] [H5 H6] ? ? ? ? ? ? ? ? ? ? ? ?. simpl in *.
  apply nxt_Some in H1 as ([pfn pfp] & Hpf & ?).
  apply prv_Some in H2 as ([fn fp] & Hf & ?).
  apply nxt_Some in H3 as ([tn tp] & Ht & ?).
  apply prv_Some in H4 as ([lan lap] & Hla & ?).
  apply nxt_Some in H5 as ([ppn ppp] & Hpp & ?).
  apply prv_Some in H6 as ([posn posp] & Hpos & ?).
  simpl in *. subst. unfold splice, get_prev, get_next.
  rewrite !bool_decide_eq_false_2 by congruence. simpl.
  destruct (decide (pos = pp)) as [->|?]; destruct (decide (f = tl)) as [->|?];
    destruct (decide (pf = la)) as [->|?];
    simplify_eq; heap_red;
    (eexists; split; [done|]); unfold adj;
    repeat split; intros; field_red.
Qed.

Lemma Forall_adj_keep h h' (P : list (K * K)) (F1 F2 : list K) :
  (∀ y, y ∉ F1 → nxt h' y = nxt h y) →
  (∀ y, y ∉ F2 → prv h' y = prv h y) →
  (∀ y, y ∈ P.*1 → y ∉ F1) → (∀ y, y ∈ P.*2 → y ∉ F2) →
  Forall (adj h) P → Forall (adj h') P.
Proof.
  intros Fn Fp H1 H2. apply Forall_adj_frame.
  - intros y Hy. apply Fn. by apply H1.
  - intros y Hy. apply Fp. by apply H2.
Qed.

Lemma adjs_fsts_in a xs y : y ∈ (adjs a xs).*1 → y ∈ a :: xs.
Proof.
  intros Hy. apply list_elem_of_fmap in Hy as (ab & -> & Hab).
  by apply adjs_fst_elem.
Qed.

Lemma adjs_snds_in a xs y : y ∈ (adjs a xs).*2 → y ∈ xs.
Proof. by rewrite adjs_snd. Qed.

(** The three segments of the neighbour pairs of a list around a range. *)
Lemma cycle_cut3 r L1 f M L2 :
  adjs r ((L1 ++ (f :: M) ++ L2) ++ [r]) =
    adjs r L1 ++ (last_or L1 r, f)
      :: adjs f M ++ (last_or M f, hd r L2) :: adjs (hd r L2) (tail (L2 ++ [r])).
Proof.
  rewrite (cycle_cut r r L1 ((f :: M) ++ L2)). simpl.
  by rewrite (cycle_cut f r M L2).
Qed.

Lemma tail_snoc_in (L : list K) r y : y ∈ tail (L ++ [r]) → y ∈ r :: L.
Proof.
  destruct L as [|x L]; simpl.
  - by intros ?%elem_of_nil.
  - intros [?|?%list_elem_of_singleton]%elem_of_app; apply elem_of_cons.
    + right. by apply elem_of_cons; right.
    + by left.
Qed.

End splice_facts.

(** X7: [splice] moves the range [f :: M] of one well-formed list in front of a
    position of another one, the end position included: the range leaves
    the first list, appears in the second one at that position, and the
    order inside the range and of all other elements is kept.  It writes
    only the fields that link the range to its old and new neighbours.
    With an empty range, or when the position is the first element of the
    range, nothing is written. *)
Theorem splice_moves_the_range {K} `{Countable K}
    (h : gmap K (list_element K)) (r1 : K) (A1 : list K) (f : K) (M A2 : list K)
    (r2 : K) (B1 B2 : list K) :
  dlist h r1 (A1 ++ (f :: M) ++ A2) → dlist h r2 (B1 ++ B2) →
  (∀ y, y ∈ r1 :: A1 ++ (f :: M) ++ A2 → y ∉ r2 :: B1 ++ B2) →
  (∃ h', splice (Some (hd r2 B2)) (Some f) (Some (hd r1 A2)) h = Ok h'
     ∧ dlist h' r1 (A1 ++ A2) ∧ dlist h' r2 (B1 ++ (f :: M) ++ B2)
     ∧ (∀ y, y ∉ [last_or A1 r1; hd r1 A2; f; last_or M f; last_or B1 r2; hd r2 B2] →
          h' !! y = h !! y))
  ∧ (∀ pos it, splice pos it it h = Ok h)
  ∧ (∀ last, splice (Some f) (Some f) last h = Ok h).
Proof.
  intros [HndS HallS] [HndD HallD] Hdisj. split; [|split].
  2:{ intros pos it. unfold splice.
      by rewrite (bool_decide_eq_true_2 (it = it)), orb_true_r by done. }
  2:{ intros last. unfold splice. by rewrite bool_decide_eq_true_2 by done. }
  pose proof (dlist_fst_NoDup _ _ HndS) as HfS.
  pose proof (dlist_snd_NoDup _ _ HndS) as HsS.
  pose proof (dlist_fst_NoDup _ _ HndD) as HfD.
  pose proof (dlist_snd_NoDup _ _ HndD) as HsD.
  assert (∀ y, y ∈ (adjs r1 ((A1 ++ (f :: M) ++ A2) ++ [r1])).*1 →
               y ∈ r1 :: A1 ++ (f :: M) ++ A2) as HinS1.
  { by rewrite adjs_fst. }
  assert (∀ y, y ∈ (adjs r1 ((A1 ++ (f :: M) ++ A2) ++ [r1])).*2 →
               y ∈ r1 :: A1 ++ (f :: M) ++ A2) as HinS2.
  { rewrite adjs_snd. clear. set_solver. }
  assert (∀ y, y ∈ (adjs r2 ((B1 ++ B2) ++ [r2])).*1 → y ∈ r2 :: B1 ++ B2) as HinD1.
  { by rewrite adjs_fst. }
  assert (∀ y, y ∈ (adjs r2 ((B1 ++ B2) ++ [r2])).*2 → y ∈ r2 :: B1 ++ B2) as HinD2.
  { rewrite adjs_snd. clear. set_solver. }
  rewrite cycle_cut3 in HallS, HfS, HsS, HinS1, HinS2.
  rewrite cycle_cut in HallD, HfD, HsD, HinD1, HinD2.
  set (pf := last_or A1 r1) in *. set (tl := last_or M f) in *.
  set (la := hd r1 A2) in *. set (pp := last_or B1 r2) in *.
  set (pos := hd r2 B2) in *.
  set (SA := adjs r1 A1) in *. set (SM := adjs f M) in *.
  set (SB := adjs la (tail (A2 ++ [r1]))) in *.
  set (DA := adjs r2 B1) in *. set (DB := adjs pos (tail (B2 ++ [r2]))) in *.
  rewrite !fmap_app, !fmap_cons, !fmap_app, !fmap_cons in HfS, HsS, HinS1, HinS2.
  rewrite !fmap_app, !fmap_cons in HfD, HsD, HinD1, HinD2.
  simpl in HfS, HsS, HinS1, HinS2, HfD, HsD, HinD1, HinD2.
  apply Forall_app in HallS as (HSA & HallS).
  apply Forall_cons in HallS as (Hpff & HallS).
  apply Forall_app in HallS as (HSM & HallS).
  apply Forall_cons in HallS as (Htlla & HSB).
  apply Forall_app in HallD as (HDA & HallD).
  apply Forall_cons in HallD as (Hpppos & HDB).
  assert (adjs r1 ((A1 ++ A2) ++ [r1]) = SA ++ (pf, la) :: SB) as ES by apply cycle_cut.
  assert (adjs r2 ((B1 ++ (f :: M) ++ B2) ++ [r2])
          = DA ++ (pp, f) :: SM ++ (tl, pos) :: DB) as ED by apply cycle_cut3.
  assert (pf ∈ r1 :: A1) as Hpfin by apply last_or_elem.
  assert (tl ∈ f :: M) as Htlin by apply last_or_elem.
  assert (la ∈ r1 :: A2) as Hlain.
  { pose proof (hd_elem A2 r1) as Hl. apply elem_of_cons.
    apply elem_of_app in Hl as [Hl|Hl%list_elem_of_singleton]; [by right|by left]. }
  assert (pp ∈ r2 :: B1) as Hppin by apply last_or_elem.
  assert (pos ∈ r2 :: B2) as Hposin.
  { pose proof (hd_elem B2 r2) as Hl. apply elem_of_cons.
    apply elem_of_app in Hl as [Hl|Hl%list_elem_of_singleton]; [by right|by left]. }
  clearbody pf tl la pp pos SA SM SB DA DB.
  (* what the NoDup facts say about the six end points *)
  assert (∀ y, y ∈ SA.*1 ++ SM.*1 ++ SB.*1 → y ≠ pf ∧ y ≠ tl) as HfS'.
  { apply NoDup_app in HfS as (_ & H1 & HfS). apply NoDup_cons in HfS as (H2 & HfS).
    apply NoDup_app in HfS as (_ & H3 & HfS). apply NoDup_cons in HfS as (H4 & _).
    clear -H1 H2 H3 H4. set_solver. }
  assert (∀ y, y ∈ SA.*2 ++ SM.*2 ++ SB.*2 → y ≠ f ∧ y ≠ la) as HsS'.
  { apply NoDup_app in HsS as (_ & H1 & HsS). apply NoDup_cons in HsS as (H2 & HsS).
    apply NoDup_app in HsS as (_ & H3 & HsS). apply NoDup_cons in HsS as (H4 & _).
    clear -H1 H2 H3 H4. set_solver. }
  assert (∀ y, y ∈ DA.*1 ++ DB.*1 → y ≠ pp) as HfD'.
  { apply NoDup_app in HfD as (_ & H1 & HfD). apply NoDup_cons in HfD as (H2 & _).
    clear -H1 H2. set_solver. }
  assert (∀ y, y ∈ DA.*2 ++ DB.*2 → y ≠ pos) as HsD'.
  { apply NoDup_app in HsD as (_ & H1 & HsD). apply NoDup_cons in HsD as (H2 & _).
    clear -H1 H2. set_solver. }
  assert (∀ y, y ∈ f :: M → y ∉ r1 :: A1 ++ A2) as HMA.
  { apply NoDup_cons in HndS as [Hr HndS]. apply NoDup_app in HndS as (_ & H1 & HndS).
    apply NoDup_app in HndS as (_ & H2 & _).
    intros y Hy [->|[Hin|Hin]%elem_of_app]%elem_of_cons.
    - apply Hr. apply elem_of_app. right. apply elem_of_app. by left.
    - apply (H1 y Hin). apply elem_of_app. by left.
    - by apply (H2 y Hy). }
  assert (∀ y, y ∈ r1 :: A1 → y ∈ r1 :: A1 ++ A2) as I1.
  { intros y [->|?]%elem_of_cons; apply elem_of_cons; [by left|right].
    apply elem_of_app. by left. }
  assert (∀ y, y ∈ r1 :: A2 → y ∈ r1 :: A1 ++ A2) as I2.
  { intros y [->|?]%elem_of_cons; apply elem_of_cons; [by left|right].
    apply elem_of_app. by right. }
  assert (∀ y, y ∈ r1 :: A1 ++ A2 → y ∈ r1 :: A1 ++ (f :: M) ++ A2) as I3.
  { intros y [->|[?|?]%elem_of_app]%elem_of_cons; apply elem_of_cons; [by left|right..];
      apply elem_of_app; [by left|right]. apply elem_of_app. by right. }
  assert (∀ y, y ∈ f :: M → y ∈ r1 :: A1 ++ (f :: M) ++ A2) as I4.
  { intros y Hy. apply elem_of_cons. right. apply elem_of_app. right.
    apply elem_of_app. by left. }
  assert (∀ y, y ∈ r2 :: B1 → y ∈ r2 :: B1 ++ B2) as J1.
  { intros y [->|?]%elem_of_cons; apply elem_of_cons; [by left|right].
    apply elem_of_app. by left. }
  assert (∀ y, y ∈ r2 :: B2 → y ∈ r2 :: B1 ++ B2) as J2.
  { intros y [->|?]%elem_of_cons; apply elem_of_cons; [by left|right].
    apply elem_of_app. by right. }
  assert (pf ∈ r1 :: A1 ++ (f :: M) ++ A2 ∧ tl ∈ r1 :: A1 ++ (f :: M) ++ A2
          ∧ la ∈ r1 :: A1 ++ (f :: M) ++ A2 ∧ f ∈ r1 :: A1 ++ (f :: M) ++ A2)
    as (Hpf' & Htl' & Hla' & Hf').
  { split_and!; [by apply I3, I1|by apply I4|by apply I3, I2|].
    apply I4. by apply elem_of_cons; left. }
  assert (pp ∈ r2 :: B1 ++ B2 ∧ pos ∈ r2 :: B1 ++ B2) as (Hpp' & Hpos').
  { split; [by apply J1|by apply J2]. }
  assert (f ≠ pf ∧ f ≠ la ∧ tl ≠ pf ∧ tl ≠ la) as (? & ? & ? & ?).
  { assert (f ∈ f :: M) as Hff by (by apply elem_of_cons; left).
    split_and!; intros Heq.
    - apply (HMA f Hff). rewrite Heq. by apply I1.
    - apply (HMA f Hff). rewrite Heq. by apply I2.
    - apply (HMA tl Htlin). rewrite Heq. by apply I1.
    - apply (HMA tl Htlin). rewrite Heq. by apply I2. }
  assert (f ≠ pp ∧ f ≠ pos ∧ tl ≠ pp ∧ tl ≠ pos ∧ pf ≠ pp ∧ pf ≠ pos ∧ la ≠ pp ∧ la ≠ pos)
    as (? & ? & ? & ? & ? & ? & ? & ?).
  { split_and!; intros Heq.
    - apply (Hdisj f Hf'). by rewrite Heq.
    - apply (Hdisj f Hf'). by rewrite Heq.
    - apply (Hdisj tl Htl'). by rewrite Heq.
    - apply (Hdisj tl Htl'). by rewrite Heq.
    - apply (Hdisj pf Hpf'). by rewrite Heq.
    - apply (Hdisj pf Hpf'). by rewrite Heq.
    - apply (Hdisj la Hla'). by rewrite Heq.
    - apply (Hdisj la Hla'). by rewrite Heq. }
  assert (∀ y, y ∈ SA.*1 ++ SM.*1 ++ SB.*1 → y ∈ r1 :: A1 ++ (f :: M) ++ A2) as HS1.
  { intros y Hy. apply HinS1. clear -Hy. set_solver. }
  assert (∀ y, y ∈ SA.*2 ++ SM.*2 ++ SB.*2 → y ∈ r1 :: A1 ++ (f :: M) ++ A2) as HS2.
  { intros y Hy. apply HinS2. clear -Hy. set_solver. }
  assert (∀ y, y ∈ DA.*1 ++ DB.*1 → y ∈ r2 :: B1 ++ B2) as HD1.
  { intros y Hy. apply HinD1. clear -Hy. set_solver. }
  assert (∀ y, y ∈ DA.*2 ++ DB.*2 → y ∈ r2 :: B1 ++ B2) as HD2.
  { intros y Hy. apply HinD2. clear -Hy. set_solver. }
  assert (∀ (a b c y : K), y ≠ a → y ≠ b → y ≠ c → y ∉ [a; b; c]) as Hnot3.
  { intros a b c y ? ? ? [->|[->|[->|?%elem_of_nil]%elem_of_cons]%elem_of_cons]%elem_of_cons;
      done. }
  assert (∀ y, y ∈ SA.*1 ++ SM.*1 ++ SB.*1 → y ∉ [pf; pp; tl]) as KS1.
  { intros y Hy. destruct (HfS' y Hy) as [? ?]. specialize (HS1 y Hy).
    apply Hnot3; [done| |done]. intros ->. by apply (Hdisj pp). }
  assert (∀ y, y ∈ SA.*2 ++ SM.*2 ++ SB.*2 → y ∉ [la; f; pos]) as KS2.
  { intros y Hy. destruct (HsS' y Hy) as [? ?]. specialize (HS2 y Hy).
    apply Hnot3; [done|done|]. intros ->. by apply (Hdisj pos). }
  assert (∀ y, y ∈ DA.*1 ++ DB.*1 → y ∉ [pf; pp; tl]) as KD1.
  { intros y Hy. pose proof (HfD' y Hy). specialize (HD1 y Hy).
    apply Hnot3; [|done|]; intros ->; [by apply (Hdisj pf)|by apply (Hdisj tl)]. }
  assert (∀ y, y ∈ DA.*2 ++ DB.*2 → y ∉ [la; f; pos]) as KD2.
  { intros y Hy. pose proof (HsD' y Hy). specialize (HD2 y Hy).
    apply Hnot3; [| |done]; intros ->; [by apply (Hdisj la)|by apply (Hdisj f)]. }
  destruct (splice_range h pf f tl la pp pos) as (h' & Hsp & Hc1 & Hc2 & Hc3 & Fn & Fp);
    try done.
  assert (∀ y, y ∉ [pf; pp; tl] → nxt h' y = nxt h y) as Fn'.
  { intros y Hy. apply Fn; intros ->; apply Hy; clear; set_solver. }
  assert (∀ y, y ∉ [la; f; pos] → prv h' y = prv h y) as Fp'.
  { intros y Hy. apply Fp; intros ->; apply Hy; clear; set_solver. }
  assert (∀ P, (∀ y, y ∈ P.*1 → y ∈ SA.*1 ++ SM.*1 ++ SB.*1 ∨ y ∈ DA.*1 ++ DB.*1) →
               (∀ y, y ∈ P.*2 → y ∈ SA.*2 ++ SM.*2 ++ SB.*2 ∨ y ∈ DA.*2 ++ DB.*2) →
               Forall (adj h) P → Forall (adj h') P) as Hkeep.
  { intros P G1 G2. apply (Forall_adj_keep h h' P [pf; pp; tl] [la; f; pos] Fn' Fp').
    - intros y Hy. destruct (G1 y Hy); [by apply KS1|by apply KD1].
    - intros y Hy. destruct (G2 y Hy); [by apply KS2|by apply KD2]. }
  exists h'. split; [done|]. split_and!.
  - split.
    + apply NoDup_cons in HndS as [Hr HndS]. apply NoDup_app in HndS as (N1 & N2 & HndS).
      apply NoDup_app in HndS as (_ & _ & N3).
      apply NoDup_cons. split; [clear -Hr; set_solver|].
      apply NoDup_app. split; [done|]. split; [|done]. clear -N2. set_solver.
    + rewrite ES.
      apply Forall_app. split; [|apply Forall_cons; split; [done|]].
      * apply Hkeep; [|  |done]; intros y Hy; left; clear -Hy; set_solver.
      * apply Hkeep; [|  |done]; intros y Hy; left; clear -Hy; set_solver.
  - split.
    + apply NoDup_cons in HndS as [_ HndS]. apply NoDup_app in HndS as (_ & _ & HndS).
      apply NoDup_app in HndS as (NM & _ & _).
      apply NoDup_cons in HndD as [Hr HndD]. apply NoDup_app in HndD as (N1 & N2 & N3).
      assert (∀ y, y ∈ f :: M → y ∉ r2 :: B1 ++ B2) as HMD.
      { intros y Hy. apply Hdisj. clear -Hy. set_solver. }
      apply NoDup_cons. split; [clear -Hr HMD; set_solver|].
      apply NoDup_app. split; [done|]. split; [clear -N2 HMD; set_solver|].
      apply NoDup_app. split; [done|]. split; [clear -HMD; set_solver|done].
    + rewrite ED.
      apply Forall_app. split; [|apply Forall_cons; split; [done|]].
      { apply Hkeep; [|  |done]; intros y Hy; right; clear -Hy; set_solver. }
      apply Forall_app. split; [|apply Forall_cons; split; [done|]].
      { apply Hkeep; [|  |done]; intros y Hy; left; clear -Hy; set_solver. }
      apply Hkeep; [|  |done]; intros y Hy; right; clear -Hy; set_solver.
  - intros y Hy. apply lookup_frame; [apply Fn|apply Fp]; intros ->; apply Hy;
      clear; set_solver.
Qed.

(** The range [11, 12] of the list rooted at 10 is moved in front of 22 in
    the list rooted at 20. *)
Lemma splice_moves_the_range_witness :
  (∃ h', splice (Some 22) (Some 11) (Some 13) two_lists = Ok h'
     ∧ dlist h' 10 [13] ∧ dlist h' 20 [21; 11; 12; 22]
     ∧ (∀ y, y ∉ [10; 13; 11; 12; 21; 22] → h' !! y = two_lists !! y))
  ∧ (∀ pos it, splice pos it it two_lists = Ok two_lists)
  ∧ (∀ last, splice (Some 11) (Some 11) last two_lists = Ok two_lists).
Proof.
  apply (splice_moves_the_range two_lists 10 [] 11 [12] [13] 20 [21] [22]).
  - apply two_lists_fst.
  - apply two_lists_snd.
  - intros y Hy. repeat (apply elem_of_cons in Hy as [->|Hy]); [compute_done..|].
    by apply elem_of_nil in Hy.
Defined.

(** X8: Move assignment of a list, [this = std::move(r)]: the former members of
    [this] are unlinked, the members of [r] become the members of [this]
    in the same order, and [r] is left empty.  The move constructor does
    the same for a list at a fresh address.  There is no check for self
    assignment: [l = std::move(l)] empties [l]. *)
Theorem list_move_transfers_members {K} `{Countable K}
    (h : gmap K (list_element K)) (this : K) (A : list K) (r : K) (B : list K) :
  dlist h this A → dlist h r B → (∀ y, y ∈ this :: A → y ∉ r :: B) →
  (∃ h', list_move_assign this r h = Ok h'
     ∧ dlist h' this B ∧ dlist h' r []
     ∧ (∀ y, y ∈ A → h' !! y = Some (ListElement None None))
     ∧ (∀ y, y ∉ this :: A → y ∉ r :: B → h' !! y = h !! y))
  ∧ (∀ n, n ∉ r :: B →
       ∃ h', list_move_construct n r h = Ok h' ∧ dlist h' n B ∧ dlist h' r []
         ∧ (∀ y, y ≠ n → y ∉ r :: B → h' !! y = h !! y))
  ∧ (∃ h', list_move_assign r r h = Ok h' ∧ dlist h' r []
       ∧ (∀ y, y ∈ B → h' !! y = Some (ListElement None None))).
Proof.
  intros HA HB Hdisj.
  assert (∀ h0 t A0, dlist h0 t A0 → dlist h0 r B → (∀ y, y ∈ t :: A0 → y ∉ r :: B) →
            ∃ h', list_move_assign t r h0 = Ok h'
              ∧ dlist h' t B ∧ dlist h' r []
              ∧ (∀ y, y ∈ A0 → h' !! y = Some (ListElement None None))
              ∧ (∀ y, y ∉ t :: A0 → y ∉ r :: B → h' !! y = h0 !! y)) as Hgen.
  { intros h0 t A0 Ht Hr Hd.
    destruct (dlist_clear h0 t A0 Ht) as (h1 & Hcl & Hnil & Hin & Hout).
    assert (dlist h1 r B) as Hr1.
    { eapply dlist_frame; [|exact Hr]. intros y Hy. apply Hout.
      intros Hy'. by apply (Hd y Hy'). }
    destruct (dlist_splice h1 r B t [] Hr1 Hnil) as (h' & Hsp & Hrn & Htb & Hfr).
    { intros y Hy ->%list_elem_of_singleton. apply (Hd t); [by apply elem_of_cons; left|done]. }
    rewrite app_nil_r in Htb. simpl in Hsp.
    exists h'. unfold list_move_assign. rewrite Hcl. simpl. unfold begin.
    rewrite (get_next_ok _ _ _ (dlist_root_nxt _ _ _ Hr1)). simpl. unfold end_.
    split_and!; try done.
    - intros y Hy. rewrite Hfr; [by apply Hin| |].
      + intros Hy'. apply (Hd y); [by apply elem_of_cons; right|done].
      + intros ->%list_elem_of_singleton.
        apply dlist_NoDup in Ht. by apply NoDup_cons in Ht as [Ht _].
    - intros y Hy Hy'. rewrite Hfr; [by apply Hout|done|].
      intros ->%list_elem_of_singleton. apply Hy. by apply elem_of_cons; left. }
  split_and!.
  - by apply Hgen.
  - intros n Hn. unfold list_move_construct.
    destruct (Hgen (list_init n h) n []) as (h' & Hmv & Hn' & Hr' & _ & Hfr).
    + apply dlist_nil. unfold list_init. by rewrite lookup_insert_eq.
    + eapply dlist_frame; [|exact HB]. intros y Hy. unfold list_init.
      apply lookup_insert_ne. by intros ->.
    + by intros y ->%list_elem_of_singleton.
    + exists h'. split_and!; try done. intros y Hy Hy'.
      rewrite Hfr; [|by intros ->%list_elem_of_singleton|done].
      unfold list_init. by rewrite lookup_insert_ne.
  - destruct (dlist_clear h r B HB) as (h1 & Hcl & Hnil & Hin & Hout).
    exists h1. unfold list_move_assign. rewrite Hcl. simpl. unfold begin.
    rewrite (get_next_ok _ _ _ (dlist_root_nxt _ _ _ Hnil)). simpl.
    unfold splice, end_. rewrite (bool_decide_eq_true_2 (Some r = Some r)) by done.
    rewrite orb_true_r. done.
Qed.

(** The list rooted at 20 is move assigned the list rooted at 10, and a
    list at the new address 50 is move constructed from it. *)
Lemma list_move_transfers_members_witness :
  (∃ h', list_move_assign 20 10 two_lists = Ok h'
     ∧ dlist h' 20 [11; 12; 13] ∧ dlist h' 10 []
     ∧ (∀ y, y ∈ [21; 22] → h' !! y = Some (ListElement None None))
     ∧ (∀ y, y ∉ 20 :: [21; 22] → y ∉ 10 :: [11; 12; 13] → h' !! y = two_lists !! y))
  ∧ (∀ n, n ∉ 10 :: [11; 12; 13] →
       ∃ h', list_move_construct n 10 two_lists = Ok h'
         ∧ dlist h' n [11; 12; 13] ∧ dlist h' 10 []
         ∧ (∀ y, y ≠ n → y ∉ 10 :: [11; 12; 13] → h' !! y = two_lists !! y))
  ∧ (∃ h', list_move_assign 10 10 two_lists = Ok h' ∧ dlist h' 10 []
       ∧ (∀ y, y ∈ [11; 12; 13] → h' !! y = Some (ListElement None None))).
Proof.
  apply (list_move_transfers_members two_lists 20 [21; 22] 10 [11; 12; 13]).
  - apply two_lists_snd.
  - apply two_lists_fst.
  - intros y Hy. repeat (apply elem_of_cons in Hy as [->|Hy]); [compute_done..|].
    by apply elem_of_nil in Hy.
Defined.

(** ** Iterators and moved elements *)

Section iteration_facts.
Context {K : Type} `{Countable K}.
Implicit Types (h : gmap K (list_element K)) (a b x y r v : K) (xs L : list K).

Lemma increment_walks h r : ∀ i L1 L2 x,
  dlist h r (L1 ++ L2) → (L2 ++ [r]) !! i = Some x →
  increment i h (Some (hd r L2)) = Ok (Some x).
Proof.
  induction i as [|i IH]; intros L1 L2 x Hd Hx.
  - rewrite hd_snoc in Hx. simpl in *. by injection Hx as ->.
  - destruct L2 as [|y L2]; [done|]. simpl in *.
    rewrite (get_next_ok _ _ _ (dlist_nxt _ _ _ _ _ Hd)). simpl.
    apply (IH (L1 ++ [y])); [|done]. by rewrite <-app_assoc.
Qed.

Lemma reverse_snoc_hd (L : list K) r : reverse L ++ [r] = last_or L r :: tail (reverse L ++ [r]).
Proof.
  induction L as [|y L IH] using rev_ind; [done|].
  by rewrite reverse_app, last_or_snoc.
Qed.

Lemma decrement_walks h r : ∀ i L1 L2 x,
  dlist h r (L1 ++ L2) → (reverse L1 ++ [r]) !! i = Some x →
  decrement i h (Some (last_or L1 r)) = Ok (Some x).
Proof.
  induction i as [|i IH]; intros L1 L2 x Hd Hx.
  - rewrite reverse_snoc_hd in Hx. simpl in *. by injection Hx as ->.
  - destruct L1 as [|y L1 _] using rev_ind; [done|].
    rewrite reverse_app in Hx. simpl in Hx. rewrite last_or_snoc. simpl.
    rewrite <-app_assoc in Hd. simpl in Hd.
    rewrite (get_prev_ok _ _ _ (dlist_prv _ _ _ _ _ Hd)). simpl.
    by apply (IH L1 (y :: L2)).
Qed.

End iteration_facts.

(** X9: Iteration over a well-formed list.  Starting from [begin], [i]
    increments reach the [i]-th element and [length L] increments reach
    [end]; starting from [end], decrements reach the elements in reverse
    order and then [end] again, and incrementing [end] gives [begin]: the
    list is circular.  An increment followed by a decrement is back at
    the same position.  [empty] holds exactly when there is no element. *)
Theorem iteration_walks_the_list {K} `{Countable K}
    (h : gmap K (list_element K)) (r : K) (L : list K) :
  dlist h r L →
  (∀ i x, (L ++ [r]) !! i = Some x →
     (b ← begin r h; increment i h b) = Ok (Some x))
  ∧ (∀ i x, (reverse L ++ [r]) !! i = Some x →
       decrement (S i) h (end_ r) = Ok (Some x))
  ∧ increment 1 h (end_ r) = begin r h
  ∧ (∀ y, y ∈ r :: L →
       (it ← get_next h (Some y); get_prev h it) = Ok (Some y)
       ∧ (it ← get_prev h (Some y); get_next h it) = Ok (Some y))
  ∧ empty r h = Ok (bool_decide (L = [])).
Proof.
  intros Hd. split_and!.
  - intros i x Hx. unfold begin.
    rewrite (get_next_ok _ _ _ (dlist_root_nxt _ _ _ Hd)). simpl.
    by apply (increment_walks h r i [] L).
  - intros i x Hx. unfold end_. simpl.
    rewrite (get_prev_ok _ _ _ (dlist_root_prv _ _ _ Hd)). simpl.
    apply (decrement_walks h r i L []); [by rewrite app_nil_r|done].
  - unfold end_, begin. simpl. by destruct (get_next h (Some r)).
  - intros y Hy.
    assert (∃ n p, adj h (y, n) ∧ adj h (p, y)) as (n & p & [Hyn Hny] & [Hpy Hyp]).
    { apply elem_of_cons in Hy as [->|Hy].
      - exists (hd r L), (last_or L r). split.
        + apply (dlist_cut_adj h r [] L Hd).
        + apply (dlist_cut_adj h r L []). by rewrite app_nil_r.
      - apply list_elem_of_split in Hy as (L1 & L2 & ->).
        exists (hd r L2), (last_or L1 r). split.
        + pose proof (dlist_cut_adj h r (L1 ++ [y]) L2) as Hc.
          rewrite last_or_snoc in Hc. apply Hc. by rewrite <-app_assoc.
        + apply (dlist_cut_adj h r L1 (y :: L2) Hd). }
    simpl in *. split.
    + rewrite (get_next_ok _ _ _ Hyn). simpl. by apply get_prev_ok.
    + rewrite (get_prev_ok _ _ _ Hyp). simpl. by apply get_next_ok.
  - unfold empty. rewrite (get_next_ok _ _ _ (dlist_root_nxt _ _ _ Hd)). simpl.
    f_equal. apply bool_decide_ext. split.
    + intros [= Heq]. destruct L as [|x L]; [done|]. simpl in Heq. subst x.
      apply dlist_NoDup in Hd. apply NoDup_cons in Hd as [Hd _].
      destruct Hd. by apply elem_of_cons; left.
    + by intros ->.
Qed.

Lemma iteration_walks_the_list_witness :
  (∀ i x, ([11; 12; 13] ++ [10]) !! i = Some x →
     (b ← begin 10 two_lists; increment i two_lists b) = Ok (Some x))
  ∧ (∀ i x, (reverse [11; 12; 13] ++ [10]) !! i = Some x →
       decrement (S i) two_lists (end_ 10) = Ok (Some x))
  ∧ increment 1 two_lists (end_ 10) = begin 10 two_lists
  ∧ (∀ y, y ∈ 10 :: [11; 12; 13] →
       (it ← get_next two_lists (Some y); get_prev two_lists it) = Ok (Some y)
       ∧ (it ← get_prev two_lists (Some y); get_next two_lists it) = Ok (Some y))
  ∧ empty 10 two_lists = Ok (bool_decide ([11; 12; 13] = [])).
Proof. apply (iteration_walks_the_list two_lists 10 [11; 12; 13]), two_lists_fst. Defined.

(** X10: Move assignment between elements, [this = std::move(x)], when [this]
    is itself linked in the list: [this] first leaves its own position and
    then takes the place of [x], which ends unlinked; the other elements
    keep their order.  When [x] is not linked, [this] is just unlinked. *)
Theorem element_move_assign_relinks_target {K} `{Countable K}
    (h : gmap K (list_element K)) (r : K) (L1 : list K) (this : K) (L2 : list K)
    (x : K) :
  dlist h r (L1 ++ this :: L2) →
  (∀ A B, L1 ++ L2 = A ++ x :: B →
     ∃ h', element_move_assign this x h = Ok h'
       ∧ dlist h' r (A ++ this :: B)
       ∧ h' !! x = Some (ListElement None None)
       ∧ (∀ y, y ∉ r :: L1 ++ this :: L2 → h' !! y = h !! y))
  ∧ (h !! x = Some (ListElement None None) → x ∉ r :: L1 ++ this :: L2 →
       ∃ h', element_move_assign this x h = Ok h'
         ∧ dlist h' r (L1 ++ L2)
         ∧ h' !! this = Some (ListElement None None)
         ∧ h' !! x = Some (ListElement None None)).
Proof.
  intros Hd.
  destruct (dlist_unlink h r L1 this L2 Hd)
    as (h1 & Hun & Hd1 & Hthis & _ & _ & Hfn & Hfp).
  pose proof (dlist_NoDup _ _ _ Hd) as Hnd.
  assert (this ∉ r :: L1 ++ L2) as Hfresh.
  { apply NoDup_cons in Hnd as [Hr Hnd]. intros [->|Hin]%elem_of_cons.
    - apply Hr. apply elem_mid.
    - by apply (NoDup_mid1 _ _ _ _ Hnd Hin). }
  assert (∀ y, y ∉ r :: L1 ++ this :: L2 → h1 !! y = h !! y) as Hfr1.
  { intros y Hy. apply lookup_frame; [apply Hfn|apply Hfp]; intros ->; apply Hy.
    - apply elem_of_cons. right. apply elem_mid.
    - apply last_or_in.
    - apply elem_of_cons. right. apply elem_mid.
    - pose proof (hd_in r L1 L2) as Hh.
      apply elem_of_cons in Hh as [Hh|Hh]; apply elem_of_cons; [by left|right].
      apply elem_of_app in Hh as [?|?]; apply elem_of_app; [by left|right].
      by apply elem_of_cons; right. }
  assert (element_move_assign this x h = element_move_assign this x h1) as Heq.
  { unfold element_move_assign. rewrite Hun. by rewrite (unlink_unlinked _ _ Hthis). }
  split.
  - intros A B HAB. rewrite HAB in Hd1, Hfresh.
    destruct (dlist_move h1 r A x B this Hd1 Hfresh Hthis) as (h' & Hmv & Hd' & Hx & Hfr).
    exists h'. rewrite Heq. split_and!; try done.
    intros y Hy. rewrite Hfr; [by apply Hfr1|].
    intros [->|Hin]%elem_of_cons; apply Hy.
    + apply elem_of_cons. right. apply elem_mid.
    + rewrite <-HAB in Hin.
      apply elem_of_cons in Hin as [->|Hin]; apply elem_of_cons; [by left|right].
      apply elem_of_app in Hin as [?|?]; apply elem_of_app; [by left|right].
      by apply elem_of_cons; right.
  - intros Hx Hxn.
    assert (h1 !! x = Some (ListElement None None)) as Hx1 by (by rewrite Hfr1).
    assert (x ≠ this) as Hne.
    { intros ->. apply Hxn. apply elem_of_cons. right. apply elem_mid. }
    exists h1. rewrite Heq. split_and!; try done.
    unfold element_move_assign. rewrite (unlink_unlinked _ _ Hthis). simpl.
    unfold get_next, get_prev, set_next, set_prev. heap_red.
    f_equal. rewrite !insert_insert_eq.
    rewrite (insert_id h1 this) by done. by apply insert_id.
Qed.

(** In the list rooted at 10, the element 11 is move assigned the element
    13; then 11 is move assigned the unlinked element 30. *)
Lemma element_move_assign_relinks_target_witness :
  (∃ h', element_move_assign 11 13 two_lists = Ok h'
     ∧ dlist h' 10 [12; 11] ∧ h' !! 13 = Some (ListElement None None))
  ∧ (∃ h', element_move_assign 11 30 two_lists = Ok h'
       ∧ dlist h' 10 [12; 13] ∧ h' !! 11 = Some (ListElement None None)).
Proof.
  destruct (element_move_assign_relinks_target two_lists 10 [] 11 [12; 13] 13
              two_lists_fst) as [Hlinked _].
  destruct (element_move_assign_relinks_target two_lists 10 [] 11 [12; 13] 30
              two_lists_fst) as [_ Hunlinked].
  split.
  - destruct (Hlinked [12] [] eq_refl) as (h' & ? & ? & ? & _). by exists h'.
  - destruct Hunlinked as (h' & ? & ? & ? & _); [reflexivity|compute_done|]. by exists h'.
Defined.

(** ** Destroying and moving connections during an emission *)

Section absent.
Context {K : Type} `{Countable K}.
Implicit Types (h : gmap K (list_element K)).

Lemma set_next_absent h p v h' y :
  set_next h p v = Ok h' → h !! y = None → h' !! y = None.
Proof.
  unfold set_next. destruct p as [a|]; [|done].
  destruct (h !! a) eqn:Ha; [|done]. intros [= <-] Hy.
  rewrite lookup_insert_ne; [done|]. intros ->. by rewrite Hy in Ha.
Qed.

Lemma set_prev_absent h p v h' y :
  set_prev h p v = Ok h' → h !! y = None → h' !! y = None.
Proof.
  unfold set_prev. destruct p as [a|]; [|done].
  destruct (h !! a) eqn:Ha; [|done]. intros [= <-] Hy.
  rewrite lookup_insert_ne; [done|]. intros ->. by rewrite Hy in Ha.
Qed.

(** [unlink] writes only to storage that exists. *)
Lemma unlink_absent h x r h' y :
  unlink x h = Ok (r, h') → h !! y = None → h' !! y = None.
Proof.
  unfold unlink. intros Hu Hy.
  apply bind_Ok in Hu as (n & _ & Hu).
  apply bind_Ok in Hu as (h1 & E2 & Hu).
  assert (h1 !! y = None) as Hy1.
  { destruct n; [|by injection E2 as <-].
    apply bind_Ok in E2 as (p & _ & E2). by eapply set_prev_absent. }
  apply bind_Ok in Hu as (p & _ & Hu).
  apply bind_Ok in Hu as (h2 & E4 & Hu).
  assert (h2 !! y = None) as Hy2.
  { destruct p; [|by injection E4 as <-].
    apply bind_Ok in E4 as (q & _ & E4). by eapply set_next_absent. }
  apply bind_Ok in Hu as (q & _ & Hu).
  apply bind_Ok in Hu as (h3 & E6 & Hu).
  apply bind_Ok in Hu as (h4 & E7 & Hu).
  injection Hu as _ <-.
  eapply set_prev_absent; [done|]. by eapply set_next_absent.
Qed.

End absent.

Lemma retire_absent d st st' y :
  retire d st = Ok st' → wlinks st !! y = None → wlinks st' !! y = None.
Proof.
  unfold retire. destruct (unlink (WNode d) (wlinks st)) as [[r h]| |] eqn:Hu; try done.
  simpl. intros [= <-] Hy. simpl.
  destruct (decide (y = WNode d)) as [->|Hne]; [apply lookup_delete_eq|].
  rewrite lookup_delete_ne by done. by eapply unlink_absent.
Qed.

Section during.
Context (s : addr).
Implicit Types (st : state) (L : list addr) (W : addr → list nat) (c d : nat).

(** Releasing the storage of a connection that is in no list. *)
Lemma rep_release st L W X :
  rep st s L W → X ∉ s :: L →
  rep (State (delete X (clinks st)) (delete (WRoot X) (wlinks st))
         (delete X (conns st)) (walkers st) (flags st) (depth st) (trace st)) s L W.
Proof.
  intros Hr HX. split; simpl.
  - eapply dlist_frame; [|apply (rep_conns _ _ _ _ Hr)].
    intros y Hy. apply lookup_delete_ne. by intros <-.
  - intros c Hc. eapply dlist_frame; [|by apply (rep_walk _ _ _ _ Hr)].
    intros y Hy. apply lookup_delete_ne. intros <-.
    apply elem_of_cons in Hy as [[= ->]|Hy].
    + apply HX. by apply elem_of_cons; right.
    + apply list_elem_of_fmap in Hy as (d & [=] & _).
  - apply (rep_held _ _ _ _ Hr).
  - apply (rep_disj _ _ _ _ Hr).
  - intros d Hd. destruct (rep_free _ _ _ _ Hr d Hd) as [H1 H2].
    split; [|done]. by rewrite lookup_delete_ne.
Qed.

Lemma plant_destroy st pre k rest W X t :
  rep st s (pre ++ k :: rest) W → X ∈ pre ++ k :: rest → knows st X s →
  ∃ st1 st2 W2, plant k st = Ok st1
    ∧ destroy_connection X (with_trace t st1) = Ok st2
    ∧ rep st2 s (without X (pre ++ k :: rest)) W2
    ∧ depth st2 = S (depth st)
    ∧ ((∃ c, c ∈ without X (pre ++ k :: rest) ∧ depth st ∈ W2 c)
       ∨ wlinks st2 !! WNode (depth st) = Some (ListElement None None))
    ∧ advance (depth st) k st2 = Ok (Some (hd s (without X rest)))
    ∧ conns st2 = delete X (conns st) ∧ flags st2 = flags st ∧ trace st2 = t
    ∧ clinks st2 !! X = None ∧ wlinks st2 !! WRoot X = None.
Proof.
  intros Hr HX Hkn.
  destruct (plant_disconnect s st pre k rest W X t Hr HX Hkn)
    as (st1 & st2 & W2 & Hpl & Hdis & Hr2 & Hdep & Hwhere & Hadv & Eco & Efl & Etr).
  assert (k ∈ pre ++ k :: rest) as Hk by apply elem_mid.
  destruct (plant_rep s st _ W k Hr Hk) as (st1' & Hpl' & Hr1 & _ & _ & Eco1 & _).
  rewrite Hpl in Hpl'. injection Hpl' as <-.
  apply (rep_with_trace _ _ _ _ t) in Hr1.
  assert (knows (with_trace t st1) X s) as Hkn1.
  { unfold knows. simpl. by rewrite Eco1. }
  destruct (list_elem_of_split _ _ HX) as (L1 & L2 & Heq).
  rewrite Heq in Hr1.
  destruct (disconnect_rep s _ L1 X L2 _ Hr1 Hkn1)
    as (st2' & Hdis' & _ & Hc2 & Hw2 & _).
  rewrite Hdis in Hdis'. injection Hdis' as <-.
  assert (X ∉ s :: without X (pre ++ k :: rest)) as HXn.
  { intros [->|[? _]%list_elem_of_filter]%elem_of_cons; [|done].
    by apply (rep_not_root s st _ W s Hr). }
  eexists st1, _, W2. split; [done|].
  rewrite (destroy_connection_after _ X st2 Hdis Hc2 Hw2). split; [done|].
  split_and!; simpl; try done.
  - by apply rep_release.
  - destruct Hwhere as [?|Hw]; [by left|right]. by rewrite lookup_delete_ne.
  - unfold advance in *. simpl. destruct (walkers st2 !! depth st) as [w|]; [|done].
    simpl in *. destruct (deleted w); [done|].
    destruct (decide (X = k)) as [->|Hne].
    + unfold get_next in Hadv. simpl in Hadv. by rewrite Hc2 in Hadv.
    + unfold get_next in *. simpl in *. by rewrite lookup_delete_ne.
  - by rewrite Eco.
  - apply lookup_delete_eq.
  - apply lookup_delete_eq.
Qed.

End during.

(** X11: A connection [X] of the signal that holds the address of the signal
    in its [parent] field, as the constructor called by [connect] sets it
    (the storage a connection was moved to does not), is destroyed by the
    callback of the connection [k] being visited, [X = k] included: the
    destructor disconnects [X] and releases its storage, and the emission
    goes on with exactly the connections not yet visited other than [X], in
    order.  No released storage is read. *)
Theorem destroy_during_emission st s pre k rest W X p idk fuel :
  rep st s (pre ++ k :: rest) W →
  X ∈ pre ++ k :: rest → knows st X s →
  conns st !! k = Some (Conn p (Some (Slot idk [OpDestroy X]))) →
  (∀ c, c ∈ without X rest → plain st c) →
  length rest + 4 ≤ fuel →
  ∃ st' W',
    emit_loop fuel s (Some k) st = Ok (Normal, st')
    ∧ trace st' = trace st ++ idk :: (slot_id st <$> without X rest)
    ∧ rep st' s (without X (pre ++ k :: rest)) W'
    ∧ clinks st' !! X = None ∧ wlinks st' !! WRoot X = None ∧ conns st' !! X = None
    ∧ depth st' = depth st.
Proof.
  intros Hr HX Hkn Hk Hpl Hfuel.
  destruct fuel as [|[|[|fuel]]]; try lia.
  destruct (plant_destroy s st pre k rest W X (trace st ++ [idk]) Hr HX Hkn)
    as (st1 & st2 & W2 & Hpl1 & Hdes & Hr2 & Hdep & Hwhere & Hadv & Eco & Efl & Etr
        & HcX & HwX).
  destruct (retire_rep s st2 _ W2 (depth st) Hr2 Hdep Hwhere)
    as (st3 & W3 & Hret & Hr3 & Ecl3 & Eco3 & Efl3 & Etr3 & Edep3).
  assert (k ∈ pre ++ k :: rest) as Hkin by apply elem_mid.
  destruct (plant_rep s st _ W k Hr Hkin) as (st1' & Hpl1' & _ & _ & _ & Eco1 & _ & Etr1 & _).
  rewrite Hpl1 in Hpl1'. injection Hpl1' as <-.
  rewrite emit_loop_unfold, bool_decide_eq_false_2.
  2:{ unfold end_. intros [= ->]. by apply (rep_not_root s st _ W s Hr). }
  simpl. rewrite Hpl1. simpl. rewrite Eco1, Hk. simpl.
  rewrite run_ops_cons, Etr1, Hdes. simpl. rewrite ?run_ops_nil. simpl. rewrite Hadv. simpl.
  rewrite Hret. simpl.
  assert (without X (pre ++ k :: rest)
          = (without X pre ++ without X [k]) ++ without X rest) as Esplit.
  { by rewrite <-app_assoc, <-!without_app. }
  rewrite Esplit in Hr3.
  assert (∀ c, c ∈ without X rest → conns st3 !! c = conns st !! c) as Hsame.
  { intros c [Hne _]%list_elem_of_filter. rewrite Eco3, Eco. by apply lookup_delete_ne. }
  rewrite (quiet_loop s (without X rest) _ st3 W3 _ Hr3).
  - eexists _, W3. split; [done|]. simpl. split_and!.
    + rewrite Etr3, Etr, <-app_assoc. simpl. do 2 f_equal.
      apply list_fmap_ext. intros i c Hc. unfold slot_id. rewrite Hsame; [done|].
      by eapply list_elem_of_lookup_2.
    + rewrite Esplit. by apply rep_with_trace.
    + by rewrite Ecl3.
    + by apply (retire_absent _ _ _ _ Hret).
    + rewrite Eco3, Eco. apply lookup_delete_eq.
    + done.
  - intros c Hc. destruct (Hpl c Hc) as (pc & idc & Hkc).
    exists pc, idc, []. rewrite Hsame by done. split; [done|apply inert_nil].
  - assert (length (without X rest) ≤ length rest) by apply length_filter. lia.
Qed.

Lemma destroy_during_emission_witness :
  (* the callback of 12 destroys the connection being visited *)
  (∃ st' W',
     emit_loop 5 10 (Some 12) (scene [OpDestroy 12]) = Ok (Normal, st')
     ∧ trace st' = [2; 1] ∧ rep st' 10 [13; 11] W'
     ∧ clinks st' !! 12 = None ∧ wlinks st' !! WRoot 12 = None ∧ conns st' !! 12 = None
     ∧ depth st' = 0)
  (* ... the next connection to be visited *)
  ∧ (∃ st' W',
       emit_loop 5 10 (Some 12) (scene [OpDestroy 11]) = Ok (Normal, st')
       ∧ trace st' = [2] ∧ rep st' 10 [13; 12] W'
       ∧ clinks st' !! 11 = None ∧ wlinks st' !! WRoot 11 = None ∧ conns st' !! 11 = None
       ∧ depth st' = 0).
Proof.
  split.
  - apply (destroy_during_emission (scene [OpDestroy 12]) 10 [13] 12 [11]
             (λ _, []) 12 (Some 10) 2 5).
    + apply scene_rep.
    + compute_done.
    + by eexists.
    + reflexivity.
    + intros c Hc. apply scene_plain. revert Hc. vm_compute (without _ _).
      intros ->%list_elem_of_singleton. compute_done.
    + simpl. lia.
  - apply (destroy_during_emission (scene [OpDestroy 11]) 10 [13] 12 [11]
             (λ _, []) 11 (Some 10) 2 5).
    + apply scene_rep.
    + compute_done.
    + by eexists.
    + reflexivity.
    + intros c Hc. revert Hc. vm_compute (without _ _). by intros ?%elem_of_nil.
    + simpl. lia.
Defined.

Section planting.
Context (s : addr).

(** Planting a walker on [c] writes to the walker and to the walker list
    of [c] only. *)
Lemma plant_other st L W c st1 y :
  rep st s L W → c ∈ L → plant c st = Ok st1 →
  y ∉ nodes W c → y ≠ WNode (depth st) →
  wlinks st1 !! y = wlinks st !! y.
Proof.
  intros Hr Hc Hpl Hy Hyd. set (d := depth st) in *.
  destruct (rep_free _ _ _ _ Hr d) as [Hd1 Hd2]; [done|].
  set (h0 := <[WNode d := ListElement None None]> (wlinks st)).
  assert (dlist h0 (WRoot c) (WNode <$> W c)) as Hh0.
  { eapply dlist_frame; [|by apply (rep_walk _ _ _ _ Hr)].
    intros z Hz. unfold h0. rewrite lookup_insert_ne; [done|]. intros <-.
    destruct (dlist_alloc _ _ _ _ (rep_walk _ _ _ _ Hr c Hc) Hz). congruence. }
  assert (WNode d ∉ nodes W c) as Hfresh.
  { intros Hz. destruct (dlist_alloc _ _ _ _ (rep_walk _ _ _ _ Hr c Hc) Hz). congruence. }
  destruct (dlist_insert h0 (WRoot c) [] (WNode <$> W c) (WNode d))
    as (h1 & Hins & _ & Fn & Fp).
  { done. } { done. } { unfold h0. rewrite lookup_insert_eq. eauto. }
  simpl in *.
  unfold plant, push_front, begin in Hpl. simpl in Hpl. fold d h0 in Hpl.
  rewrite (get_next_ok _ _ _ (dlist_root_nxt _ _ _ Hh0)) in Hpl. simpl in Hpl.
  rewrite Hins in Hpl. simpl in Hpl. injection Hpl as <-. simpl.
  transitivity (h0 !! y); [|unfold h0; by rewrite lookup_insert_ne].
  apply lookup_frame; [apply Fn|apply Fp]; try done.
  - intros ->. apply Hy. apply elem_of_cons. by left.
  - intros ->. apply Hy. pose proof (hd_elem (WNode <$> W c) (WRoot c)) as Hh.
    apply elem_of_app in Hh as [Hh|Hh]; [by apply elem_of_cons; right|].
    apply list_elem_of_singleton in Hh. rewrite Hh. apply elem_of_cons. by left.
Qed.

End planting.

Section written_keys.
Context {K : Type} `{Countable K}.
Implicit Types (h : gmap K (list_element K)).

Lemma clear_loop_absent fuel : ∀ nx h h' y,
  clear_loop fuel nx h = Ok h' → h !! y = None → h' !! y = None.
Proof.
  induction fuel as [|fuel IH]; intros nx h h' y; simpl; [done|].
  intros (nn & _ & Hrest)%bind_Ok Hy. destruct nn as [n|].
  - apply bind_Ok in Hrest as (h1 & E1 & Hrest).
    apply bind_Ok in Hrest as (h2 & E2 & Hrest).
    apply (IH _ _ _ _ Hrest). eapply set_prev_absent; [done|].
    by eapply set_next_absent.
  - by eapply set_prev_absent.
Qed.

Lemma clear_absent h r h' y : clear r h = Ok h' → h !! y = None → h' !! y = None.
Proof.
  unfold clear. intros (e & _ & Hrest)%bind_Ok Hy.
  destruct e; [by injection Hrest as <-|].
  apply bind_Ok in Hrest as (rp & _ & Hrest).
  apply bind_Ok in Hrest as (h1 & E1 & Hrest).
  apply bind_Ok in Hrest as (nx & _ & Hrest).
  apply bind_Ok in Hrest as (h2 & E2 & Hrest).
  apply bind_Ok in Hrest as (h3 & E3 & Hrest).
  apply (clear_loop_absent _ _ _ _ _ Hrest).
  eapply set_next_absent; [done|]. eapply set_prev_absent; [done|].
  by eapply set_next_absent.
Qed.

Lemma splice_absent h pos first last h' y :
  splice pos first last h = Ok h' → h !! y = None → h' !! y = None.
Proof.
  unfold splice. destruct (_ || _); [by intros [= <-]|].
  intros (tl & _ & Hrest)%bind_Ok Hy.
  apply bind_Ok in Hrest as (tn & _ & Hrest).
  apply bind_Ok in Hrest as (fp & _ & Hrest).
  apply bind_Ok in Hrest as (h1 & E1 & Hrest).
  apply bind_Ok in Hrest as (fp' & _ & Hrest).
  apply bind_Ok in Hrest as (tn' & _ & Hrest).
  apply bind_Ok in Hrest as (h2 & E2 & Hrest).
  apply bind_Ok in Hrest as (pp & _ & Hrest).
  apply bind_Ok in Hrest as (h3 & E3 & Hrest).
  apply bind_Ok in Hrest as (pp' & _ & Hrest).
  apply bind_Ok in Hrest as (h4 & E4 & Hrest).
  apply bind_Ok in Hrest as (h5 & E5 & Hrest).
  eapply set_next_absent; [done|]. eapply set_prev_absent; [done|].
  eapply set_prev_absent; [done|]. eapply set_next_absent; [done|].
  eapply set_prev_absent; [done|]. by eapply set_next_absent.
Qed.

(** The list operations write to allocated elements only. *)
Lemma list_move_assign_absent h this r h' y :
  list_move_assign this r h = Ok h' → h !! y = None → h' !! y = None.
Proof.
  unfold list_move_assign. intros (h1 & E1 & Hrest)%bind_Ok Hy.
  apply bind_Ok in Hrest as (b & _ & Hrest).
  apply (splice_absent _ _ _ _ _ _ Hrest). by eapply clear_absent.
Qed.

End written_keys.

Lemma retarget_walkers_wlinks fuel c : ∀ it st st',
  retarget_walkers fuel c it st = Ok st' → wlinks st' = wlinks st.
Proof.
  induction fuel as [|fuel IH]; intros it st st'; simpl; [done|].
  case_bool_decide; [by intros [= ->]|].
  destruct it as [[c'|d']|]; try done.
  intros (w & _ & Hrest)%bind_Ok.
  apply bind_Ok in Hrest as (n & _ & Hrest).
  by rewrite (IH _ _ _ Hrest).
Qed.

Lemma movelinks_absent this r st st' y :
  movelinks2empty this r st = Ok st' → wlinks st !! y = None → wlinks st' !! y = None.
Proof.
  unfold movelinks2empty. intros (h1 & _ & Hrest)%bind_Ok Hy.
  apply bind_Ok in Hrest as (h2 & E2 & Hrest).
  apply bind_Ok in Hrest as (b & _ & Hrest).
  rewrite (retarget_walkers_wlinks _ _ _ _ _ Hrest). simpl.
  by eapply list_move_assign_absent.
Qed.

Section parentless.
Context (s : addr).

(** The last connection of the signal [s], with a [parent] field that does
    not hold the address of [s]: the successor position, the end of [s], is
    not the position the field gives, so [disconnect] takes the branch that
    splices into [asit->lst], the walker list of a connection that would
    lie at the address of the signal. *)
Lemma disconnect_stray st L1 c W p sl :
  rep st s (L1 ++ [c]) W → conns st !! c = Some (Conn p sl) → p ≠ Some s →
  wlinks st !! WRoot s = None →
  disconnect c st = Fault.
Proof.
  intros Hr Hk Hp Hs.
  assert (c ∈ L1 ++ [c]) as Hc by apply elem_mid.
  destruct (dlist_unlink _ _ _ _ _ (rep_conns _ _ _ _ Hr)) as (hc & Hun & _).
  pose proof (rep_walk _ _ _ _ Hr c Hc) as Hwc.
  destruct (mark_walkers_spec c (Some s) (W c) [] (with_clinks hc st)
              (size (wlinks st))) as (m & Hm & _).
  { done. } { intros d Hd. simpl. by apply (rep_walkers_alloc s _ _ _ _ _ Hr Hc). }
  { pose proof (dlist_size _ _ _ Hwc) as Hsz. by rewrite length_fmap in Hsz. }
  unfold disconnect. rewrite Hun. simpl.
  unfold begin. rewrite (get_next_ok _ _ _ (dlist_root_nxt _ _ _ Hwc)). simpl.
  rewrite Hm. simpl. unfold parent_end. simpl. rewrite Hk. simpl.
  rewrite bool_decide_eq_true_2 by (intros E; apply Hp; by rewrite <-E).
  simpl. unfold get_next. simpl. by rewrite Hs.
Qed.

(** An unlinked connection without walkers: [disconnect] changes nothing,
    whatever its [parent] field holds. *)
Lemma disconnect_idle st c p sl :
  clinks st !! c = Some (ListElement None None) →
  dlist (wlinks st) (WRoot c) [] →
  conns st !! c = Some (Conn p sl) →
  disconnect c st = Ok st.
Proof.
  intros Hc Hw Hk. unfold disconnect.
  rewrite (unlink_unlinked _ _ Hc). simpl. rewrite with_clinks_id.
  unfold parent_end. rewrite Hk. simpl.
  unfold begin. rewrite (get_next_ok _ _ _ (dlist_root_nxt _ _ _ Hw)). simpl.
  pose proof (dlist_size _ _ _ Hw) as Hsz. simpl in Hsz.
  destruct (size (wlinks st)) as [|n]; [lia|]. simpl.
  rewrite bool_decide_eq_true_2 by done. simpl. rewrite Hk. simpl.
  rewrite bool_decide_eq_false_2 by (intros Hne; by apply Hne).
  rewrite (clear_empty _ _ Hw). simpl. by rewrite with_wlinks_id.
Qed.

End parentless.

(** X12: Neither move writes the [parent] field of the storage moved to,
    and [disconnect] compares the position that field gives with the
    successor of the connection.  After a connection of a signal has been
    moved, by the move constructor or by move assignment into a default
    constructed connection: when the new storage is not the last connection,
    [disconnect] unlinks it as it does any connection and hands its walkers
    to the successor; when it is the last one and a walker is parked on it,
    the comparison with the end of the signal fails and [disconnect], and so
    the destructor, splice the walker into the walker list of a connection
    that would lie at the address of the signal: a fault, no connection
    being there.  [disconnect] of the moved-from connection changes
    nothing. *)
Theorem moved_connection_disconnects_unless_last st s L1 r L2 W this pr sl :
  rep st s (L1 ++ r :: L2) W →
  this ∉ s :: L1 ++ r :: L2 →
  conns st !! r = Some (Conn pr sl) →
  wlinks st !! WRoot s = None →
  ∃ st1 st2,
    move_construct this r st = Ok st1
    ∧ move_assign this r (default_connection this st) = Ok st2
    ∧ conns st1 !! this = Some (Conn None sl) ∧ conns st2 !! this = Some (Conn None sl)
    ∧ (L2 ≠ [] →
       ∃ st1' st2',
         disconnect this st1 = Ok st1' ∧ disconnect this st2 = Ok st2'
         ∧ rep st1' s (L1 ++ L2) (redirect (<[this := W r]> W) this L2)
         ∧ rep st2' s (L1 ++ L2) (redirect (<[this := W r]> W) this L2)
         ∧ clinks st1' !! this = Some (ListElement None None)
         ∧ clinks st2' !! this = Some (ListElement None None)
         ∧ (∀ d, d ∈ W r →
              walkers st1' !! d = Some (IterationData (Some (hd s L2)) true)
              ∧ walkers st2' !! d = Some (IterationData (Some (hd s L2)) true)))
    ∧ (L2 = [] → W r ≠ [] →
       disconnect this st1 = Fault ∧ destroy_connection this st1 = Fault
       ∧ disconnect this st2 = Fault ∧ destroy_connection this st2 = Fault)
    ∧ disconnect r st1 = Ok st1 ∧ disconnect r st2 = Ok st2.
Proof.
  intros Hr Hthis Hkr Hs.
  assert (this ≠ r) as Hne.
  { intros ->. apply Hthis. apply elem_of_cons. right. apply elem_mid. }
  assert (this ≠ s) as Hns.
  { intros ->. apply Hthis. by apply elem_of_cons; left. }
  (* the move constructor *)
  set (sta := with_conns (<[r := Conn pr None]>
                (conns (new_connection this None sl st)))
                (new_connection this None sl st)).
  destruct (rep_new_connection s st _ W this None sl Hr Hthis) as (Hra & Hcla & Hwa).
  apply (rep_with_conns s _ _ _ (conns sta)) in Hra.
  destruct (movelinks_rep s sta L1 r L2 W this Hra Hthis Hcla Hwa)
    as (st1 & Hmv1 & Hr1 & Hc1 & Hw1 & Eco1 & _).
  assert (wlinks st1 !! WRoot s = None) as Hs1.
  { apply (movelinks_absent _ _ _ _ _ Hmv1). simpl. unfold list_init.
    rewrite lookup_insert_ne; [done|]. by intros [= ->]. }
  (* move assignment into a default constructed connection *)
  destruct (rep_new_connection s st _ W this None None Hr Hthis) as (Hrb & Hclb & Hwb).
  destruct (movelinks_rep s (default_connection this st) L1 r L2 W this Hrb Hthis Hclb Hwb)
    as (st2' & Hmv2 & Hr2 & Hc2 & Hw2 & Eco2 & _).
  assert (wlinks st2' !! WRoot s = None) as Hs2.
  { apply (movelinks_absent _ _ _ _ _ Hmv2). simpl. unfold list_init.
    rewrite lookup_insert_ne; [done|]. by intros [= ->]. }
  set (st2 := with_conns (<[r := Conn pr None]>
                 (<[this := Conn None sl]> (conns st2'))) st2').
  apply (rep_with_conns s _ _ _ (conns st2)) in Hr2.
  change (with_conns (conns st2) st2') with st2 in Hr2.
  assert (conns st1 !! this = Some (Conn None sl)) as Hk1.
  { rewrite Eco1. unfold sta. simpl. rewrite lookup_insert_ne by done.
    by rewrite lookup_insert_eq. }
  assert (conns st2 !! this = Some (Conn None sl)) as Hk2.
  { unfold st2. simpl. rewrite lookup_insert_ne by done. by rewrite lookup_insert_eq. }
  assert (conns st1 !! r = Some (Conn pr None)) as Hkr1.
  { rewrite Eco1. unfold sta. simpl. by rewrite lookup_insert_eq. }
  assert (conns st2 !! r = Some (Conn pr None)) as Hkr2.
  { unfold st2. simpl. by rewrite lookup_insert_eq. }
  exists st1, st2. split_and!; try done.
  - unfold move_construct. rewrite Hkr. simpl. exact Hmv1.
  - unfold move_assign. rewrite bool_decide_eq_false_2 by done.
    rewrite Hmv2. simpl. rewrite Eco2. simpl.
    rewrite lookup_insert_eq. simpl. rewrite lookup_insert_ne by done. rewrite Hkr.
    simpl. unfold st2. by rewrite Eco2.
  - intros HL2.
    assert (match L2 with [] => None = Some s | n :: _ => None ≠ Some n end) as Hfit.
    { by destruct L2. }
    destruct (disconnect_rep_any s st1 L1 this L2 _ None sl Hr1 Hk1 Hfit)
      as (st1' & Hd1 & Hr1' & Hcl1 & _ & Hin1 & _).
    destruct (disconnect_rep_any s st2 L1 this L2 _ None sl Hr2 Hk2 Hfit)
      as (st2'' & Hd2 & Hr2' & Hcl2 & _ & Hin2 & _).
    exists st1', st2''. split_and!; try done.
    intros d Hd. split; [apply Hin1|apply Hin2]; by rewrite fn_lookup_insert.
  - intros -> _. split_and!.
    + by apply (disconnect_stray s st1 L1 this (<[this := W r]> W) None sl).
    + unfold destroy_connection.
      by rewrite (disconnect_stray s st1 L1 this (<[this := W r]> W) None sl).
    + by apply (disconnect_stray s st2 L1 this (<[this := W r]> W) None sl).
    + unfold destroy_connection.
      by rewrite (disconnect_stray s st2 L1 this (<[this := W r]> W) None sl).
  - by apply (disconnect_idle st1 r pr None).
  - by apply (disconnect_idle st2 r pr None).
Qed.

(** On the running example: 12, in front of 11, is moved to 14; and on the
    running example with a walker parked on 11, the last connection, which
    is moved to 14. *)
Lemma moved_connection_disconnects_unless_last_witness :
  (∃ st1 st1', move_construct 14 12 (scene []) = Ok st1
     ∧ disconnect 14 st1 = Ok st1'
     ∧ rep st1' 10 ([13] ++ [11]) (redirect (<[14 := []]> (λ _, [])) 14 [11])
     ∧ disconnect 12 st1 = Ok st1)
  ∧ (∃ st st2, plant 11 (scene []) = Ok st
       ∧ move_assign 14 11 (default_connection 14 st) = Ok st2
       ∧ conns st2 !! 14 = Some (Conn None (Some (Slot 1 [])))
       ∧ disconnect 14 st2 = Fault ∧ destroy_connection 14 st2 = Fault).
Proof.
  split.
  - destruct (moved_connection_disconnects_unless_last (scene []) 10 [13] 12 [11]
                (λ _, []) 14 (Some 10) (Some (Slot 2 [])))
      as (st1 & st2 & Hm1 & _ & _ & _ & Hmid & _ & Hold & _).
    + apply scene_rep.
    + compute_done.
    + reflexivity.
    + reflexivity.
    + destruct Hmid as (st1' & _ & Hd & _ & Hr & _); [done|].
      by exists st1, st1'.
  - destruct (plant_rep 10 (scene []) [13; 12; 11] (λ _, []) 11 (scene_rep []))
      as (st & Hpl & Hr & _ & _ & Eco & _); [compute_done|].
    assert (wlinks st !! WRoot 10 = wlinks (scene []) !! WRoot 10) as Hs.
    { apply (plant_other 10 (scene []) [13; 12; 11] (λ _, []) 11 st);
        [apply scene_rep|compute_done|done|compute_done|done]. }
    destruct (moved_connection_disconnects_unless_last st 10 [13; 12] 11 []
                (<[11 := [0]]> (λ _, [])) 14 (Some 10) (Some (Slot 1 [])))
      as (st1 & st2 & _ & Hm2 & _ & Hk2 & _ & Hlast & _).
    + exact Hr.
    + compute_done.
    + rewrite Eco. reflexivity.
    + rewrite Hs. reflexivity.
    + destruct (Hlast eq_refl) as (_ & _ & Hd & Hdes); [done|].
      by exists st, st2.
Defined.

(** The range-for of [movelinks2empty] rewrites [held] only: no walker
    appears, disappears or changes its [deleted] flag. *)
Lemma retarget_walkers_deleted fuel c : ∀ it st st' d,
  retarget_walkers fuel c it st = Ok st' →
  deleted <$> walkers st' !! d = deleted <$> walkers st !! d.
Proof.
  induction fuel as [|fuel IH]; intros it st st' d; simpl; [done|].
  case_bool_decide; [by intros [= ->]|].
  destruct it as [[c'|d']|]; try done.
  intros (w & Hw & Hrest)%bind_Ok.
  apply bind_Ok in Hrest as (n & _ & Hrest).
  rewrite (IH _ _ _ d Hrest). simpl.
  destruct (decide (d' = d)) as [->|Hne].
  - rewrite lookup_insert_eq. destruct (walkers st !! d); [|done].
    simpl in Hw. by injection Hw as ->.
  - by rewrite lookup_insert_ne.
Qed.

Lemma movelinks_deleted this r st st' d :
  movelinks2empty this r st = Ok st' →
  deleted <$> walkers st' !! d = deleted <$> walkers st !! d.
Proof.
  unfold movelinks2empty.
  intros (h1 & _ & Hrest)%bind_Ok.
  apply bind_Ok in Hrest as (h2 & _ & Hrest).
  apply bind_Ok in Hrest as (b & _ & Hrest).
  by rewrite (retarget_walkers_deleted _ _ _ _ _ d Hrest).
Qed.


(** X13: The callback of the connection [k] being visited moves [k] into an
    unlinked connection [this].  The walker follows the move with [held]
    rewritten but without the [deleted] mark, so the step advances from the
    old storage, whose [next] is null by then: the emission returns at
    once.  The connections [rest] behind [k] stay connected, behind [this],
    and are not visited. *)
Theorem moving_visited_connection_ends_emission st s pre k rest W this pt slt pk idk fuel :
  rep st s (pre ++ k :: rest) W →
  this ∉ s :: pre ++ k :: rest →
  clinks st !! this = Some (ListElement None None) →
  dlist (wlinks st) (WRoot this) [] →
  conns st !! this = Some (Conn pt slt) →
  conns st !! k = Some (Conn pk (Some (Slot idk [OpMove this k]))) →
  3 ≤ fuel →
  ∃ st' W',
    emit_loop fuel s (Some k) st = Ok (Normal, st')
    ∧ trace st' = trace st ++ [idk]
    ∧ rep st' s (pre ++ this :: rest) W'
    ∧ conns st' !! this = Some (Conn pt (Some (Slot idk [OpMove this k])))
    ∧ conns st' !! k = Some (Conn pk None)
    ∧ clinks st' !! k = Some (ListElement None None)
    ∧ depth st' = depth st.
Proof.
  intros Hr Hthis Hcl Hwt Hkt Hkk Hfuel.
  destruct fuel as [|[|[|fuel]]]; try lia.
  assert (k ∈ pre ++ k :: rest) as Hkin by apply elem_mid.
  assert (this ≠ k) as Hne.
  { intros ->. apply Hthis. by apply elem_of_cons; right. }
  destruct (plant_rep s st _ W k Hr Hkin)
    as (st1 & Hpl & Hr1 & Hdep1 & Ecl1 & Eco1 & Efl1 & Etr1 & Ewa1).
  set (t := trace st ++ [idk]).
  apply (rep_with_trace s _ _ _ t) in Hr1.
  assert (wlinks st1 !! WRoot this = wlinks st !! WRoot this) as Hfr.
  { apply (plant_other s st _ W k st1 _ Hr Hkin Hpl); [|done].
    intros [[= ?]|(d & [=] & _)%list_elem_of_fmap]%elem_of_cons. done. }
  destruct (movelinks_rep s (with_trace t st1) pre k rest _ this Hr1 Hthis)
    as (st2 & Hmv & Hr2 & Hc2 & Hw2 & Eco2 & Efl2 & Edep2 & Etr2).
  { simpl. by rewrite Ecl1. }
  { apply dlist_nil. simpl. rewrite Hfr. by apply dlist_nil_inv. }
  pose proof (movelinks_deleted _ _ _ _ (depth st) Hmv) as Hdel.
  simpl in Hdel. rewrite Ewa1, lookup_insert_eq in Hdel. simpl in Hdel.
  destruct (walkers st2 !! depth st) as [w|] eqn:Hw; [|done].
  simpl in Hdel. injection Hdel as Hdel.
  simpl in Eco2, Efl2, Edep2, Etr2.
  set (st3 := with_conns
                (<[k := Conn pk None]>
                   (<[this := Conn pt (Some (Slot idk [OpMove this k]))]> (conns st2)))
                st2).
  apply (rep_with_conns s _ _ _ (conns st3)) in Hr2. fold st3 in Hr2.
  destruct (retire_rep s st3 _ _ (depth st) Hr2) as (st4 & W4 & Hret & Hr4 & Ecl4 & Eco4 & Efl4 & Etr4 & Edep4).
  { simpl. by rewrite Edep2, Hdep1. }
  { left. exists this. split; [apply elem_mid|].
    rewrite !fn_lookup_insert. by apply elem_of_cons; left. }
  rewrite emit_loop_unfold, bool_decide_eq_false_2.
  2:{ unfold end_. intros [= ->]. by apply (rep_not_root s st _ W s Hr). }
  simpl. rewrite Hpl. simpl. rewrite Eco1, Hkk. simpl.
  rewrite run_ops_cons, Etr1. fold t.
  unfold move_assign. rewrite bool_decide_eq_false_2 by done.
  rewrite Hmv. simpl. rewrite Eco2, Eco1, Hkt, Hkk. simpl.
  rewrite <-Eco1, <-Eco2. fold st3.
  unfold advance. simpl. rewrite Hw. simpl. rewrite Hdel.
  unfold get_next. simpl. rewrite Hc2. simpl.
  rewrite Hret. simpl.
  exists st4, W4. split; [done|]. split_and!.
  - by rewrite Etr4.
  - done.
  - rewrite Eco4. simpl. rewrite lookup_insert_ne by done. by rewrite lookup_insert_eq.
  - rewrite Eco4. simpl. by rewrite lookup_insert_eq.
  - by rewrite Ecl4.
  - done.
Qed.

Lemma moving_visited_connection_ends_emission_witness :
  ∃ st' W',
    emit_loop 5 10 (Some 12) (default_connection 14 (scene [OpMove 14 12]))
      = Ok (Normal, st')
    ∧ trace st' = [] ++ [2]
    ∧ rep st' 10 ([13] ++ 14 :: [11]) W'
    ∧ conns st' !! 14 = Some (Conn None (Some (Slot 2 [OpMove 14 12])))
    ∧ conns st' !! 12 = Some (Conn (Some 10) None)
    ∧ clinks st' !! 12 = Some (ListElement None None)
    ∧ depth st' = 0.
Proof.
  apply (moving_visited_connection_ends_emission
           (default_connection 14 (scene [OpMove 14 12])) 10 [13] 12 [11] (λ _, []) 14
           None None (Some 10) 2 5).
  - apply rep_new_connection; [apply scene_rep|compute_done].
  - compute_done.
  - reflexivity.
  - apply dlist_nil. reflexivity.
  - reflexivity.
  - reflexivity.
  - lia.
Defined.

(** ** Connecting and disconnecting *)

(** [disconnect] undoes the [push_front] of [connect]. *)
Lemma disconnect_undoes_push_front st0 s L W c sl h1 :
  rep st0 s L W → c ∉ s :: L →
  clinks st0 !! c = Some (ListElement None None) →
  dlist (wlinks st0) (WRoot c) [] →
  conns st0 !! c = Some (Conn (Some s) sl) →
  push_front s c (clinks st0) = Ok h1 →
  disconnect c (with_clinks h1 st0) = Ok st0.
Proof.
  intros Hr0 Hc Hc0 Hw0 Hk Hpf.
  unfold push_front, begin in Hpf.
  rewrite (get_next_ok _ _ _ (dlist_root_nxt _ _ _ (rep_conns _ _ _ _ Hr0))) in Hpf.
  simpl in Hpf.
  pose proof (insert_unlink_restores (clinks st0) s [] L c h1 (rep_conns _ _ _ _ Hr0) Hc Hc0 Hpf)
    as Hun.
  assert (with_clinks (clinks st0) (with_clinks h1 st0) = st0) as Est by (by destruct st0).
  unfold disconnect. simpl clinks. rewrite Hun. simpl. rewrite Est.
  unfold begin. rewrite (get_next_ok _ _ _ (dlist_root_nxt _ _ _ Hw0)). simpl.
  pose proof (dlist_size _ _ _ Hw0) as Hsz. simpl in Hsz.
  destruct (size (wlinks st0)) as [|n] eqn:Esz; [lia|]. simpl.
  rewrite bool_decide_eq_true_2 by done. simpl.
  unfold parent_end. rewrite Hk. simpl.
  destruct L as [|n' L]; simpl.
  - rewrite bool_decide_eq_false_2 by (intros Hne; by apply Hne).
    rewrite (clear_empty _ _ Hw0). simpl. by rewrite with_wlinks_id.
  - assert (n' ≠ s) as Hns.
    { intros ->. pose proof (dlist_NoDup _ _ _ (rep_conns _ _ _ _ Hr0)) as Hnd.
      apply NoDup_cons in Hnd as [Hnd _]. apply Hnd. by apply elem_of_cons; left. }
    rewrite bool_decide_eq_true_2 by congruence. simpl.
    assert (n' ∈ n' :: L) as Hn by (by apply elem_of_cons; left).
    rewrite (get_next_ok _ _ _ (dlist_root_nxt _ _ _ (rep_walk _ _ _ _ Hr0 n' Hn))).
    simpl. rewrite (get_next_ok _ _ _ (dlist_root_nxt _ _ _ Hw0)). simpl.
    unfold splice, end_. rewrite (bool_decide_eq_true_2 (Some (WRoot c) = _)) by done.
    rewrite orb_true_r. simpl. by rewrite with_wlinks_id.
Qed.

(** X14: A connection disconnected right after [connect] leaves every link of
    the signal and of the other connections exactly as before the call:
    the state is the one in which the connection has only been
    constructed.  When the storage was fresh, destroying the connection
    instead gives back the very state before [connect]. *)
Theorem connect_disconnect_round_trip st s L W c sl :
  rep st s L W → c ∉ s :: L →
  ∃ st1, connect s c sl st = Ok st1
    ∧ rep st1 s (c :: L) (<[c := []]> W)
    ∧ disconnect c st1 = Ok (new_connection c (Some s) (Some sl) st)
    ∧ (clinks st !! c = None → wlinks st !! WRoot c = None → conns st !! c = None →
       destroy_connection c st1 = Ok st).
Proof.
  intros Hr Hc.
  destruct (connect_rep s st L W c sl Hr Hc) as (st1 & Hco & Hr1 & _).
  exists st1. split; [done|]. split; [done|].
  destruct (rep_new_connection s st L W c (Some s) (Some sl) Hr Hc) as (Hr0 & Hc0 & Hw0).
  assert (conns (new_connection c (Some s) (Some sl) st) !! c
          = Some (Conn (Some s) (Some sl))) as Hk0.
  { simpl. by rewrite lookup_insert_eq. }
  unfold connect in Hco.
  apply bind_Ok in Hco as (h1 & Hpf & [= <-]).
  pose proof (disconnect_undoes_push_front _ s L W c _ h1 Hr0 Hc Hc0 Hw0 Hk0 Hpf) as Hdis.
  split; [done|].
  intros Fc Fw Fk.
  rewrite (destroy_connection_after _ c _ Hdis Hc0 Hw0).
  f_equal. destruct st. unfold new_connection, list_init. simpl in *.
  by rewrite !delete_insert_eq, !delete_id.
Qed.

Lemma connect_disconnect_round_trip_witness :
  ∃ st1, connect 10 14 (Slot 4 []) (scene []) = Ok st1
    ∧ rep st1 10 (14 :: [13; 12; 11]) (<[14 := []]> (λ _, []))
    ∧ disconnect 14 st1 = Ok (new_connection 14 (Some 10) (Some (Slot 4 [])) (scene []))
    ∧ (clinks (scene []) !! 14 = None → wlinks (scene []) !! WRoot 14 = None →
       conns (scene []) !! 14 = None →
       destroy_connection 14 st1 = Ok (scene [])).
Proof.
  apply (connect_disconnect_round_trip (scene []) 10 [13; 12; 11] (λ _, []) 14 (Slot 4 [])).
  - apply scene_rep.
  - compute_done.
Defined.

(** ** Walkers of a disconnected connection; assignment onto a subscriber *)

Lemma scene_parked_planted : plant 12 (scene []) = Ok scene_parked.
Proof. vm_compute. reflexivity. Qed.

Lemma scene_parked_rep : rep scene_parked 10 [13; 12; 11] (<[12 := [0]]> (λ _, [])).
Proof.
  destruct (plant_rep 10 (scene []) [13; 12; 11] (λ _, []) 12 (scene_rep []))
    as (st1 & Hpl & Hr & _); [compute_done|].
  rewrite scene_parked_planted in Hpl. by injection Hpl as <-.
Qed.

(** X15: [disconnect] of a connection [x] of a signal, at any time.  The
    call compares the successor of [x] with the position [parent->lst.end()].
    When [x] is last and its [parent] field holds the address of the signal,
    or [x] is not last and the field does not hold the address of its
    successor (a field never written included): [x] leaves the list and the
    other connections keep their order; every walker parked on [x] is marked
    [deleted] and holds the successor of [x] (the end position when [x] was
    last); those walkers are parked, in their order, in front of the walkers
    of the successor (or unlinked when [x] was last); no other walker
    changes.  When [x] is last, its [parent] field does not hold the
    address of the signal and a walker is parked on [x], the call splices
    the walker into the walker list of a connection that would lie at the
    address of the signal: a fault, no connection being there. *)
Theorem disconnect_redirects_walkers st s L1 x L2 W p sl :
  rep st s (L1 ++ x :: L2) W → conns st !! x = Some (Conn p sl) →
  (match L2 with [] => p = Some s | n :: _ => p ≠ Some n end →
   ∃ st', disconnect x st = Ok st'
     ∧ rep st' s (L1 ++ L2) (redirect W x L2)
     ∧ clinks st' !! x = Some (ListElement None None)
     ∧ dlist (wlinks st') (WRoot x) []
     ∧ (∀ d, d ∈ W x → walkers st' !! d = Some (IterationData (Some (hd s L2)) true))
     ∧ (∀ d, d ∉ W x → walkers st' !! d = walkers st !! d)
     ∧ (L2 = [] → ∀ d, d ∈ W x → wlinks st' !! WNode d = Some (ListElement None None))
     ∧ conns st' = conns st ∧ depth st' = depth st)
  ∧ (L2 = [] → p ≠ Some s → W x ≠ [] → wlinks st !! WRoot s = None →
     disconnect x st = Fault).
Proof.
  intros Hr Hk. split.
  - intros Hfit.
    destruct (disconnect_rep_any s st L1 x L2 W p sl Hr Hk Hfit)
      as (st' & Hdis & Hr' & Hc & Hw & Hin & Hout & Hlast & _ & Eco & _ & Edep & _).
    by exists st'.
  - intros -> Hp _ Hs. by apply (disconnect_stray s st L1 x W p sl).
Qed.

(** On the running example with a walker parked on 12, which is
    disconnected; and on the lone connection stored by move assignment,
    with a walker parked on it. *)
Lemma disconnect_redirects_walkers_witness :
  (∃ st', disconnect 12 scene_parked = Ok st'
     ∧ rep st' 10 ([13] ++ [11]) (redirect (<[12 := [0]]> (λ _, [])) 12 [11])
     ∧ clinks st' !! 12 = Some (ListElement None None)
     ∧ dlist (wlinks st') (WRoot 12) []
     ∧ (∀ d, d ∈ [0] →
          walkers st' !! d = Some (IterationData (Some (hd 10 [11])) true))
     ∧ (∀ d, d ∉ [0] → walkers st' !! d = walkers scene_parked !! d)
     ∧ conns st' = conns scene_parked ∧ depth st' = depth scene_parked)
  ∧ disconnect 14 (lone_parked []) = Fault.
Proof.
  split.
  - destruct (disconnect_redirects_walkers scene_parked 10 [13] 12 [11]
                (<[12 := [0]]> (λ _, [])) (Some 10) (Some (Slot 2 [])))
      as [Hok _].
    + apply scene_parked_rep.
    + reflexivity.
    + destruct Hok as (st' & ? & ? & ? & ? & ? & ? & _ & ? & ?); [done|].
      by exists st'.
  - destruct (disconnect_redirects_walkers (lone_parked []) 10 [] 14 []
                (<[14 := [0]]> (λ _, [])) None (Some (Slot 1 [])))
      as [_ Hstray].
    + apply lone_parked_rep.
    + reflexivity.
    + by apply Hstray.
Defined.

Section assigning.
Context (s : addr).

(** The first statement of the element's move assignment is [unlink()]. *)
Lemma element_move_assign_unlinks_first {K} `{Countable K}
    (h h1 : gmap K (list_element K)) this x n :
  unlink this h = Ok (n, h1) → h1 !! this = Some (ListElement None None) →
  element_move_assign this x h = element_move_assign this x h1.
Proof.
  intros Hun Hthis. unfold element_move_assign.
  rewrite Hun. by rewrite (unlink_unlinked _ _ Hthis).
Qed.

Lemma element_move_assign_unlinked {K} `{Countable K}
    (h : gmap K (list_element K)) this x :
  h !! this = Some (ListElement None None) → h !! x = Some (ListElement None None) →
  element_move_assign this x h = Ok h.
Proof.
  intros Hthis Hx. unfold element_move_assign. rewrite (unlink_unlinked _ _ Hthis). simpl.
  destruct (decide (this = x)) as [->|Hne].
  - unfold get_next, get_prev, set_next, set_prev. heap_red.
    f_equal. rewrite !insert_insert_eq. by apply insert_id.
  - unfold get_next, get_prev, set_next, set_prev. heap_red.
    f_equal. rewrite !insert_insert_eq.
    rewrite (insert_id h this) by done. by apply insert_id.
Qed.

(** The signal after the base of [this] has unlinked itself. *)
Lemma rep_unlinked st L1 this L2 W :
  rep st s (L1 ++ this :: L2) W →
  ∃ h1, unlink this (clinks st) = Ok (Some (hd s L2), h1)
    ∧ h1 !! this = Some (ListElement None None)
    ∧ rep (with_clinks h1 st) s (L1 ++ L2) W
    ∧ (this ∉ s :: L1 ++ L2)
    ∧ (∀ y, y ∉ s :: L1 ++ this :: L2 → h1 !! y = clinks st !! y).
Proof.
  intros Hr.
  destruct (dlist_unlink _ _ _ _ _ (rep_conns _ _ _ _ Hr))
    as (h1 & Hun & Hd1 & Hthis & _ & _ & Hfn & Hfp).
  pose proof (dlist_NoDup _ _ _ (rep_conns _ _ _ _ Hr)) as Hnd.
  assert (∀ c, c ∈ L1 ++ L2 → c ∈ L1 ++ this :: L2) as Hsub.
  { intros c [?|?]%elem_of_app; apply elem_of_app; [by left|right].
    by apply elem_of_cons; right. }
  exists h1. split_and!; try done.
  - split; simpl.
    + done.
    + intros c Hc. by apply (rep_walk _ _ _ _ Hr), Hsub.
    + intros c d Hc. by apply (rep_held _ _ _ _ Hr), Hsub.
    + intros c c' d Hc Hc'. apply (rep_disj _ _ _ _ Hr); by apply Hsub.
    + apply (rep_free _ _ _ _ Hr).
  - apply NoDup_cons in Hnd as [Hr' Hnd]. intros [->|Hin]%elem_of_cons.
    + apply Hr'. apply elem_mid.
    + by apply (NoDup_mid1 _ _ _ _ Hnd Hin).
  - intros y Hy. apply lookup_frame; [apply Hfn|apply Hfp]; intros ->; apply Hy.
    + apply elem_of_cons. right. apply elem_mid.
    + apply last_or_in.
    + apply elem_of_cons. right. apply elem_mid.
    + pose proof (hd_in s L1 L2) as Hh.
      apply elem_of_cons in Hh as [Hh|Hh]; apply elem_of_cons; [by left|right].
      by apply Hsub.
Qed.

Lemma movelinks_unlinks_first st this r n h1 :
  unlink this (clinks st) = Ok (n, h1) → h1 !! this = Some (ListElement None None) →
  movelinks2empty this r st = movelinks2empty this r (with_clinks h1 st).
Proof.
  intros Hun Hthis. unfold movelinks2empty. simpl.
  by rewrite (element_move_assign_unlinks_first _ _ _ _ _ Hun Hthis).
Qed.

(** Moving from a connection that is in no list and has no walkers into
    one that is in no list and has no walkers changes no link. *)
Lemma movelinks_unlinked st this r :
  clinks st !! this = Some (ListElement None None) →
  clinks st !! r = Some (ListElement None None) →
  dlist (wlinks st) (WRoot this) [] → dlist (wlinks st) (WRoot r) [] →
  movelinks2empty this r st = Ok st.
Proof.
  intros Hthis Hr Hwt Hwr. unfold movelinks2empty.
  rewrite (element_move_assign_unlinked _ _ _ Hthis Hr). simpl.
  rewrite with_clinks_id. unfold list_move_assign.
  rewrite (clear_empty _ _ Hwt). simpl.
  unfold begin. rewrite (get_next_ok _ _ _ (dlist_root_nxt _ _ _ Hwr)). simpl.
  unfold splice, end_. rewrite (bool_decide_eq_true_2 (Some (WRoot r) = _)) by done.
  rewrite orb_true_r. simpl. rewrite with_wlinks_id.
  rewrite (get_next_ok _ _ _ (dlist_root_nxt _ _ _ Hwt)). simpl.
  pose proof (dlist_size _ _ _ Hwt) as Hsz. simpl in Hsz.
  destruct (size (wlinks st)) as [|n]; [lia|]. simpl.
  by rewrite bool_decide_eq_true_2.
Qed.

End assigning.

(** X16: Move assignment [this = std::move(r)] onto a connection [this] that is
    itself connected and has no parked walker.  The target first leaves its
    own place: its subscription is dropped.  When [r] is connected to the
    same signal, [this] then takes the place and the callback of [r], and
    the walkers parked on [r]; when [r] is in no list, [this] stays
    unlinked.  In both cases [r] ends unlinked with an empty callback, and
    the callback [this] had is lost. *)
Theorem move_assign_onto_connected st s L1 this L2 W r pt slt pr slr :
  rep st s (L1 ++ this :: L2) W → W this = [] →
  conns st !! this = Some (Conn pt slt) → conns st !! r = Some (Conn pr slr) →
  this ≠ r →
  (∀ A B, L1 ++ L2 = A ++ r :: B →
     ∃ st', move_assign this r st = Ok st'
       ∧ rep st' s (A ++ this :: B) (<[this := W r]> W)
       ∧ conns st' !! this = Some (Conn pt slr)
       ∧ conns st' !! r = Some (Conn pr None)
       ∧ clinks st' !! r = Some (ListElement None None)
       ∧ dlist (wlinks st') (WRoot r) [])
  ∧ (r ∉ s :: L1 ++ this :: L2 →
     clinks st !! r = Some (ListElement None None) →
     dlist (wlinks st) (WRoot r) [] →
     ∃ st', move_assign this r st = Ok st'
       ∧ rep st' s (L1 ++ L2) W
       ∧ conns st' !! this = Some (Conn pt slr)
       ∧ conns st' !! r = Some (Conn pr None)
       ∧ clinks st' !! this = Some (ListElement None None)
       ∧ clinks st' !! r = Some (ListElement None None)).
Proof.
  intros Hr HW Hkt Hkr Hne.
  destruct (rep_unlinked s st L1 this L2 W Hr) as (h1 & Hun & Hthis & Hr1 & Hfresh & Hfr).
  assert (this ∈ L1 ++ this :: L2) as Htin by apply elem_mid.
  pose proof (rep_walk _ _ _ _ Hr this Htin) as Hwt. rewrite HW in Hwt. simpl in Hwt.
  pose proof (movelinks_unlinks_first st this r _ h1 Hun Hthis) as Heq.
  split.
  - intros A B HAB. rewrite HAB in Hr1.
    assert (this ∉ s :: A ++ r :: B) as Hfresh' by (by rewrite <-HAB).
    destruct (movelinks_rep s (with_clinks h1 st) A r B W this Hr1 Hfresh' Hthis Hwt)
      as (st2 & Hmv & Hr2 & Hc2 & Hw2 & Eco2 & _).
    simpl in Eco2.
    eexists. split.
    { unfold move_assign. rewrite bool_decide_eq_false_2 by done.
      rewrite Heq, Hmv. simpl. rewrite Eco2, Hkt, Hkr. simpl. reflexivity. }
    split_and!; simpl; try done.
    + by apply rep_with_conns.
    + rewrite lookup_insert_ne by done. by rewrite lookup_insert_eq.
    + by rewrite lookup_insert_eq.
  - intros Hrn Hrc Hwr.
    assert (h1 !! r = Some (ListElement None None)) as Hr1c by (by rewrite Hfr).
    pose proof (movelinks_unlinked (with_clinks h1 st) this r Hthis Hr1c Hwt Hwr) as Hmv.
    eexists. split.
    { unfold move_assign. rewrite bool_decide_eq_false_2 by done.
      rewrite Heq, Hmv. simpl. rewrite Hkt, Hkr. simpl. reflexivity. }
    split_and!; simpl; try done.
    + by apply (rep_with_conns s (with_clinks h1 st)).
    + rewrite lookup_insert_ne by done. by rewrite lookup_insert_eq.
    + by rewrite lookup_insert_eq.
Qed.

(** On the running example: 11 is assigned 13; 11 is assigned a default
    constructed connection. *)
Lemma move_assign_onto_connected_witness :
  (∃ st', move_assign 11 13 (scene []) = Ok st'
     ∧ rep st' 10 [11; 12] (<[11 := []]> (λ _, []))
     ∧ conns st' !! 11 = Some (Conn (Some 10) (Some (Slot 3 [])))
     ∧ conns st' !! 13 = Some (Conn (Some 10) None))
  ∧ (∃ st', move_assign 11 14 (default_connection 14 (scene [])) = Ok st'
       ∧ rep st' 10 [13; 12] (λ _, [])
       ∧ conns st' !! 11 = Some (Conn (Some 10) None)
       ∧ clinks st' !! 11 = Some (ListElement None None)).
Proof.
  split.
  - destruct (move_assign_onto_connected (scene []) 10 [13; 12] 11 [] (λ _, []) 13
                (Some 10) (Some (Slot 1 [])) (Some 10) (Some (Slot 3 [])))
      as [Hlinked _].
    + apply scene_rep.
    + reflexivity.
    + reflexivity.
    + reflexivity.
    + lia.
    + destruct (Hlinked [] [12] eq_refl) as (st' & ? & ? & ? & ? & _). by exists st'.
  - destruct (move_assign_onto_connected (default_connection 14 (scene [])) 10
                [13; 12] 11 [] (λ _, []) 14
                (Some 10) (Some (Slot 1 [])) None None)
      as [_ Hunlinked].
    + apply rep_new_connection; [apply scene_rep|compute_done].
    + reflexivity.
    + reflexivity.
    + reflexivity.
    + lia.
    + destruct Hunlinked as (st' & ? & ? & ? & ? & ? & _).
      * compute_done.
      * reflexivity.
      * apply dlist_nil. reflexivity.
      * by exists st'.
Defined.

(** ** Callbacks that disconnect *)

Section disconnects.
Context (s : addr).
Implicit Types (st : state) (U L cur pre rest : list addr) (W : addr → list nat).

Lemma idle_not_root st L W c : rep st s L W → idle st c → c ∉ s :: L.
Proof.
  intros Hr [Hc _] Hin.
  destruct (dlist_linked _ _ _ _ (rep_conns _ _ _ _ Hr) Hin) as [z Hz].
  unfold nxt in Hz. by rewrite Hc in Hz.
Qed.

Lemma loose_not_parked st L W c d :
  rep st s L W → c ∈ L → wlinks st !! WNode d = Some (ListElement None None) →
  WNode d ∉ nodes W c.
Proof.
  intros Hr Hc Hl Hin.
  destruct (dlist_linked _ _ _ _ (rep_walk _ _ _ _ Hr c Hc) Hin) as [z Hz].
  unfold nxt in Hz. by rewrite Hl in Hz.
Qed.

Lemma node_parked W c d : WNode d ∈ nodes W c → d ∈ W c.
Proof.
  intros [[=]|Hin]%elem_of_cons. by apply list_elem_of_fmap in Hin as (d' & [= ->] & ?).
Qed.

(** [disconnect] keeps the other connections of [U] connected or idle. *)
Lemma disconnect_settled st U L1 X L2 W st' :
  rep st s (L1 ++ X :: L2) W → settled st s U (L1 ++ X :: L2) →
  disconnect X st = Ok st' → knows st X s →
  settled st' s U (L1 ++ L2).
Proof.
  intros Hr Hset Hdis Hkn.
  destruct (disconnect_rep s st L1 X L2 W Hr Hkn)
    as (st'' & Hdis' & Hr' & Hc' & Hw' & _ & _ & _ & Hwfr & Eco & _ & _ & _ & Hcfr & Hwfr2).
  rewrite Hdis in Hdis'. injection Hdis' as <-.
  intros c Hc. destruct (Hset c Hc) as [Hk Hwhere]. split.
  { unfold knows. by rewrite Eco. }
  destruct (decide (c = X)) as [->|Hne]; [by right|].
  destruct (decide (c ∈ L1 ++ X :: L2)) as [Hin|Hnin].
  - left. apply elem_of_app in Hin as [?|[?|?]%elem_of_cons]; [|done|];
      apply elem_of_app; [by left|by right].
  - destruct Hwhere as [?|[Hcl Hwl]]; [done|]. right.
    assert (c ∉ s :: L1 ++ X :: L2) as Hout.
    { apply (idle_not_root st _ W); [done|by split]. }
    split; [by rewrite Hcfr|].
    apply dlist_nil. rewrite Hwfr; [by apply dlist_nil_inv| |].
    + intros [[= ?]|(? & [=] & _)%list_elem_of_fmap]%elem_of_cons. done.
    + intros [[= Heq]|(? & [=] & _)%list_elem_of_fmap]%elem_of_cons.
      apply Hout. rewrite Heq. pose proof (hd_elem L2 s) as Hh.
      apply elem_of_app in Hh as [Hh|Hh%list_elem_of_singleton].
      * apply elem_of_cons. right. apply elem_of_app. right. by apply elem_of_cons; right.
      * rewrite Hh. by apply elem_of_cons; left.
Qed.

Lemma without_head X l : NoDup (X :: l) → without X (X :: l) = l.
Proof. intros Hnd. by apply (without_mid X [] l). Qed.

(** One [disconnect] made by the running callback. *)
Lemma disconnect_walking st U d k pre rest W cur X :
  walking st s d k pre rest W cur → settled st s U cur → X ∈ U →
  ∃ st' W', disconnect X st = Ok st'
    ∧ walking st' s d k (without X pre) (without X rest) W' (without X cur)
    ∧ settled st' s U (without X cur)
    ∧ conns st' = conns st ∧ flags st' = flags st ∧ trace st' = trace st.
Proof.
  intros (Hr & Hdep & Hpos) Hset HX.
  destruct (Hset X HX) as [Hkn Hwhere].
  pose proof (dlist_NoDup _ _ _ (rep_conns _ _ _ _ Hr)) as Hnd.
  apply NoDup_cons in Hnd as [_ Hnd].
  destruct (decide (X ∈ cur)) as [Hin|Hnin].
  2:{ (* already disconnected *)
    destruct Hwhere as [?|[Hc Hw]]; [done|]. destruct Hkn as [sl Hk].
    exists st, W. rewrite (disconnect_unlinked st X s sl Hc Hw Hk).
    rewrite (without_notin X cur Hnin).
    assert (without X pre = pre ∧ without X rest = rest) as [-> ->].
    { destruct Hpos as [(-> & _)|(-> & _)]; split; apply without_notin;
        intros ?; apply Hnin; apply elem_of_app; try (by left); right;
        try done; by apply elem_of_cons; right. }
    by split_and!. }
  destruct Hpos as [(Ecur & Hd & Hwk)|(Ecur & Hwk & Hpark)]; subst cur.
  - destruct (decide (X = k)) as [->|Hne].
    + (* the running callback disconnects its own connection *)
      destruct (disconnect_rep s st pre k rest W Hr Hkn)
        as (st' & Hdis & Hr' & _ & _ & Hin' & _ & Hloose' & _ & Eco & Efl & Edep & Etr & _).
      assert ((k ∉ pre) ∧ (k ∉ rest)) as [Hkp Hkr].
      { apply NoDup_app in Hnd as (_ & Hd1 & Hd2). apply NoDup_cons in Hd2 as [Hd2 _].
        split; [|done]. intros Hp. apply (Hd1 k Hp). by apply elem_of_cons; left. }
      exists st', (redirect W k rest).
      rewrite (without_mid k pre rest Hnd), (without_notin k pre Hkp),
        (without_notin k rest Hkr).
      split; [done|]. split; [|split; [by eapply disconnect_settled|done]].
      split; [done|]. split; [congruence|]. right.
      split; [done|]. split; [by apply Hin'|].
      destruct rest as [|n rest0]; [by apply Hloose'|].
      simpl. rewrite fn_lookup_insert. apply elem_of_app. by left.
    + (* another connection *)
      destruct (list_elem_of_split _ _ Hin) as (L1 & L2 & Heq).
      assert (without X (pre ++ k :: rest) = L1 ++ L2) as Hwo.
      { rewrite Heq. apply without_mid. by rewrite <-Heq. }
      assert (k ∈ pre ++ k :: rest) as Hkin by apply elem_mid.
      assert (d ∉ W X) as HdX.
      { intros Hd'. apply Hne. by apply (rep_disj _ _ _ _ Hr X k d). }
      rewrite Heq in Hr, Hset.
      destruct (disconnect_rep s st L1 X L2 W Hr Hkn)
        as (st' & Hdis & Hr' & _ & _ & _ & Hout' & _ & _ & Eco & Efl & Edep & Etr & _).
      exists st', (redirect W X L2). rewrite Hwo.
      split; [done|]. split; [|split; [by eapply disconnect_settled|done]].
      split; [done|]. split; [congruence|]. left.
      split; [by rewrite <-Hwo, without_app, without_cons_ne|].
      split; [by apply redirect_keeps|]. by rewrite Hout'.
  - destruct rest as [|n rest0].
    + (* the walker is unlinked *)
      destruct (list_elem_of_split _ _ Hin) as (L1 & L2 & Heq).
      assert (without X (pre ++ []) = L1 ++ L2) as Hwo.
      { rewrite Heq. apply without_mid. by rewrite <-Heq. }
      assert (WNode d ∉ nodes W X) as HdX by (by apply (loose_not_parked st (pre ++ []) W)).
      assert (∀ n2, n2 ∈ L2 → WNode d ∉ nodes W n2) as HdL.
      { intros n2 Hn2. apply (loose_not_parked st (pre ++ []) W); [done| |done].
        rewrite Heq. apply elem_of_app. right. by apply elem_of_cons; right. }
      rewrite Heq in Hr, Hset.
      destruct (disconnect_rep s st L1 X L2 W Hr Hkn)
        as (st' & Hdis & Hr' & _ & _ & _ & Hout' & _ & Hwfr & Eco & Efl & Edep & Etr
            & _ & Hwfr2).
      exists st', (redirect W X L2). rewrite Hwo.
      split; [done|]. split; [|split; [by eapply disconnect_settled|done]].
      split; [done|]. split; [congruence|]. right.
      split; [by rewrite <-Hwo, without_app|]. simpl. split.
      * rewrite Hout'; [done|]. intros Hd'. apply HdX. by apply elem_nodes.
      * destruct L2 as [|n2 L2]; [by rewrite Hwfr2|].
        rewrite Hwfr; [done|done|]. apply HdL. by apply elem_of_cons; left.
    + simpl in Hwk. destruct (decide (X = n)) as [->|Hne].
      * (* the connection the walker waits on *)
        destruct (disconnect_rep s st pre n rest0 W Hr Hkn)
          as (st' & Hdis & Hr' & _ & _ & Hin' & _ & Hloose' & _ & Eco & Efl & Edep & Etr & _).
        assert (n ∉ pre) as Hnp.
        { apply NoDup_app in Hnd as (_ & Hd1 & _). intros Hp. apply (Hd1 n Hp).
          by apply elem_of_cons; left. }
        exists st', (redirect W n rest0).
        rewrite (without_mid n pre rest0 Hnd), (without_notin n pre Hnp).
        rewrite without_head by (by apply NoDup_app in Hnd as (_ & _ & ?)).
        split; [done|]. split; [|split; [by eapply disconnect_settled|done]].
        split; [done|]. split; [congruence|]. right.
        split; [done|]. split; [by apply Hin'|].
        destruct rest0 as [|n' rest1]; [by apply Hloose'|].
        simpl. rewrite fn_lookup_insert. apply elem_of_app. by left.
      * destruct (list_elem_of_split _ _ Hin) as (L1 & L2 & Heq).
        assert (without X (pre ++ n :: rest0) = L1 ++ L2) as Hwo.
        { rewrite Heq. apply without_mid. by rewrite <-Heq. }
        assert (n ∈ pre ++ n :: rest0) as Hnin by apply elem_mid.
        assert (d ∉ W X) as HdX.
        { intros Hd'. apply Hne. by apply (rep_disj _ _ _ _ Hr X n d). }
        rewrite Heq in Hr, Hset.
        destruct (disconnect_rep s st L1 X L2 W Hr Hkn)
          as (st' & Hdis & Hr' & _ & _ & _ & Hout' & _ & _ & Eco & Efl & Edep & Etr & _).
        exists st', (redirect W X L2). rewrite Hwo.
        split; [done|]. split; [|split; [by eapply disconnect_settled|done]].
        split; [done|]. split; [congruence|]. right.
        rewrite (without_cons_ne X n rest0) by done.
        split; [by rewrite <-Hwo, without_app, without_cons_ne|].
        split; [by rewrite Hout'|]. by apply redirect_keeps.
Qed.

End disconnects.

Lemma filter_notin_nil (l : list addr) : filter (λ c, c ∉ @nil addr) l = l.
Proof.
  induction l as [|a l IH]; [done|].
  rewrite filter_cons_True by (by intros ?%elem_of_nil). by rewrite IH.
Qed.

Lemma filter_notin_cons X (Xs l : list addr) :
  filter (λ c, c ∉ X :: Xs) l = filter (λ c, c ∉ Xs) (without X l).
Proof.
  unfold without. rewrite list_filter_filter. apply list_filter_iff.
  intros c. rewrite not_elem_of_cons. tauto.
Qed.

Lemma filter_notin_app (Xs Ys l : list addr) :
  filter (λ c, c ∉ Xs ++ Ys) l = filter (λ c, c ∉ Ys) (filter (λ c, c ∉ Xs) l).
Proof.
  rewrite list_filter_filter. apply list_filter_iff.
  intros c. rewrite elem_of_app. tauto.
Qed.

Lemma targets_disconnects st c p id Xs :
  conns st !! c = Some (Conn p (Some (Slot id (OpDisconnect <$> Xs)))) →
  targets st c = Xs.
Proof.
  intros Hk. unfold targets. rewrite Hk. simpl. clear Hk.
  induction Xs as [|X Xs IH]; [done|]. simpl. f_equal. exact IH.
Qed.

Lemma targets_conns st st' c : conns st' = conns st → targets st' c = targets st c.
Proof. unfold targets. by intros ->. Qed.

Lemma visited_ext T T' : ∀ n l, (∀ c, T c = T' c) → visited n T l = visited n T' l.
Proof.
  induction n as [|n IH]; intros l HT; [done|]. destruct l as [|k l]; [done|].
  simpl. rewrite (IH _ HT). do 2 f_equal. apply list_filter_iff. intros c. by rewrite HT.
Qed.

Section disconnects_run.
Context (s : addr).
Implicit Types (st : state) (U L cur pre rest : list addr) (W : addr → list nat).

(** A callback made of [disconnect] calls. *)
Lemma run_disconnects Xs : ∀ st U d k pre rest W cur fuel,
  walking st s d k pre rest W cur → settled st s U cur →
  (∀ X, X ∈ Xs → X ∈ U) → length Xs < fuel →
  ∃ st' W', run_ops fuel (OpDisconnect <$> Xs) st = Ok (Normal, st')
    ∧ walking st' s d k (filter (λ c, c ∉ Xs) pre) (filter (λ c, c ∉ Xs) rest) W'
        (filter (λ c, c ∉ Xs) cur)
    ∧ settled st' s U (filter (λ c, c ∉ Xs) cur)
    ∧ conns st' = conns st ∧ flags st' = flags st ∧ trace st' = trace st.
Proof.
  induction Xs as [|X Xs IH]; intros st U d k pre rest W cur fuel Hw Hset HU Hfuel;
    (destruct fuel as [|fuel]; [simpl in Hfuel; lia|]).
  - exists st, W. rewrite !filter_notin_nil. by split_and!.
  - simpl. rewrite run_ops_cons.
    destruct (disconnect_walking s st U d k pre rest W cur X Hw Hset)
      as (st1 & W1 & Hdis & Hw1 & Hset1 & Eco1 & Efl1 & Etr1).
    { apply HU. by apply elem_of_cons; left. }
    rewrite Hdis. simpl.
    destruct (IH st1 U d k _ _ W1 _ fuel Hw1 Hset1) as (st' & W' & Hrun & Hw' & Hset' & Eco & Efl & Etr).
    { intros X' HX'. apply HU. by apply elem_of_cons; right. }
    { simpl in Hfuel. lia. }
    exists st', W'. rewrite !filter_notin_cons. split_and!; try done; congruence.
Qed.

(** Where the emission goes on after the callback. *)
Lemma advance_walking st d k pre rest W cur :
  walking st s d k pre rest W cur → advance d k st = Ok (Some (hd s rest)).
Proof.
  intros (Hr & _ & [(-> & _ & Hwk)|(_ & Hwk & _)]); unfold advance; rewrite Hwk; simpl.
  - by apply (rep_succ s st pre k rest W).
  - done.
Qed.

Lemma plant_settled st U cur W k st1 :
  rep st s cur W → settled st s U cur → k ∈ cur → plant k st = Ok st1 →
  settled st1 s U cur.
Proof.
  intros Hr Hset Hk Hpl.
  destruct (plant_rep s st cur W k Hr Hk) as (st1' & Hpl' & _ & _ & Ecl & Eco & _).
  rewrite Hpl in Hpl'. injection Hpl' as <-.
  intros c Hc. destruct (Hset c Hc) as [Hkn Hwhere]. split.
  { unfold knows. by rewrite Eco. }
  destruct (decide (c ∈ cur)) as [?|Hnin]; [by left|right].
  destruct Hwhere as [?|[Hcl Hwl]]; [done|].
  split; [by rewrite Ecl|]. apply dlist_nil.
  rewrite (plant_other s st cur W k st1 (WRoot c) Hr Hk Hpl); [by apply dlist_nil_inv| |done].
  intros [[= ->]|(? & [=] & _)%list_elem_of_fmap]%elem_of_cons. done.
Qed.

(** Retiring the walker writes to no list root of an idle connection. *)
Lemma retire_root st L W d c st' :
  rep st s L W →
  (∃ c0, c0 ∈ L ∧ d ∈ W c0) ∨ wlinks st !! WNode d = Some (ListElement None None) →
  c ∉ L → retire d st = Ok st' →
  wlinks st' !! WRoot c = wlinks st !! WRoot c.
Proof.
  intros Hr Hwhere Hc. unfold retire.
  destruct Hwhere as [(c0 & Hc0 & Hd)|Hloose].
  - apply list_elem_of_split in Hd as (ds1 & ds2 & HW).
    pose proof (rep_walk _ _ _ _ Hr c0 Hc0) as Hw.
    rewrite HW, fmap_app, fmap_cons in Hw.
    destruct (dlist_unlink _ _ _ _ _ Hw) as (h' & Hun & _ & _ & _ & _ & Fn & Fp).
    rewrite Hun. simpl. intros [= <-]. simpl.
    rewrite lookup_delete_ne by done.
    assert (c ≠ c0) as Hne by (by intros ->).
    apply lookup_frame; [apply Fn|apply Fp]; try done.
    + intros Heq. pose proof (last_or_elem (WNode <$> ds1) (WRoot c0)) as Hl.
      rewrite <-Heq in Hl.
      apply elem_of_cons in Hl as [[= ?]|(? & [=] & _)%list_elem_of_fmap]. done.
    + intros Heq. pose proof (hd_elem (WNode <$> ds2) (WRoot c0)) as Hl.
      rewrite <-Heq in Hl.
      apply elem_of_app in Hl as [(? & [=] & _)%list_elem_of_fmap|[= ?]%list_elem_of_singleton].
      done.
  - rewrite (unlink_unlinked _ _ Hloose). simpl. intros [= <-]. simpl.
    by rewrite lookup_delete_ne.
Qed.

End disconnects_run.

Section disconnects_loop.
Context (s : addr).
Implicit Types (st : state) (U L cur pre rest : list addr) (W : addr → list nat).

Lemma emit_loop_end fuel st : 1 ≤ fuel → emit_loop fuel s (Some s) st = Ok (Normal, st).
Proof.
  destruct fuel as [|fuel]; [lia|]. intros _.
  rewrite emit_loop_unfold. by rewrite bool_decide_eq_true_2.
Qed.

(** The loop of [operator()] over connections whose callbacks disconnect
    connections of the signal. *)
Lemma disconnects_loop U B : ∀ n rest pre st W fuel,
  length rest ≤ n →
  rep st s (pre ++ rest) W →
  settled st s U (pre ++ rest) →
  (∀ c, c ∈ rest → disconnecting st s U c ∧ length (targets st c) ≤ B) →
  n + B + 2 ≤ fuel →
  ∃ st' W',
    emit_loop fuel s (Some (hd s rest)) st = Ok (Normal, st')
    ∧ trace st' = trace st ++ (slot_id st <$> visited n (targets st) rest)
    ∧ rep st' s
        (filter (λ c, c ∉ concat (targets st <$> visited n (targets st) rest))
           (pre ++ rest)) W'
    ∧ settled st' s U
        (filter (λ c, c ∉ concat (targets st <$> visited n (targets st) rest))
           (pre ++ rest))
    ∧ depth st' = depth st ∧ conns st' = conns st ∧ flags st' = flags st.
Proof.
  induction n as [|n IH]; intros rest pre st W fuel Hlen Hr Hset Hbody Hfuel.
  { destruct rest; [|simpl in Hlen; lia]. simpl.
    exists st, W. rewrite emit_loop_end by lia.
    rewrite filter_notin_nil, app_nil_r. by split_and!. }
  destruct rest as [|k rest0].
  { simpl. exists st, W. rewrite emit_loop_end by lia.
    rewrite filter_notin_nil, app_nil_r. by split_and!. }
  destruct fuel as [|fuel]; [lia|].
  assert (k ∈ pre ++ k :: rest0) as Hkin by apply elem_mid.
  destruct (Hbody k) as [(id & Xs & Hk & HXs) HB]; [by apply elem_of_cons; left|].
  rewrite Forall_forall in HXs.
  pose proof (targets_disconnects st k _ id Xs Hk) as HT.
  rewrite HT in HB.
  destruct (plant_rep s st _ W k Hr Hkin)
    as (st1 & Hpl & Hr1 & Hdep1 & Ecl1 & Eco1 & Efl1 & Etr1 & Ewa1).
  pose proof (plant_settled s st U _ W k st1 Hr Hset Hkin Hpl) as Hset1.
  set (d := depth st) in *.
  set (st1' := with_trace (trace st1 ++ [id]) st1).
  assert (walking st1' s d k pre rest0 (<[k := d :: W k]> W) (pre ++ k :: rest0)) as Hw1.
  { split; [by apply rep_with_trace|]. split; [done|]. left. split; [done|].
    split; [rewrite fn_lookup_insert; by apply elem_of_cons; left|].
    simpl. by rewrite Ewa1, lookup_insert_eq. }
  assert (settled st1' s U (pre ++ k :: rest0)) as Hset1' by done.
  destruct (run_disconnects s Xs st1' U d k pre rest0 _ _ fuel Hw1 Hset1' HXs)
    as (st2 & W2 & Hrun & Hw2 & Hset2 & Eco2 & Efl2 & Etr2); [lia|].
  pose proof (advance_walking s st2 d k _ _ W2 _ Hw2) as Hadv.
  set (pre' := filter (λ c, c ∉ Xs) pre) in *.
  set (rest' := filter (λ c, c ∉ Xs) rest0) in *.
  set (cur' := filter (λ c, c ∉ Xs) (pre ++ k :: rest0)) in *.
  destruct Hw2 as (Hr2 & Hdep2 & Hpos).
  assert (∃ pre'', cur' = pre'' ++ rest'
           ∧ ((∃ c, c ∈ cur' ∧ d ∈ W2 c)
              ∨ wlinks st2 !! WNode d = Some (ListElement None None)))
    as (pre'' & Ecur & Hwhere).
  { destruct Hpos as [(E & Hd & _)|(E & _ & Hpark)].
    - exists (pre' ++ [k]). rewrite <-app_assoc. split; [done|]. left.
      exists k. split; [|done]. rewrite E. apply elem_mid.
    - exists pre'. split; [done|]. destruct rest' as [|n' rest1]; [by right|left].
      exists n'. split; [|done]. rewrite E. apply elem_mid. }
  destruct (retire_rep s st2 cur' W2 d Hr2 Hdep2 Hwhere)
    as (st3 & W3 & Hret & Hr3 & Ecl3 & Eco3 & Efl3 & Etr3 & Edep3).
  assert (settled st3 s U cur') as Hset3.
  { intros c Hc. destruct (Hset2 c Hc) as [Hkn Hw]. split.
    { unfold knows. by rewrite Eco3. }
    destruct (decide (c ∈ cur')) as [?|Hnin]; [by left|right].
    destruct Hw as [?|[Hcl Hwl]]; [done|].
    split; [by rewrite Ecl3|]. apply dlist_nil.
    rewrite (retire_root s st2 cur' W2 d c st3 Hr2 Hwhere Hnin Hret).
    by apply dlist_nil_inv. }
  assert (conns st3 = conns st) as Eco.
  { rewrite Eco3, Eco2. simpl. done. }
  rewrite Ecur in Hr3, Hset3.
  destruct (IH rest' pre'' st3 W3 fuel) as (st' & W' & Hloop & Htr & Hr' & Hset' & Hdep' & Hco' & Hfl');
    try done.
  { pose proof (length_filter (λ c, c ∉ Xs) rest0) as Hle. simpl in Hlen.
    unfold rest'. lia. }
  { intros c Hc. apply list_elem_of_filter in Hc as [_ Hc].
    destruct (Hbody c) as [(idc & Xc & Hkc & HXc) HBc]; [by apply elem_of_cons; right|].
    split.
    - exists idc, Xc. by rewrite Eco.
    - by rewrite (targets_conns st st3 c Eco). }
  { lia. }
  exists st', W'.
  assert (visited n (targets st3) rest' = visited n (targets st) rest') as Ev.
  { apply visited_ext. intros c. by apply targets_conns. }
  rewrite Ev in Htr, Hr', Hset'.
  assert (∀ l : list addr, targets st3 <$> l = targets st <$> l) as Et.
  { intros l. apply list_fmap_ext. intros i c _. by apply targets_conns. }
  rewrite Et in Hr', Hset'.
  assert (filter (λ c, c ∉ concat (targets st <$> visited (S n) (targets st) (k :: rest0)))
            (pre ++ k :: rest0)
          = filter (λ c, c ∉ concat (targets st <$> visited n (targets st) rest'))
              (pre'' ++ rest')) as Efin.
  { simpl. rewrite HT. fold rest'. rewrite filter_notin_app. fold cur'. by rewrite Ecur. }
  rewrite Efin.
  split_and!; try done.
  - rewrite emit_loop_unfold, bool_decide_eq_false_2.
    2:{ unfold end_. intros [= ->]. by apply (rep_not_root s st _ W s Hr). }
    simpl. rewrite Hpl. simpl. rewrite Eco1, Hk. simpl.
    fold st1'. rewrite Hrun. simpl. fold d. rewrite Hadv. simpl. rewrite Hret. simpl.
    exact Hloop.
  - rewrite Htr, Etr3, Etr2. simpl. rewrite Etr1, <-app_assoc. simpl. rewrite HT.
    fold rest'. do 2 f_equal.
    + unfold slot_id. by rewrite Hk.
    + apply list_fmap_ext. intros i c _. by apply slot_id_conns.
  - by rewrite Hdep', Edep3.
  - by rewrite Hco'.
  - rewrite Hfl', Efl3, Efl2. simpl. done.
Qed.

End disconnects_loop.

Section visited_facts.
Context (T : addr → list addr).

Lemma visited_sublist : ∀ n l, visited n T l `sublist_of` l.
Proof.
  induction n as [|n IH]; intros l; [apply sublist_nil_l|].
  destruct l as [|k l]; [done|]. simpl. apply sublist_skip.
  etrans; [apply IH|apply sublist_filter].
Qed.

(** No connection reached after [k] is one that [k] disconnects. *)
Lemma visited_later : ∀ n l v1 k v2 c,
  visited n T l = v1 ++ k :: v2 → c ∈ v2 → c ∉ T k.
Proof.
  induction n as [|n IH]; intros l v1 k v2 c Hv Hc.
  { by destruct v1. }
  destruct l as [|a l]; [by destruct v1|]. simpl in Hv.
  destruct v1 as [|a' v1]; simpl in Hv; injection Hv as -> Hv.
  - rewrite <-Hv in Hc.
    pose proof (elem_of_sublist _ _ _ Hc (visited_sublist n _)) as Hf.
    by apply list_elem_of_filter in Hf as [? _].
  - by apply (IH _ _ _ _ _ Hv).
Qed.

(** A connection that is not reached was disconnected by one that is. *)
Lemma visited_missed : ∀ n l c,
  length l ≤ n → c ∈ l → c ∉ visited n T l → ∃ k, k ∈ visited n T l ∧ c ∈ T k.
Proof.
  induction n as [|n IH]; intros l c Hlen Hc Hv.
  { destruct l; [by apply elem_of_nil in Hc|simpl in Hlen; lia]. }
  destruct l as [|a l]; [by apply elem_of_nil in Hc|]. simpl in *.
  apply elem_of_cons in Hc as [->|Hc].
  { exfalso. apply Hv. by apply elem_of_cons; left. }
  destruct (decide (c ∈ T a)) as [Hin|Hnin].
  { exists a. split; [by apply elem_of_cons; left|done]. }
  destruct (IH (filter (λ c, c ∉ T a) l) c) as (k & Hk & Hck).
  - pose proof (length_filter (λ c, c ∉ T a) l). lia.
  - by apply list_elem_of_filter.
  - intros Hin. apply Hv. by apply elem_of_cons; right.
  - exists k. split; [by apply elem_of_cons; right|done].
Qed.

End visited_facts.

Lemma scene_cutting_rep : rep scene_cutting 10 [13; 12; 11] (λ _, []).
Proof. apply rep_with_conns, scene_rep. Qed.

(** X17: An emission over connections that all hold the address of the
    signal in their [parent] field, as the constructor called by [connect]
    sets it (the storage a connection was moved to does not), and whose
    callbacks disconnect any of these connections, themselves and already
    disconnected ones included, any number of times.  It returns normally
    and never reads an unlinked or null link.  The connections invoked are those computed by
    [visited]: from the front, each connection that no callback invoked
    before it has disconnected; each at most once, in list order.  The heap
    then represents the signal with the connections no invoked callback has
    disconnected, all walkers are retired, and every connection is either
    connected or unlinked with no walker left on it. *)
Theorem emission_with_disconnecting_callbacks st s L W U B fuel :
  rep st s L W →
  settled st s U L →
  (∀ c, c ∈ L → disconnecting st s U c ∧ length (targets st c) ≤ B) →
  length L + B + 3 ≤ fuel →
  ∃ st' W',
    emit fuel s st = Ok (Normal, st')
    ∧ trace st' = trace st ++ (slot_id st <$> visited (length L) (targets st) L)
    ∧ rep st' s
        (filter (λ c, c ∉ concat (targets st <$> visited (length L) (targets st) L)) L)
        W'
    ∧ settled st' s U
        (filter (λ c, c ∉ concat (targets st <$> visited (length L) (targets st) L)) L)
    ∧ depth st' = depth st ∧ conns st' = conns st
    ∧ visited (length L) (targets st) L `sublist_of` L
    ∧ (∀ v1 k v2 c, visited (length L) (targets st) L = v1 ++ k :: v2 →
         c ∈ v2 → c ∉ targets st k)
    ∧ (∀ c, c ∈ L → c ∉ visited (length L) (targets st) L →
         ∃ k, k ∈ visited (length L) (targets st) L ∧ c ∈ targets st k).
Proof.
  intros Hr Hset Hbody Hfuel.
  destruct fuel as [|fuel]; [lia|].
  rewrite (emit_entry s st L W fuel Hr) by lia.
  destruct (disconnects_loop s U B (length L) L [] st W fuel)
    as (st' & W' & Hloop & Htr & Hr' & Hset' & Hdep & Hco & _); try done; [lia|].
  exists st', W'. split_and!; try done.
  - apply visited_sublist.
  - apply visited_later.
  - intros c. by apply visited_missed.
Qed.

Lemma emission_with_disconnecting_callbacks_witness :
  ∃ st' W',
    emit 8 10 scene_cutting = Ok (Normal, st')
    ∧ trace st' = [] ++ [3; 1]
    ∧ rep st' 10 [] W'
    ∧ settled st' 10 [13; 12; 11] []
    ∧ depth st' = 0 ∧ conns st' = conns scene_cutting.
Proof.
  assert (visited 3 (targets scene_cutting) [13; 12; 11] = [13; 11]) as Ev.
  { vm_compute. reflexivity. }
  assert (filter (λ c, c ∉ concat (targets scene_cutting <$> [13; 11])) [13; 12; 11] = [])
    as Ef.
  { vm_compute. reflexivity. }
  assert (slot_id scene_cutting <$> [13; 11] = [3; 1]) as Es.
  { vm_compute. reflexivity. }
  destruct (emission_with_disconnecting_callbacks scene_cutting 10 [13; 12; 11]
              (λ _, []) [13; 12; 11] 2 8)
    as (st' & W' & Hem & Htr & Hr & Hset & Hdep & Hco & _).
  - apply scene_cutting_rep.
  - intros c Hc. split; [|by left].
    repeat (apply elem_of_cons in Hc as [->|Hc]);
      [by eexists..|by apply elem_of_nil in Hc].
  - intros c Hc. repeat (apply elem_of_cons in Hc as [->|Hc]);
      [| | |by apply elem_of_nil in Hc].
    + split; [exists 3, [12; 13]; split; [reflexivity|compute_done]|vm_compute; lia].
    + split; [exists 2, []; split; [reflexivity|compute_done]|vm_compute; lia].
    + split; [exists 1, [13; 11]; split; [reflexivity|compute_done]|vm_compute; lia].
  - simpl. lia.
  - change (length [13; 12; 11]) with 3 in Htr, Hr, Hset.
    rewrite Ev in Htr, Hr, Hset. rewrite Ef in Hr, Hset. rewrite Es in Htr.
    exists st', W'. split; [exact Hem|]. split; [exact Htr|]. split; [exact Hr|].
    split; [exact Hset|]. split; [exact Hdep|exact Hco].
Defined.
